(** * atree: the gathering and aggregation engine

    A shallow embedding of [atree.py]: the null-aware operators, the sort
    comparator, the bounded top-K selector (on Python's [heapq]), the
    duplicate grouper and the recursive walk [Tree._gather], followed by the
    properties of these that the specification states.  The utilities of
    the display and of the tree-maker that stand beside them in the file
    (string widths, formatters, mode strings, predicates, sort keys, dates)
    come with the further properties of the code at the end.

    Conventions of the embedding.
    - Python's [None] is [None] of [option]; an attribute that holds a number
      or [None] is an [option Z].  Sizes and line counts are integers.  Time
      stamps are only ever compared and copied by the walk, never added, so
      they are taken in [Z] as well (any totally ordered carrier would do).
    - An exception that the code does not catch is a [Raise] of the [Res]
      monad: [IndexError] for a list index out of range, [AttributeError] for
      reading an attribute that was never set (or calling a method of [None]),
      [TypeError] for an ordering comparison Python refuses.
    - The file system is a snapshot ([Entry]) on which [lstat] and [stat]
      succeed for every listed entry: the stat-derived properties of a [Node]
      are the values they return on that snapshot, so their caching, and the
      warnings or the uncaught [OSError] of a failing [stat], are outside the
      model.  What can fail is [os.listdir] (an [OSError], which [_gather]
      catches) and the reading of a file's bytes.
    - A Python [set] of nodes is the [list] of its elements in insertion
      order; a [dict] is a [gmap]. *)

From Stdlib Require Import ZArith Ascii String List Lia Permutation.
From stdpp Require Import base option list gmap strings sorting.

#[local] Open Scope Z_scope.
#[local] Set Warnings "-register-all".

(* ===================================================================== *)
(** * Part I: the program *)
(* ===================================================================== *)

(** ** Exceptions *)

Inductive Exn : Type :=
  | IndexError
  | TypeError
  | AttributeError (attr : string).

Inductive Res (A : Type) : Type :=
  | Ok (a : A)
  | Raise (e : Exn).
Arguments Ok {A} a.
Arguments Raise {A} e.

#[export] Instance Res_ret : MRet Res := @Ok.
#[export] Instance Res_bind : MBind Res :=
  λ A B f m, match m with Ok a => f a | Raise e => Raise e end.

(** [l[i]] and [l[i] = v] on a Python list. *)
Definition getitem {A} (l : list A) (i : nat) : Res A :=
  match l !! i with
  | Some x => Ok x
  | None => Raise IndexError
  end.

Definition setitem {A} (l : list A) (i : nat) (v : A) : Res (list A) :=
  if bool_decide (i < length l)%nat then Ok (<[i:=v]> l) else Raise IndexError.

(** ** Utilities: compare functions ([lt] .. [sum_of]) *)

Module Null.

(** [i = int(a is not None) + 2 * int(b is not None)] *)
Definition presence {A B} (a : option A) (b : option B) : Z :=
  Z.b2z (bool_decide (is_Some a)) + 2 * Z.b2z (bool_decide (is_Some b)).

Definition lt (a b : option Z) : bool :=
  let i := presence a b in
  (i =? 2) || ((i =? 3) && match a, b with Some x, Some y => x <? y | _, _ => false end).

Definition le (a b : option Z) : bool :=
  let i := presence a b in
  (i =? 0) || (i =? 2) ||
  ((i =? 3) && match a, b with Some x, Some y => x <=? y | _, _ => false end).

Definition gt (a b : option Z) : bool := lt b a.

Definition ge (a b : option Z) : bool := le b a.

Definition min_of (a b : option Z) : option Z := if lt a b then a else b.

Definition max_of (a b : option Z) : option Z := if lt a b then b else a.

Definition nn_lt (a b : option Z) : bool := bool_decide (is_Some a) && lt a b.

Definition nn_le (a b : option Z) : bool := bool_decide (is_Some a) && le a b.

Definition add (a b : option Z) : option Z :=
  let i := presence a b in
  if i =? 0 then None
  else if i =? 1 then a
  else if i =? 2 then b
  else match a, b with Some x, Some y => Some (x + y) | _, _ => None end.

End Null.

(** [best_of] and [sum_of] read one attribute of every node of a list;
    [getattr n attr] is [getattr(n, attr, None)]. *)
Section best_sum.
Context {obj : Type} (getattr : obj → string → option Z).

(** [(a for a in attrs if a is not None)] *)
Definition present_attrs (nodes : list obj) (attr : string) : list Z :=
  omap (λ n, getattr n attr) nodes.

(** [max] of a non-empty sequence; [None] stands for the [ValueError]
    Python raises on an empty one. *)
Definition py_max (l : list Z) : option Z :=
  match l with
  | [] => None
  | x :: l' => Some (foldl Z.max x l')
  end.

(** [sum] of a sequence, starting from [0]. *)
Definition py_sum (l : list Z) : Z := foldl Z.add 0 l.

Definition best_of (nodes : list obj) (attr : string) : option Z :=
  match py_max (present_attrs nodes attr) with
  | Some m => Some m
  | None => None          (* except ValueError: return None *)
  end.

(** [sum_of] always returns a number: the sum of the present values. *)
Definition sum_of (nodes : list obj) (attr : string) : option Z :=
  Some (py_sum (present_attrs nodes attr)).
End best_sum.

(** ** [fields_to_cmp]

    A field of a node is a number (Python [int], [float] or [bool]) or a
    string.  [>] and [<] between a number and a string raise [TypeError]. *)
Inductive FieldVal : Type :=
  | Num (z : Z)
  | Str (s : string).

Fixpoint string_ltb (s t : string) : bool :=
  match s, t with
  | EmptyString, EmptyString => false
  | EmptyString, String _ _ => true
  | String _ _, EmptyString => false
  | String a s', String b t' =>
      let x := Ascii.nat_of_ascii a in
      let y := Ascii.nat_of_ascii b in
      if (x <? y)%nat then true
      else if (y <? x)%nat then false
      else string_ltb s' t'
  end.

(** [(af > bf) - (af < bf)] *)
Definition three_way (af bf : FieldVal) : Res Z :=
  match af, bf with
  | Num x, Num y => Ok (Z.b2z (y <? x) - Z.b2z (x <? y))
  | Str s, Str t => Ok (Z.b2z (string_ltb t s) - Z.b2z (string_ltb s t))
  | _, _ => Raise TypeError
  end.

Definition is_number (v : FieldVal) : bool :=
  match v with Num _ => true | Str _ => false end.

Section fields_to_cmp.
Context {obj : Type} (getattr : obj → string → option FieldVal).

(** The [for f in fields] loop of [cmp], on two nodes that are not [None]. *)
Fixpoint cmp_fields (fields : list string) (a b : obj) : Res Z :=
  match fields with
  | [] => Ok 0
  | f :: fields' =>
      let af := getattr a f in
      let bf := getattr b f in
      let i := Null.presence af bf in
      if (0 <? i) && (i <? 3) then Ok (if i =? 1 then -1 else 1)
      else if i =? 3 then
        match af, bf with
        | Some x, Some y =>
            result ← three_way x y;
            if negb (result =? 0) then
              if is_number x then Ok (- result) else Ok result
            else cmp_fields fields' a b
        | _, _ => cmp_fields fields' a b
        end
      else cmp_fields fields' a b
  end.

Definition fields_to_cmp (fields : list string) (a b : option obj) : Res Z :=
  let i := Null.presence a b in
  if i <? 3 then Ok (if i =? 0 then 0 else if i =? 1 then -1 else 1)
  else match a, b with
       | Some x, Some y => cmp_fields fields x y
       | _, _ => Ok 0
       end.
End fields_to_cmp.

(** ** Python's [heapq]

    [Top_K_and_Which] keeps its items in a list managed by
    [heapq.heappush] and [heapq.heappushpop] of the Python standard library;
    these, with [_siftdown] and [_siftup], are transcribed from
    [Lib/heapq.py].  Items are compared with [<] only ([lt]).

    The two [while] loops are given a number of [steps].  Each iteration of
    [_siftdown]'s loop strictly decreases [pos] and each iteration of
    [_siftup]'s loop strictly increases it below [endpos], so [pos] steps
    are enough for the first and [endpos] for the second: the loops are
    started with these and leave by their own test
    ([_siftdown_loop_steps], [_siftup_loop_steps]). *)
Section heapq.
Context {A : Type} (lt : A → A → bool).

Fixpoint _siftdown_loop (steps : nat) (heap : list A) (newitem : A)
    (startpos pos : nat) : Res (list A * nat) :=
  match steps with
  | O => Ok (heap, pos)
  | S steps' =>
      if bool_decide (startpos < pos)%nat then
        let parentpos := Nat.shiftr (pos - 1) 1 in
        parent ← getitem heap parentpos;
        if lt newitem parent then
          heap' ← setitem heap pos parent;
          _siftdown_loop steps' heap' newitem startpos parentpos
        else Ok (heap, pos)
      else Ok (heap, pos)
  end.

Definition _siftdown (heap : list A) (startpos pos : nat) : Res (list A) :=
  newitem ← getitem heap pos;
  '(heap', pos') ← _siftdown_loop pos heap newitem startpos pos;
  setitem heap' pos' newitem.

(** The loop variable [childpos] is [2*pos + 1] at every test of the
    loop, so it is recomputed from [pos]. *)
Fixpoint _siftup_loop (steps : nat) (heap : list A) (endpos pos : nat)
    : Res (list A * nat) :=
  match steps with
  | O => Ok (heap, pos)
  | S steps' =>
      let childpos := (2 * pos + 1)%nat in
      if bool_decide (childpos < endpos)%nat then
        let rightpos := (childpos + 1)%nat in
        childpos' ←
          (if bool_decide (rightpos < endpos)%nat then
             l ← getitem heap childpos;
             r ← getitem heap rightpos;
             Ok (if negb (lt l r) then rightpos else childpos)
           else Ok childpos);
        child ← getitem heap childpos';
        heap' ← setitem heap pos child;
        _siftup_loop steps' heap' endpos childpos'
      else Ok (heap, pos)
  end.

Definition _siftup (heap : list A) (pos : nat) : Res (list A) :=
  let endpos := length heap in
  let startpos := pos in
  newitem ← getitem heap pos;
  '(heap', pos') ← _siftup_loop endpos heap endpos pos;
  heap'' ← setitem heap' pos' newitem;
  _siftdown heap'' startpos pos'.

Definition heappush (heap : list A) (item : A) : Res (list A) :=
  let heap' := heap ++ [item] in
  _siftdown heap' 0 (length heap' - 1).

(** Returns the item handed back and the heap. *)
Definition heappushpop (heap : list A) (item : A) : Res (A * list A) :=
  match heap with
  | heap0 :: _ =>
      if lt heap0 item then
        heap' ← setitem heap 0%nat item;
        heap'' ← _siftup heap' 0;
        Ok (heap0, heap'')
      else Ok (item, heap)
  | [] => Ok (item, heap)
  end.
End heapq.

(** ** The top-K selector *)

Section top_k.
Context {W : Type}.

Record Value_and_Which : Type := mkVW { value : Z; which : W }.

(** [Value_and_Which.__lt__] *)
Definition vw_lt (self other : Value_and_Which) : bool :=
  value self <? value other.

Record Top_K_and_Which : Type := mkTopK {
  capacity : Z;
  _list : list Value_and_Which
}.

(** [Top_K_and_Which(capacity)] *)
Definition Top_K_init (capacity : Z) : Top_K_and_Which :=
  {| capacity := capacity; _list := [] |}.

(** [push] returns what [heappush] ([None]) or [heappushpop] (an item)
    returns, next to the selector after the call. *)
Definition push (self : Top_K_and_Which) (value : Z) (which : W)
    : Res (option Value_and_Which * Top_K_and_Which) :=
  if Z.of_nat (length (_list self)) <? capacity self then
    l ← heappush vw_lt (_list self) (mkVW value which);
    Ok (None, {| capacity := capacity self; _list := l |})
  else
    '(item, l) ← heappushpop vw_lt (_list self) (mkVW value which);
    Ok (Some item, {| capacity := capacity self; _list := l |}).

Definition next_to_pop (self : Top_K_and_Which) : Res (option Z) :=
  if Z.of_nat (length (_list self)) <? capacity self then Ok None
  else item ← getitem (_list self) 0%nat; Ok (Some (value item)).

(** The values held, in list order. *)
Definition held (self : Top_K_and_Which) : list Z := value <$> _list self.

(** The offers of a stream, one [push] after the other. *)
Fixpoint push_all (self : Top_K_and_Which) (stream : list (Z * W))
    : Res Top_K_and_Which :=
  match stream with
  | [] => Ok self
  | (v, w) :: stream' =>
      '(_, self') ← push self v w;
      push_all self' stream'
  end.
End top_k.
Arguments Value_and_Which W : clear implicits.
Arguments Top_K_and_Which W : clear implicits.

(** ** The file system seen by the walk *)

(** What [lstat] and [stat] say an entry is: a regular file, a directory, a
    symbolic link (whose target is a directory or not), or anything else
    (socket, device, ...). *)
Inductive Kind : Type :=
  | Regular
  | Directory
  | Symlink (to_dir : bool)
  | Special.

(** The facts about one entry that the walk reads. *)
Record Raw : Type := mkRaw {
  d_name : string;                (* its name in [os.listdir] *)
  st_kind : Kind;
  st_size : Z;
  st_atime : Z;
  st_btime : Z;                   (* [st_birthtime], else [st_ctime] *)
  st_ctime : Z;
  st_mtime : Z;
  guess_text : bool;              (* what [guess_text(path)] answers *)
  count_lines : option Z;         (* what [count_lines(path)] returns *)
  read_bytes : option string      (* the bytes of the file; [None]: the
                                     [open] raises [PermissionError] *)
}.

(** An entry with what [os.listdir] gives for it: an [OSError] with its
    message, or the entries below it. *)
Inductive Entry : Type :=
  mkEntry (raw : Raw) (listdir_error : option string) (entries : list Entry).

Definition raw_of (e : Entry) : Raw :=
  match e with mkEntry r _ _ => r end.

(** ** Nodes *)

(** The aggregate attributes [_gather] sets on a directory. *)
Record Agg : Type := mkAgg {
  fcount : Z;
  dcount : Z;
  blines : option Z;
  rlines : option Z;
  bsize : option Z;
  rsize : Z;
  batime : option Z;
  bbtime : option Z;
  bctime : option Z;
  bmtime : option Z
}.

(** [father] is a back-reference: the father's path stands for it.
    [ignore = false], [agg = None] and [top_val = None] say that the
    attribute was never set on the object. *)
Inductive Node : Type := mkNode {
  path : string;
  name : string;
  father : option string;
  is_link : bool;
  is_dir : bool;
  is_file : bool;
  is_to_dir : bool;
  lines : option Z;
  size : Z;
  atime : Z;
  btime : Z;
  ctime : Z;
  mtime : Z;
  md5 : option string;
  children : option (list Node);
  ignore : bool;
  agg : option Agg;
  top_val : option (option Z)
}.

Definition set_children (n : Node) (c : option (list Node)) : Node :=
  mkNode (path n) (name n) (father n) (is_link n) (is_dir n) (is_file n)
    (is_to_dir n) (lines n) (size n) (atime n) (btime n) (ctime n) (mtime n)
    (md5 n) c (ignore n) (agg n) (top_val n).

Definition set_ignore (n : Node) (b : bool) : Node :=
  mkNode (path n) (name n) (father n) (is_link n) (is_dir n) (is_file n)
    (is_to_dir n) (lines n) (size n) (atime n) (btime n) (ctime n) (mtime n)
    (md5 n) (children n) b (agg n) (top_val n).

Definition set_agg (n : Node) (a : option Agg) : Node :=
  mkNode (path n) (name n) (father n) (is_link n) (is_dir n) (is_file n)
    (is_to_dir n) (lines n) (size n) (atime n) (btime n) (ctime n) (mtime n)
    (md5 n) (children n) (ignore n) a (top_val n).

Definition set_top_val (n : Node) (v : option (option Z)) : Node :=
  mkNode (path n) (name n) (father n) (is_link n) (is_dir n) (is_file n)
    (is_to_dir n) (lines n) (size n) (atime n) (btime n) (ctime n) (mtime n)
    (md5 n) (children n) (ignore n) (agg n) v.

(** Reading [n.fcount] .. [n.bmtime], reading [n.top_val], and
    [n.children.add(x)]. *)
Definition get_agg (n : Node) : Res Agg :=
  match agg n with
  | Some a => Ok a
  | None => Raise (AttributeError "fcount")
  end.

Definition get_top_val (n : Node) : Res (option Z) :=
  match top_val n with
  | Some v => Ok v
  | None => Raise (AttributeError "top_val")
  end.

Definition children_add (n x : Node) : Res Node :=
  match children n with
  | Some c => Ok (set_children n (Some (c ++ [x])))
  | None => Raise (AttributeError "add")
  end.

(** The metrics a top-mode can rank by: [top_mode] is ["f"] followed by one
    of these names, [top_attr] is ["b"] followed by it. *)
Inductive Metric : Type :=
  | m_lines | m_size | m_atime | m_btime | m_ctime | m_mtime.

(** [getattr(f, self.top_mode, None)]: [Node.__getattr__] on an ["f.."]
    name gives the plain attribute of a file or link and [None] of anything
    else. *)
Definition getattr_f (f : Node) (m : Metric) : option Z :=
  if is_file f || is_link f then
    match m with
    | m_lines => lines f
    | m_size => Some (size f)
    | m_atime => Some (atime f)
    | m_btime => Some (btime f)
    | m_ctime => Some (ctime f)
    | m_mtime => Some (mtime f)
    end
  else None.

(** [getattr(root, self.top_attr)] on the aggregates just set. *)
Definition getattr_b (a : Agg) (m : Metric) : option Z :=
  match m with
  | m_lines => blines a
  | m_size => bsize a
  | m_atime => batime a
  | m_btime => bbtime a
  | m_ctime => bctime a
  | m_mtime => bmtime a
  end.

Definition INF_INT : Z := 4294967295.      (* 0xFFFFFFFF *)
Definition EMPTY_FILE_MD5_HASH : string := "~".
Definition EMPTY_FILE_MD5_ORIG : string := "d41d8cd98f00b204e9800998ecf8427e".

Definition SEP : Ascii.ascii := "/"%char.

Fixpoint has_sep (p : string) : bool :=
  match p with
  | EmptyString => false
  | String c p' => Ascii.eqb c SEP || has_sep p'
  end.

(** [os.path.basename]: what follows the last separator. *)
Fixpoint basename (p : string) : string :=
  match p with
  | EmptyString => EmptyString
  | String c p' =>
      if has_sep p' then basename p'
      else if Ascii.eqb c SEP then p' else p
  end.

Fixpoint ends_with_sep (p : string) : bool :=
  match p with
  | EmptyString => false
  | String c EmptyString => Ascii.eqb c SEP
  | String _ p' => ends_with_sep p'
  end.

(** [os.path.join(a, b)] (POSIX). *)
Definition path_join (a b : string) : string :=
  match b with
  | String c _ =>
      if Ascii.eqb c SEP then b
      else if String.eqb a "" || ends_with_sep a then a ++ b
      else a ++ String SEP b
  | EmptyString =>
      if String.eqb a "" || ends_with_sep a then a else a ++ String SEP ""
  end.

(** [make_maxlen] *)
Definition make_maxlen (line : string) (maxlen : nat) : string :=
  if (String.length line <=? maxlen)%nat then line
  else substring 0 (maxlen - 4) line ++ " ...".

(** [" " * n] *)
Fixpoint spaces (n : nat) : string :=
  match n with
  | O => EmptyString
  | S n' => String " "%char (spaces n')
  end.

(** What the walk prints: [print(line, end="\r")] for the progress, and
    [print("Warning:", message)]. *)
Inductive Event : Type :=
  | Progress (line : string)
  | Warning (message : string).

(** ** The tree: configuration, state and the walk *)

(** The attributes of [Tree] that [_gather] reads and never writes.
    [WARNINGS_ON] is the module's global switch ([Tree.__init__] clears it
    under [no_warnings]). *)
Record Config : Type := mkConfig {
  access_level : Z;
  fpred : Node → bool;
  dpred : Node → bool;
  dpost : Node → bool;
  always_show_dirs : bool;
  top_mode : option Metric;
  dup_mode : bool;
  dup_nonempty : bool;
  read_lines : bool;
  no_progress : bool;
  WARNINGS_ON : bool
}.

(** The attributes of [Tree] that [_gather] writes, and the output. *)
Record Tree : Type := mkTree {
  top_heap : Top_K_and_Which Node;
  dup_map : gmap (option string) (list Node);
  dup_set : gset string;
  _level_reached : Z;
  stdout : list Event
}.

Definition set_top_heap (t : Tree) (h : Top_K_and_Which Node) : Tree :=
  mkTree h (dup_map t) (dup_set t) (_level_reached t) (stdout t).

Definition set_dup (t : Tree) (m : gmap (option string) (list Node))
    (s : gset string) : Tree :=
  mkTree (top_heap t) m s (_level_reached t) (stdout t).

Definition print (t : Tree) (e : Event) : Tree :=
  mkTree (top_heap t) (dup_map t) (dup_set t) (_level_reached t) (stdout t ++ [e]).

(** [Tree.__init__], for what [_gather] uses. *)
Definition Tree_init (top_count : Z) : Tree :=
  {| top_heap := Top_K_init top_count; dup_map := ∅; dup_set := ∅;
     _level_reached := 0; stdout := [] |}.

(** The recursive call [self._gather(d, level + 1)] on one listed
    directory: from the level, the node and the state to the node as the
    call leaves it and the state. *)
Definition Walk : Type := Z → Node → Tree → Res (Node * Tree).

Section walk.
(** [hashlib.md5(bytes).hexdigest()] *)
Context (md5_hexdigest : string → string).

Definition compute_md5 (r : Raw) : option string :=
  match read_bytes r with
  | Some bytes =>
      let result := md5_hexdigest bytes in
      if String.eqb result EMPTY_FILE_MD5_ORIG then Some EMPTY_FILE_MD5_HASH
      else Some result
  | None => None
  end.

(** [Node(path, father)] on an entry of the snapshot. *)
Definition Node_init (path : string) (father : option string) (r : Raw) : Node :=
  let is_file := match st_kind r with Regular => true | _ => false end in
  let is_dir := match st_kind r with Directory => true | _ => false end in
  {| path := path;
     name := basename path;
     father := father;
     is_link := match st_kind r with Symlink _ => true | _ => false end;
     is_dir := is_dir;
     is_file := is_file;
     is_to_dir := match st_kind r with
                  | Directory | Symlink true => true
                  | _ => false
                  end;
     lines := if is_file && guess_text r then count_lines r else None;
     size := st_size r;
     atime := st_atime r;
     btime := st_btime r;
     ctime := st_ctime r;
     mtime := st_mtime r;
     md5 := if is_file then compute_md5 r else None;
     children := if is_dir then Some [] else None;
     ignore := false;
     agg := None;
     top_val := None |}.

Context (cfg : Config).

Definition warning_print (t : Tree) (message : string) : Tree :=
  if WARNINGS_ON cfg then print t (Warning message) else t.

(** The aggregates of a directory that stand for itself alone. *)
Definition own_agg (n : Node) : Agg :=
  {| fcount := 0; dcount := 0; blines := None; rlines := None;
     bsize := Some (size n); rsize := size n;
     batime := Some (atime n); bbtime := Some (btime n);
     bctime := Some (ctime n); bmtime := Some (mtime n) |}.

(** The head of [_gather], before the listing. *)
Definition gather_enter (level : Z) (root : Node) (t : Tree) : Node * Tree :=
  let t1 := mkTree (top_heap t) (dup_map t) (dup_set t)
              (Z.max level (_level_reached t)) (stdout t) in
  let maxlen := 150%nat in
  let t2 := if no_progress cfg then t1
            else print (print t1 (Progress (spaces maxlen)))
                   (Progress (make_maxlen ("Gathering " ++ path root) maxlen)) in
  let root1 := set_agg root (Some (own_agg root)) in
  let root2 := match top_mode cfg with
               | Some m => set_top_val root1 (Some (getattr_b (own_agg root) m))
               | None => root1
               end in
  (root2, t2).

(** The duplicate block of the file loop. *)
Definition truthy (checksum : option string) : bool :=
  match checksum with
  | Some c => negb (String.eqb c "")
  | None => false
  end.

Definition dup_record (f : Node) (t : Tree) : Tree :=
  let checksum := md5 f in
  if negb (bool_decide (checksum = Some EMPTY_FILE_MD5_HASH))
     || negb (dup_nonempty cfg) then
    match checksum, dup_map t !! checksum with
    | Some c, Some l =>
        if truthy checksum then
          set_dup t (<[checksum := l ++ [f]]> (dup_map t)) ({[c]} ∪ dup_set t)
        else set_dup t (<[checksum := [f]]> (dup_map t)) (dup_set t)
    | _, _ => set_dup t (<[checksum := [f]]> (dup_map t)) (dup_set t)
    end
  else t.

(** The top-mode test at the head of the file loop: [None] is
    [continue]. The value pushed is a number: [le(None, _)] holds, so a
    [None] never passes the test. *)
Definition file_gate (root : Node) (t : Tree) (f : Node)
    : Res (option (Node * Tree)) :=
  match top_mode cfg with
  | Some m =>
      let val := getattr_f f m in
      thr ← next_to_pop (top_heap t);
      if Null.le val thr then Ok None
      else
        v ← match val with Some v => Ok v | None => Raise TypeError end;
        '(_, h) ← push (top_heap t) v f;
        tv ← get_top_val root;
        Ok (Some (set_top_val root (Some (Null.max_of val tv)), set_top_heap t h))
  | None => Ok (Some (root, t))
  end.

(** The aggregates of [root] after one more file. *)
Definition agg_file (a : Agg) (f : Node) : Agg :=
  {| fcount := fcount a + 1;
     dcount := dcount a;
     blines := if read_lines cfg then Null.max_of (lines f) (blines a) else blines a;
     rlines := if read_lines cfg then Null.add (rlines a) (lines f) else rlines a;
     bsize := Null.max_of (Some (size f)) (bsize a);
     rsize := rsize a + size f;
     batime := Null.max_of (Some (atime f)) (batime a);
     bbtime := Null.max_of (Some (btime f)) (bbtime a);
     bctime := Null.max_of (Some (ctime f)) (bctime a);
     bmtime := Null.max_of (Some (mtime f)) (bmtime a) |}.

(** The rest of the body of the file loop. *)
Definition file_link (root : Node) (t : Tree) (f : Node) : Res (Node * Tree) :=
  root1 ← children_add root f;
  a ← get_agg root1;
  Ok (set_agg root1 (Some (agg_file a f)),
      if dup_mode cfg then dup_record f t else t).

Definition file_step (root : Node) (t : Tree) (f : Node) : Res (Node * Tree) :=
  gate ← file_gate root t f;
  match gate with
  | None => Ok (root, t)
  | Some (root1, t1) => file_link root1 t1 f
  end.

Fixpoint files_loop (f_nodes : list Node) (root : Node) (t : Tree)
    : Res (Node * Tree) :=
  match f_nodes with
  | [] => Ok (root, t)
  | f :: rest =>
      '(root1, t1) ← file_step root t f;
      files_loop rest root1 t1
  end.

(** The [else] branch at the access level: the directory is not listed. *)
Definition truncate (d : Node) : Node :=
  set_agg (set_ignore d true) (Some (own_agg d)).

Definition dir_enter (level : Z) (d : Node) (walk : Walk) (t : Tree)
    : Res (Node * Tree) :=
  if level <? access_level cfg then walk (level + 1) d t
  else Ok (truncate d, t).

(** [not self.dpost(d)], or empty while empty directories are not shown. *)
Definition dir_pruned (d : Node) : Res bool :=
  if negb (dpost cfg d) then Ok true
  else if always_show_dirs cfg then Ok false
  else a ← get_agg d; Ok ((fcount a =? 0) && (dcount a =? 0)).

(** The top-mode test of the directory loop: [None] is [continue]. *)
Definition dir_gate (root d : Node) (t : Tree) : Res (option Node) :=
  match top_mode cfg with
  | Some _ =>
      dv ← get_top_val d;
      thr ← next_to_pop (top_heap t);
      if Null.lt dv thr then Ok None
      else
        tv ← get_top_val root;
        Ok (Some (set_top_val root (Some (Null.max_of dv tv))))
  | None => Ok (Some root)
  end.

(** The aggregates of [root] after one more directory. *)
Definition agg_dir (a da : Agg) : Agg :=
  let with_lines := bool_decide (is_Some (rlines da)) in
  {| fcount := fcount a + fcount da;
     dcount := dcount a + (dcount da + 1);
     blines := if with_lines then Null.max_of (blines da) (blines a) else blines a;
     rlines := if with_lines then Null.add (rlines a) (rlines da) else rlines a;
     bsize := Null.max_of (bsize da) (bsize a);
     rsize := rsize a + rsize da;
     batime := Null.max_of (batime da) (batime a);
     bbtime := Null.max_of (bbtime da) (bbtime a);
     bctime := Null.max_of (bctime da) (bctime a);
     bmtime := Null.max_of (bmtime da) (bmtime a) |}.

Definition dir_link (root d : Node) : Res Node :=
  root1 ← children_add root d;
  a ← get_agg root1;
  da ← get_agg d;
  Ok (set_agg root1 (Some (agg_dir a da))).

(** The body of the directory loop. *)
Definition dir_step (level : Z) (root : Node) (t : Tree) (dw : Node * Walk)
    : Res (Node * Tree) :=
  let d := dw.1 in
  if is_link d then
    if always_show_dirs cfg then
      root1 ← children_add root d;
      a ← get_agg root1;
      Ok (set_agg root1 (Some (mkAgg (fcount a) (dcount a + 1) (blines a)
            (rlines a) (bsize a) (rsize a) (batime a) (bbtime a) (bctime a)
            (bmtime a))), t)
    else Ok (root, t)
  else
    '(d1, t1) ← dir_enter level d dw.2 t;
    pruned ← dir_pruned d1;
    if (pruned : bool) then Ok (root, t1)
    else
      gate ← dir_gate root d1 t1;
      match gate with
      | None => Ok (root, t1)
      | Some root1 => root2 ← dir_link root1 d1; Ok (root2, t1)
      end.

Fixpoint dirs_loop (level : Z) (d_nodes : list (Node * Walk)) (root : Node)
    (t : Tree) : Res (Node * Tree) :=
  match d_nodes with
  | [] => Ok (root, t)
  | dw :: rest =>
      '(root1, t1) ← dir_step level root t dw;
      dirs_loop level rest root1 t1
  end.

(** [_gather(root, level)], where [e] is the entry at [root.path].  Every
    node listed goes with the walk of its own entry. *)
Fixpoint _gather (e : Entry) (level : Z) (root : Node) (t : Tree)
    {struct e} : Res (Node * Tree) :=
  match e with
  | mkEntry _ listdir_error entries =>
      let '(root1, t1) := gather_enter level root t in
      match listdir_error with
      | Some message => Ok (root1, warning_print t1 message)
      | None =>
          let all_nodes : list (Node * Walk) :=
            map (λ x, (Node_init (path_join (path root1) (d_name (raw_of x)))
                         (Some (path root1)) (raw_of x),
                       _gather x)) entries in
          let f_nodes :=
            filter (λ n, negb (is_to_dir n) && fpred cfg n) (all_nodes.*1) in
          let d_nodes :=
            filter (λ nw, is_to_dir nw.1 && dpred cfg nw.1) all_nodes in
          '(root2, t2) ← files_loop f_nodes root1 t1;
          dirs_loop level d_nodes root2 t2
      end
  end.

(** [Tree._build], up to the end of the walk: the root node is made from
    the root path and gathered at level 1. *)
Definition _build (root_path : string) (e : Entry) (t : Tree) : Res (Node * Tree) :=
  _gather e 1 (Node_init root_path None (raw_of e)) t.
End walk.

(** ** [cmp_to_key]

    The six rich comparisons of the class [K] that wraps a node for
    [list.sort]; each calls [cmp] once. *)
Section cmp_to_key.
Context {obj : Type} (cmp : obj → obj → Res Z).

Definition K_lt (self other : obj) : Res bool := r ← cmp self other; Ok (r <? 0).
Definition K_gt (self other : obj) : Res bool := r ← cmp self other; Ok (0 <? r).
Definition K_eq (self other : obj) : Res bool := r ← cmp self other; Ok (r =? 0).
Definition K_le (self other : obj) : Res bool := r ← cmp self other; Ok (r <=? 0).
Definition K_ge (self other : obj) : Res bool := r ← cmp self other; Ok (0 <=? r).
Definition K_ne (self other : obj) : Res bool := r ← cmp self other; Ok (negb (r =? 0)).
End cmp_to_key.

(** ** The filters of [make]

    [oper_dict] maps the operator of a filter such as [size>=10] to the
    null-aware test; [None] stands for the [KeyError] of another key.  The
    pattern made for the filter reads the attribute with
    [getattr(node, attr, None)] and tests it against the bound, which is a
    number. *)
Definition oper_dict (op : string) : option (option Z → option Z → bool) :=
  if String.eqb op "<" then Some Null.nn_lt
  else if String.eqb op "<=" then Some Null.nn_le
  else if String.eqb op ">" then Some Null.gt
  else if String.eqb op ">=" then Some Null.ge
  else None.

Definition filter_pat {obj : Type} (getattr : obj → string → option Z)
    (attr : string) (op : option Z → option Z → bool) (val : Z) (node : obj) : bool :=
  op (getattr node attr) (Some val).

(** ** Utilities: string functions

    A Python string is a sequence of code points; [visual_width] asks the
    Unicode database for the width of one.  The functions below are taken
    over any alphabet [Char] with any [visual_width]. *)
Section visual.
Context {Char : Type} (visual_width : Char → Z).

(** [sum(visual_width(c) for c in string)] *)
Definition visual_len (s : list Char) : Z :=
  foldl (λ acc c, acc + visual_width c) 0 s.

(** The [for] loop of [visual_within], from the values [strlen] and
    [vislen] reached; leaving the match early is the [break]. *)
Fixpoint visual_within_loop (s : list Char) (limit : Z) (strlen : nat) (vislen : Z)
    : nat * Z :=
  match s with
  | [] => (strlen, vislen)
  | c :: s' =>
      let w := visual_width c in
      if limit <? w + vislen then (strlen, vislen)
      else visual_within_loop s' limit (S strlen) (vislen + w)
  end.

Definition visual_within (s : list Char) (limit : Z) : nat * Z :=
  visual_within_loop s limit 0 0.

(** The line that [_print_line] makes of [join_line] when it is too wide
    and the width is forced: the part that fits before [" ..."], padded. *)
Definition force_width (SPACE DOT : Char) (join_line : list Char)
    (width_control : Z) : list Char :=
  let '(strlen, vislen) := visual_within join_line (width_control - 4) in
  take strlen join_line ++
  replicate (Z.to_nat (width_control - 4 - vislen)) SPACE ++ [SPACE; DOT; DOT; DOT].
End visual.

(** ** Utilities: formatters *)

(** [s.rjust(width)] *)
Definition rjust (s : string) (width : nat) : string :=
  (spaces (width - String.length s) ++ s)%string.

(** [bool_formatter(value, width)] *)
Definition bool_formatter (value : option bool) (width : nat) : string :=
  match value with
  | None => spaces width
  | Some b => rjust (if b then "Yes" else "No") width
  end.

(** [WIDTH_MAP.get(attr, default_width)] *)
Definition WIDTH_MAP_get (attr : string) (default_width : nat) : nat :=
  if String.eqb attr "imode" then 5
  else if String.eqb attr "smode" then 10
  else if String.eqb attr "md5" then 32
  else default_width.

(** [width_formatter(value, attr)] on a string: ["{:>w}".format(value)] is
    [value.rjust(w)]. *)
Definition width_formatter (value : option string) (attr : string) : string :=
  let width := WIDTH_MAP_get attr 8 in
  match value with
  | None => spaces width
  | Some v => substring 0 width (rjust v width)
  end.

Definition md5_formatter (value : option string) : string :=
  let value :=
    if bool_decide (value = Some EMPTY_FILE_MD5_HASH)
    then Some ("(empty)" ++ spaces 25)%string else value in
  width_formatter value "md5".

(** ** Utilities: [unique_list] and [fields_to_by] *)

(** [dict.fromkeys(lst)], as the list of its keys: a [dict] keeps its keys
    in the order in which they were first inserted. *)
Definition fromkeys {A : Type} `{EqDecision A} (lst : list A) : list A :=
  foldl (λ keys k, if decide (k ∈ keys) then keys else keys ++ [k]) [] lst.

(** [list(dict.fromkeys(lst))] *)
Definition unique_list {A : Type} `{EqDecision A} (lst : list A) : list A :=
  fromkeys lst.

(** [attr.lstrip("f")] *)
Fixpoint lstrip_f (attr : string) : string :=
  match attr with
  | String c attr' => if Ascii.eqb c "f" then lstrip_f attr' else attr
  | EmptyString => EmptyString
  end.

(** [{"best": "u", "self": "d", "total": "a"}[metric]]; [None] stands for the
    [KeyError] of another key. *)
Definition metric_letter (metric : string) : option string :=
  if String.eqb metric "best" then Some "u"
  else if String.eqb metric "self" then Some "d"
  else if String.eqb metric "total" then Some "a"
  else None.

(** The body of the loop of [fields_to_by]: the key appended to [by]. *)
Definition by_key (m : string) (attr : string) : string :=
  let attr := lstrip_f attr in
  if bool_decide (attr ∈ ["lines"; "size"; "mtime"; "atime"; "ctime"])
  then (m ++ attr)%string else attr.

Definition fields_to_by (fields : list string) (metric : string)
    : option (list string) :=
  m ← metric_letter metric;
  Some (foldl (λ by_ attr, by_ ++ [by_key m attr]) [] (unique_list fields)).

(** ** The predicates of the tree-maker

    A [Predicate] holds a list of tests and accepts what passes them all.
    [Ignore], called on any number of tests [preds], builds its own tests in
    a comprehension,
    [[lambda x: not p(x) for p in preds]]: the variable [p] belongs to the
    comprehension, not to each [lambda], so that every test made reads the
    value [p] has when it is called, which is the last of [preds]. *)
Section predicates.
Context {X : Type}.

Definition Predicate : Type := list (X → bool).

(** [Predicate.__call__]: [all(f(x) for f in self._pred)] *)
Definition Predicate_call (self : Predicate) (x : X) : bool :=
  forallb (λ f, f x) self.

(** [Predicate.__iadd__]: [self._pred.extend(other._pred)] *)
Definition Predicate_iadd (self other : Predicate) : Predicate := self ++ other.

(** [Pattern], called on the tests [preds] *)
Definition Pattern (preds : list (X → bool)) : Predicate := preds.

(** [Ignore], called on the tests [preds] *)
Definition Ignore (preds : list (X → bool)) : Predicate :=
  match last preds with
  | Some p => map (λ _, λ x, negb (p x)) preds
  | None => []
  end.
End predicates.

(** ** [Node.smode]

    The mode string of a node, from the [st_mode] of its [lstat]
    ([S_IMODE], [S_ISDIR] and [S_ISLNK] are those of Python's [stat]); the
    cache that [smode] keeps per [st_mode] holds what is computed here. *)
Definition S_IMODE (mode : Z) : Z := Z.land mode 4095.        (* mode & 0o7777 *)
Definition S_IFMT (mode : Z) : Z := Z.land mode 61440.        (* mode & 0o170000 *)
Definition S_ISDIR (mode : Z) : bool := S_IFMT mode =? 16384. (* 0o040000 *)
Definition S_ISLNK (mode : Z) : bool := S_IFMT mode =? 40960. (* 0o120000 *)

(** [c if imode & (1 << bit) else "-"] *)
Definition mode_flag (imode bit : Z) (c : string) : string :=
  if negb (Z.land imode (Z.shiftl 1 bit) =? 0) then c else "-".

Definition smode (mode : Z) : string :=
  let result := if S_ISLNK mode then "l" else if S_ISDIR mode then "d" else "-" in
  let imode := S_IMODE mode in
  foldl (λ result i,
           ((result ++ mode_flag imode (8 - i * 3) "r")
              ++ mode_flag imode (7 - i * 3) "w")
             ++ mode_flag imode (6 - i * 3) "x")%string
        result [0; 1; 2].

(** ** [Tree._save_father]

    A node as [_save_father] sees it: its path and its father, [None] for
    the root of the tree.  [Node] defines no equality and the walk creates
    one node for each path, so that in [save_set] a node is its path; the
    set may come to hold [None] as well. *)
Inductive Lineage : Type :=
  mkLineage (l_path : string) (l_father : option Lineage).

Definition l_path (node : Lineage) : string :=
  match node with mkLineage p _ => p end.

Definition l_father (node : Lineage) : option Lineage :=
  match node with mkLineage _ f => f end.

(** Returns [save_set] as the call leaves it; [_save_father(None)] reads
    [None.father]. *)
Fixpoint _save_father (save_set : gset (option string)) (node : Lineage)
    : Res (gset (option string)) :=
  match node with
  | mkLineage _ father =>
      if decide (l_path <$> father ∈ save_set) then Ok save_set
      else
        let save_set' := {[l_path <$> father]} ∪ save_set in
        match father with
        | Some f => _save_father save_set' f
        | None => Raise (AttributeError "father")
        end
  end.

(** ** Utilities: time functions

    A [datetime.datetime] with the fields that [add_mon] reads.  The
    constructor raises [ValueError] on a date that does not exist ([None]
    here); [isleap] and the days of [calendar.monthrange] are those of
    Python's [calendar]. *)
Record datetime : Type := mkDatetime {
  dt_year : Z; dt_month : Z; dt_day : Z;
  dt_hour : Z; dt_minute : Z; dt_second : Z
}.

Definition isleap (year : Z) : bool :=
  (year mod 4 =? 0) && (negb (year mod 100 =? 0) || (year mod 400 =? 0)).

(** [calendar.mdays[month]] *)
Definition mdays (month : Z) : Z :=
  nth (Z.to_nat month) [0; 31; 28; 31; 30; 31; 30; 31; 31; 30; 31; 30; 31] 0.

(** [calendar.monthrange(year, month)[1]], for a month from 1 to 12. *)
Definition monthrange_days (year month : Z) : Z :=
  mdays month + Z.b2z ((month =? 2) && isleap year).

(** [datetime.datetime(year, month, day, hour, minute, second)] *)
Definition datetime_new (year month day hour minute second : Z) : option datetime :=
  if (1 <=? year) && (year <=? 9999) && (1 <=? month) && (month <=? 12) &&
     (1 <=? day) && (day <=? monthrange_days year month) &&
     (0 <=? hour) && (hour <? 24) && (0 <=? minute) && (minute <? 60) &&
     (0 <=? second) && (second <? 60)
  then Some (mkDatetime year month day hour minute second)
  else None.

Definition add_mon (dt : datetime) (months : Z) : option datetime :=
  let months_count := dt_year dt * 12 + dt_month dt + months - 1 in
  let year := months_count / 12 in
  let month := months_count mod 12 + 1 in
  let day := dt_day dt in
  let last_day_of_month := monthrange_days year month in
  let day := if last_day_of_month <? day then last_day_of_month else day in
  datetime_new year month day (dt_hour dt) (dt_minute dt) (dt_second dt).

(* ===================================================================== *)
(** * Part II: vocabulary of the statements *)
(* ===================================================================== *)

(** [heapq]'s parent index. *)
Definition parent (i : nat) : nat := Nat.shiftr (i - 1) 1.
Arguments parent : simpl never.

Section heap_order.
Context {A : Type} (key : A → Z).

(** The heap invariant of [heapq]: no item is smaller than its parent. *)
Definition heap_ok (l : list A) : Prop :=
  ∀ i x p, (0 < i)%nat → l !! i = Some x → l !! parent i = Some p →
    key p ≤ key x.

(** The invariant but for the item at [pos], which may be smaller than
    its parent; its children are not smaller than its parent. *)
Definition heap_but_up (l : list A) (pos : nat) : Prop :=
  (∀ i x p, (0 < i)%nat → i ≠ pos → l !! i = Some x →
     l !! parent i = Some p → key p ≤ key x) ∧
  (∀ c x g, (0 < pos)%nat → (0 < c)%nat → parent c = pos → l !! c = Some x →
     l !! parent pos = Some g → key g ≤ key x).

(** The invariant but for the item at [pos], which is compared neither
    with its parent nor with its children; its children are not smaller
    than its parent. *)
Definition heap_but_at (l : list A) (pos : nat) : Prop :=
  (∀ i x p, (0 < i)%nat → i ≠ pos → parent i ≠ pos → l !! i = Some x →
     l !! parent i = Some p → key p ≤ key x) ∧
  (∀ c x g, (0 < pos)%nat → (0 < c)%nat → parent c = pos → l !! c = Some x →
     l !! parent pos = Some g → key g ≤ key x).
End heap_order.

(** [m] is a minimum of the values [l]. *)
Definition is_min (m : Z) (l : list Z) : Prop := m ∈ l ∧ ∀ x, x ∈ l → m ≤ x.

(** The [k] largest values of [l], largest first. *)
Definition k_largest (k : Z) (l : list Z) : list Z :=
  take (Z.to_nat k) (merge_sort (flip Z.le) l).

(** What holds of the selector after the offers of [stream]: it is a heap
    of the right size, and the values offered are those it holds and
    values [dropped] that none of the held ones is below. *)
Definition top_k_inv {W : Type} (K : Z) (stream : list (Z * W))
    (s : Top_K_and_Which W) : Prop :=
  capacity s = K ∧ heap_ok value (_list s) ∧
  length (_list s) = Nat.min (length stream) (Z.to_nat K) ∧
  ∃ dropped, (stream.*1) ≡ₚ held s ++ dropped ∧
    ∀ d x, d ∈ dropped → x ∈ held s → d ≤ x.

(** ** Vocabulary of the aggregation statements *)

(** A node without what the walk writes on it. *)
Definition stat_of (n : Node) : Node :=
  mkNode (path n) (name n) (father n) (is_link n) (is_dir n) (is_file n)
    (is_to_dir n) (lines n) (size n) (atime n) (btime n) (ctime n) (mtime n)
    (md5 n) None false None None.

(** The sum of the sizes of nodes, and the largest of [own] and their sizes. *)
Definition sum_sizes (l : list Node) : Z := foldr (λ c acc, size c + acc) 0 l.
Definition max_size (own : Z) (l : list Node) : Z :=
  foldr (λ c acc, Z.max (size c) acc) own l.

(** A walk hands back the node it was given, with other aggregates. *)
Definition walk_keeps_stat (walk : Walk) : Prop :=
  ∀ level d t d1 t1, walk level d t = Ok (d1, t1) → stat_of d1 = stat_of d.

(** A walk started on a directory node just created returns, with the
    aggregates set. *)
Definition walk_total (walk : Walk) : Prop :=
  ∀ level d t, children d = Some [] →
    ∃ d1 t1, walk level d t = Ok (d1, t1) ∧ is_Some (agg d1).

(** ** Vocabulary of the duplicate grouper *)

(** The files of [fs], in order, that the grouper keeps under the hash [h]:
    those whose checksum is [h], none under the sentinel of empty files when
    empty files are excluded. *)
Definition group (cfg : Config) (h : string) (fs : list Node) : list Node :=
  if String.eqb h EMPTY_FILE_MD5_HASH && dup_nonempty cfg then []
  else filter (λ f, md5 f = Some h) fs.

(** The grouper after the duplicate block has run on each file of [fs]. *)
Definition record_all (cfg : Config) (fs : list Node) (t : Tree) : Tree :=
  foldl (λ t f, dup_record cfg f t) t fs.

(** What the grouper holds after the files [fs] (hashes that are non-empty
    strings). *)
Definition dup_inv (cfg : Config) (fs : list Node) (t : Tree) : Prop :=
  ∀ h, h ≠ "" →
    dup_map t !! Some h =
      match group cfg h fs with [] => None | g => Some g end ∧
    (h ∈ dup_set t ↔ (2 ≤ length (group cfg h fs))%nat).

(** Two states of the tree that hold the same grouper. *)
Definition dup_eq (t t' : Tree) : Prop :=
  dup_map t = dup_map t' ∧ dup_set t = dup_set t'.

(** The files on which the body of the file loop runs to its end when no
    top-mode is on, in the order of the walk: the files of a directory that
    pass [fpred], then those of each directory below it that passes [dpred],
    is not a link and is within the access level. *)
Fixpoint visited_files (md5_hexdigest : string → string) (cfg : Config)
    (e : Entry) (level : Z) (root_path : string) {struct e} : list Node :=
  match e with
  | mkEntry _ listdir_error entries =>
      match listdir_error with
      | Some _ => []
      | None =>
          let all_nodes :=
            map (λ x, (Node_init md5_hexdigest
                         (path_join root_path (d_name (raw_of x)))
                         (Some root_path) (raw_of x),
                       visited_files md5_hexdigest cfg x)) entries in
          filter (λ n, negb (is_to_dir n) && fpred cfg n) (all_nodes.*1) ++
          concat
            (map (λ nv : Node * (Z → string → list Node),
                    if is_link nv.1 then []
                    else if level <? access_level cfg
                         then nv.2 (level + 1) (path nv.1) else [])
               (filter (λ nv, is_to_dir nv.1 && dpred cfg nv.1) all_nodes))
      end
  end.

(** ** Vocabulary of the depth limit *)

(** The nodes [k] links below [n] in the tree that was built. *)
Fixpoint at_depth (k : nat) (n : Node) : list Node :=
  match k with
  | O => [n]
  | S k' =>
      match children n with
      | Some c => concat (map (at_depth k') c)
      | None => []
      end
  end.

(** A directory that was visited but not listed. *)
Definition truncated (n : Node) : Prop :=
  children n = Some [] ∧ ignore n = true ∧ agg n = Some (own_agg n).

(** How a directory [d1] linked by the directory loop at [level] came out of
    the nodes [ds] of the loop: it is a link of [ds], or what [dir_enter]
    made of a node of [ds] that is not a link. *)
Definition linked_from (cfg : Config) (level : Z) (ds : list (Node * Walk))
    (d1 : Node) : Prop :=
  ∃ d walk, (d, walk) ∈ ds ∧
    ((is_link d = true ∧ d1 = d) ∨
     (is_link d = false ∧ ∃ t0 t1, dir_enter cfg level d walk t0 = Ok (d1, t1))).

(** The grouper after the walk of [x] is the grouper after the files it
    visited. *)
Definition walk_records (md5_hexdigest : string → string) (cfg : Config)
    (x : Entry) : Prop :=
  ∀ level root t D t',
    _gather md5_hexdigest cfg x level root t = Ok (D, t') →
    dup_eq t' (if dup_mode cfg
               then record_all cfg
                      (visited_files md5_hexdigest cfg x level (path root)) t
               else t).

(** In the tree built by the walk of [x] at [level], the directories at the
    depth of the access level were not listed. *)
Definition depth_limited (md5_hexdigest : string → string) (cfg : Config)
    (x : Entry) : Prop :=
  ∀ level root t D t',
    _gather md5_hexdigest cfg x level root t = Ok (D, t') →
    children root = Some [] → level ≤ access_level cfg →
    ∀ n, n ∈ at_depth (Z.to_nat (access_level cfg - level + 1)) D →
      is_dir n = true → truncated n.

(** ** Concrete file systems for the examples *)

(** A stand-in for MD5 that has MD5's digest of the empty string. *)
Definition toy_md5 (bytes : string) : string :=
  if String.eqb bytes "" then EMPTY_FILE_MD5_ORIG else "md5 of " ++ bytes.

Definition file_raw (name : string) (size lines : Z) (bytes : string) : Raw :=
  {| d_name := name; st_kind := Regular; st_size := size; st_atime := 1;
     st_btime := 2; st_ctime := 3; st_mtime := 4; guess_text := true;
     count_lines := Some lines; read_bytes := Some bytes |}.

Definition dir_raw (name : string) (size : Z) : Raw :=
  {| d_name := name; st_kind := Directory; st_size := size; st_atime := 1;
     st_btime := 2; st_ctime := 3; st_mtime := 4; guess_text := false;
     count_lines := None; read_bytes := None |}.

Definition a_file (name : string) (size lines : Z) (bytes : string) : Entry :=
  mkEntry (file_raw name size lines bytes) None [].

Definition a_dir (name : string) (size : Z) (entries : list Entry) : Entry :=
  mkEntry (dir_raw name size) None entries.

Definition unreadable_dir (name : string) (size : Z) : Entry :=
  mkEntry (dir_raw name size) (Some "[Errno 13] Permission denied") [].

(** No filter, no mode, line counts read, nothing printed but warnings. *)
Definition cfg_plain : Config :=
  {| access_level := INF_INT; fpred := λ _, true; dpred := λ _, true;
     dpost := λ _, true; always_show_dirs := false; top_mode := None;
     dup_mode := false; dup_nonempty := false; read_lines := true;
     no_progress := true; WARNINGS_ON := true |}.

Definition cfg_top (m : Metric) : Config :=
  {| access_level := INF_INT; fpred := λ _, true; dpred := λ _, true;
     dpost := λ _, true; always_show_dirs := false; top_mode := Some m;
     dup_mode := false; dup_nonempty := false; read_lines := true;
     no_progress := true; WARNINGS_ON := true |}.

Definition cfg_dup (nonempty : bool) : Config :=
  {| access_level := INF_INT; fpred := λ _, true; dpred := λ _, true;
     dpost := λ _, true; always_show_dirs := false; top_mode := None;
     dup_mode := true; dup_nonempty := nonempty; read_lines := false;
     no_progress := true; WARNINGS_ON := true |}.

(** Directories always shown, nothing listed below the root's children. *)
Definition cfg_level_1 : Config :=
  {| access_level := 1; fpred := λ _, true; dpred := λ _, true;
     dpost := λ _, true; always_show_dirs := true; top_mode := None;
     dup_mode := false; dup_nonempty := false; read_lines := true;
     no_progress := true; WARNINGS_ON := true |}.

(** A top-mode by size with directories always shown and nothing listed
    below the root's children. *)
Definition cfg_top_level_1 : Config :=
  {| access_level := 1; fpred := λ _, true; dpred := λ _, true;
     dpost := λ _, true; always_show_dirs := true; top_mode := Some m_size;
     dup_mode := false; dup_nonempty := false; read_lines := true;
     no_progress := true; WARNINGS_ON := true |}.

(** A directory of 4096 bytes with one file of 10 bytes, and an empty one. *)
Definition fs_one_file : Entry := a_dir "d" 4096 [a_file "a" 10 1 "0123456789"].
Definition fs_empty_dir : Entry := a_dir "d" 4096 [].

(** A directory whose only file, of 200 bytes, is in a subdirectory. *)
Definition fs_nested : Entry :=
  a_dir "r" 10 [a_dir "d" 10 [a_file "c" 200 7 "ccc"]].

(** Two empty files and two copies of the same text. *)
Definition fs_copies : Entry :=
  a_dir "r" 0 [a_file "e1" 0 0 ""; a_file "e2" 0 0 "";
               a_file "h1" 5 1 "hello"; a_file "h2" 5 1 "hello";
               a_file "u" 3 1 "bye"].

(** [a.txt] (10 lines, 100 bytes), [b.txt] (20 lines, 100 bytes) and
    [sub/c.txt] (5 lines, 50 bytes); the directories have size 0. *)
Definition fs_scenario : Entry :=
  a_dir "root" 0 [a_file "a.txt" 100 10 "aaa"; a_file "b.txt" 100 20 "bbb";
                  a_dir "sub" 0 [a_file "c.txt" 50 5 "ccc"]].

(** An unreadable directory listed before a readable one. *)
Definition fs_denied : Entry :=
  a_dir "r" 0 [unreadable_dir "x" 7; a_dir "y" 0 [a_file "b" 20 2 "bb"]].

(** The paths of the children of a node, in the order they were linked. *)
Definition child_paths (n : Node) : option (list string) :=
  match children n with
  | Some c => Some (path <$> c)
  | None => None
  end.

(** ** Vocabulary of the comparator *)

(** What one field decides between two nodes that are not [None]: [0] sends
    [cmp] to the next field. *)
Definition field_cmp (af bf : option FieldVal) : Res Z :=
  match af, bf with
  | None, None => Ok 0
  | Some _, None => Ok (-1)
  | None, Some _ => Ok 1
  | Some x, Some y => result ← three_way x y; Ok (if is_number x then - result else result)
  end.

(** ** Vocabulary of the selector's items *)

(** The items made of the offers of a stream. *)
Definition offered {W : Type} (stream : list (Z * W)) : list (Value_and_Which W) :=
  (λ vw, mkVW vw.1 vw.2) <$> stream.

(** ** Vocabulary of the tree that was built *)

(** A node and all the nodes linked below it, parents first. *)
Fixpoint tree_nodes (n : Node) : list Node :=
  n :: match children n with
       | Some cs => concat (map tree_nodes cs)
       | None => []
       end.

(** The nodes linked below a node. *)
Definition tree_below (n : Node) : list Node :=
  match children n with
  | Some cs => concat (map tree_nodes cs)
  | None => []
  end.

(** Not a link to a directory: the nodes whose size and times go into the
    aggregates of the directories above them. *)
Definition measured (c : Node) : bool := negb (is_to_dir c && is_link c).

(** The largest of [own] and the values of [get] on nodes. *)
Definition best_over (get : Node → Z) (own : Z) (l : list Node) : Z :=
  foldr (λ c acc, Z.max (get c) acc) own l.

(** The null-aware sum and maximum of values. *)
Definition null_sum (l : list (option Z)) : option Z := foldr Null.add None l.
Definition null_max (l : list (option Z)) : option Z := foldr Null.max_of None l.

(** The aggregates of the node [n] as counted on the nodes [below] it: the
    files are the nodes that are neither directories nor links to one. *)
Definition agg_of (cfg : Config) (n : Node) (below : list Node) : Agg :=
  let files := filter (λ c, negb (is_to_dir c)) below in
  let dirs := filter (λ c, is_to_dir c) below in
  let meas := filter (λ c, measured c) below in
  {| fcount := Z.of_nat (length files);
     dcount := Z.of_nat (length dirs);
     blines := if read_lines cfg then null_max (lines <$> files) else None;
     rlines := if read_lines cfg then null_sum (lines <$> files) else None;
     bsize := Some (best_over size (size n) meas);
     rsize := size n + sum_sizes meas;
     batime := Some (best_over atime (atime n) meas);
     bbtime := Some (best_over btime (btime n) meas);
     bctime := Some (best_over ctime (ctime n) meas);
     bmtime := Some (best_over mtime (mtime n) meas) |}.

(** The aggregates of a node are those counted on the tree below it. *)
Definition agg_counted (cfg : Config) (n : Node) : Prop :=
  agg n = Some (agg_of cfg n (tree_below n)).

(** A walk started on a directory node just created leaves the aggregates
    that the tree it built gives. *)
Definition walk_counts (cfg : Config) (walk : Walk) : Prop :=
  ∀ level d t d1 t1, walk level d t = Ok (d1, t1) → children d = Some [] →
    agg_counted cfg d1.

(** [m] is the largest value of [get] on [n] and the measured nodes below
    it. *)
Definition is_best (get : Node → Z) (n : Node) (m : Z) : Prop :=
  get n ≤ m ∧
  (∀ c, c ∈ tree_below n → measured c = true → get c ≤ m) ∧
  (m = get n ∨ ∃ c, c ∈ tree_below n ∧ measured c = true ∧ m = get c).

(** The files (what is neither a directory nor a link to one) below a node. *)
Definition files_below (n : Node) : list Node :=
  filter (λ c, negb (is_to_dir c)) (tree_below n).

(** ** Vocabulary of the levels reached *)

(** A walk started at [level] raises the level reached to [level] at least,
    and to no more than the access level unless it started beyond it. *)
Definition level_bounded (cfg : Config) (level : Z) (t t' : Tree) : Prop :=
  Z.max level (_level_reached t) ≤ _level_reached t' ∧
  _level_reached t' ≤ Z.max (Z.max level (access_level cfg)) (_level_reached t).

Definition walk_level (cfg : Config) (walk : Walk) : Prop :=
  ∀ level d t d1 t1, walk level d t = Ok (d1, t1) → level_bounded cfg level t t1.

(** ** Vocabulary of the filters *)

(** A directory node as [Node] created it, before any walk. *)
Definition as_created (d : Node) : Node := set_children (stat_of d) (Some []).

(** What the walk asked of a node that it linked: a file passed [fpred]; a
    link to a directory passed [dpred] and directories are always shown; a
    directory passed [dpred] when it was created and [dpost] once walked,
    and has a file below it unless directories are always shown. *)
Definition passed_filters (cfg : Config) (c : Node) : Prop :=
  if is_to_dir c then
    if is_link c then dpred cfg c = true ∧ always_show_dirs cfg = true
    else dpred cfg (as_created c) = true ∧ dpost cfg c = true ∧
         (always_show_dirs cfg = false → ∃ a, agg c = Some a ∧ 1 ≤ fcount a)
  else fpred cfg c = true.

(** The counts of a directory that has a directory below it show a file,
    unless directories are always shown. *)
Definition counts_alive (cfg : Config) (n : Node) : Prop :=
  always_show_dirs cfg = false →
  ∀ a, agg n = Some a → 0 ≤ fcount a ∧ 0 ≤ dcount a ∧ (dcount a ≠ 0 → 1 ≤ fcount a).

Definition walk_filters (cfg : Config) (walk : Walk) : Prop :=
  ∀ level d t d1 t1, walk level d t = Ok (d1, t1) → children d = Some [] →
    Forall (passed_filters cfg) (tree_below d1) ∧ counts_alive cfg d1.

(** ** Vocabulary of the top-mode *)

(** The offers that the files [fs] make to the selector under the metric
    [m]: a file without the metric offers nothing. *)
Definition candidates (m : Metric) (fs : list Node) : list (Z * Node) :=
  omap (λ f, (λ v, (v, f)) <$> getattr_f f m) fs.

(** The selector of the tree after the offers of [stream]: what [top_k_inv]
    says of the values, and the items held are offers of the stream. *)
Definition heap_after (K : Z) (stream : list (Z * Node)) (t : Tree) : Prop :=
  top_k_inv K stream (top_heap t) ∧ _list (top_heap t) ⊆+ offered stream.

(** The selector after the walk of [x] is the selector after the offers of
    the files visited. *)
Definition walk_selects (md5_hexdigest : string → string) (cfg : Config)
    (m : Metric) (x : Entry) : Prop :=
  ∀ K stream level root t D t',
    _gather md5_hexdigest cfg x level root t = Ok (D, t') →
    heap_after K stream t →
    heap_after K
      (stream ++ candidates m (visited_files md5_hexdigest cfg x level (path root))) t'.

(** The selector is a heap with room for one item at least. *)
Definition top_ready (t : Tree) : Prop :=
  heap_ok value (_list (top_heap t)) ∧ 1 ≤ capacity (top_heap t).

(** In top-mode, a walk started on a directory node just created returns,
    with the aggregates and the best value set. *)
Definition walk_total_top (walk : Walk) : Prop :=
  ∀ level d t, children d = Some [] → top_ready t →
    ∃ d1 t1, walk level d t = Ok (d1, t1) ∧
      is_Some (agg d1) ∧ is_Some (top_val d1) ∧ top_ready t1.

(** ** Vocabulary of the saved directories *)

(** The paths of the father of a node, of its father, and so on up to the
    root. *)
Fixpoint ancestors (node : Lineage) : list string :=
  match node with
  | mkLineage _ (Some f) => l_path f :: ancestors f
  | mkLineage _ None => []
  end.

(** Along a chain of ancestors, whatever is above a saved node is saved. *)
Definition closed_along (save_set : gset (option string)) (chain : list string)
    : Prop :=
  ∀ i j a b, chain !! i = Some a → chain !! j = Some b → (i ≤ j)%nat →
    Some a ∈ save_set → Some b ∈ save_set.

(** ** Vocabulary of the dates *)

(** A date that [datetime.datetime] accepts. *)
Definition valid_datetime (dt : datetime) : Prop :=
  datetime_new (dt_year dt) (dt_month dt) (dt_day dt) (dt_hour dt) (dt_minute dt)
    (dt_second dt) = Some dt.

(** ** Tactics *)

(** Case analysis on the lookups of updated lists in the hypotheses. *)
Ltac lookup_insert_cases :=
  repeat match goal with
    | H : context [<[_:=_]> _ !! _] |- _ => rewrite list_lookup_insert in H
    end;
  rewrite ?length_insert in *;
  repeat case_decide; simplify_eq.

(** Case analysis on the integer comparisons of the goal. *)
Ltac Zbool_cases :=
  repeat match goal with
    | |- context [?x <? ?y] => destruct (Z.ltb_spec x y)
    | |- context [?x <=? ?y] => destruct (Z.leb_spec x y)
    | |- context [?x =? ?y] => destruct (Z.eqb_spec x y)
    end;
  simpl; try done; try lia.

(* ===================================================================== *)
(** * Part III: properties *)
(* ===================================================================== *)

(** ** Lists as arrays *)

Lemma parent_div (i : nat) : parent i = ((i - 1) / 2)%nat.
Proof. unfold parent. rewrite Nat.shiftr_div_pow2. reflexivity. Qed.

Lemma parent_lt (i : nat) : (0 < i)%nat → (parent i < i)%nat.
Proof. rewrite parent_div. intros. apply Nat.Div0.div_lt_upper_bound; lia. Qed.

Lemma getitem_Ok {A} (l : list A) i x : l !! i = Some x → getitem l i = Ok x.
Proof. unfold getitem. by intros ->. Qed.

Lemma getitem_lt {A} (l : list A) i : (i < length l)%nat → ∃ x, l !! i = Some x ∧ getitem l i = Ok x.
Proof.
  intros H. destruct (lookup_lt_is_Some_2 l i H) as [x Hx].
  exists x. split; [done | by apply getitem_Ok].
Qed.

Lemma setitem_Ok {A} (l : list A) i v : (i < length l)%nat → setitem l i v = Ok (<[i:=v]> l).
Proof. unfold setitem. intros H. by rewrite bool_decide_eq_true_2. Qed.

(** Exchanging two items of a list permutes it. *)
Lemma insert_swap_Permutation {A} (l : list A) i j a b :
  l !! i = Some a → l !! j = Some b → <[j:=a]> (<[i:=b]> l) ≡ₚ l.
Proof.
  intros Hi Hj.
  pose proof (lookup_lt_Some _ _ _ Hi) as Li.
  pose proof (lookup_lt_Some _ _ _ Hj) as Lj.
  apply Permutation_inj. split; [by rewrite !length_insert|].
  exists (λ k, if decide (k = i) then j else if decide (k = j) then i else k).
  split.
  - intros x y. repeat case_decide; lia.
  - intros k. destruct (decide (k = j)) as [->|Hkj].
    + rewrite list_lookup_insert_eq by (by rewrite length_insert).
      case_decide; [subst; congruence | done].
    + rewrite list_lookup_insert_ne by done.
      destruct (decide (k = i)) as [->|Hki].
      * by rewrite list_lookup_insert_eq.
      * by rewrite list_lookup_insert_ne.
Qed.

(** ** [heapq] keeps the heap invariant and the items *)

Section heapq_correct.
Context {A : Type} (key : A → Z) (lt : A → A → bool).
Hypothesis lt_key : ∀ a b, lt a b = (key a <? key b).

Lemma heap_but_up_root (l : list A) : heap_but_up key l 0 → heap_ok key l.
Proof. intros [H _] i x p Hi. apply H; lia. Qed.

Lemma heap_but_up_done (l : list A) pos n p :
  l !! pos = Some n → l !! parent pos = Some p → key p ≤ key n →
  heap_but_up key l pos → heap_ok key l.
Proof.
  intros Hn Hp Hle [H _] i x q Hi Hx Hq.
  destruct (decide (i = pos)) as [->|Hne]; [|by eapply H].
  congruence.
Qed.

Lemma heap_but_up_swap (l : list A) pos n p :
  (0 < pos)%nat → l !! pos = Some n → l !! parent pos = Some p →
  key n < key p → heap_but_up key l pos →
  heap_but_up key (<[parent pos:=n]> (<[pos:=p]> l)) (parent pos).
Proof.
  intros Hpos Hn Hp Hlt [H1 H2].
  pose proof (parent_lt pos Hpos) as Hpp.
  pose proof (lookup_lt_Some _ _ _ Hn) as Ln.
  split.
  - intros i x q Hi Hne Hx Hq.
    destruct (decide (i = pos)) as [->|Hip].
    + lookup_insert_cases; try lia.
    + destruct (decide (parent i = parent pos)) as [Heq|Hpne].
      * assert (l !! parent i = Some p) as Hp' by (by rewrite Heq).
        rewrite Heq in Hq. lookup_insert_cases; try lia.
        pose proof (H1 i x p Hi Hip Hx Hp'). lia.
      * destruct (decide (parent i = pos)) as [Heq2|Hpne2].
        -- pose proof (λ Hx', H2 i x p Hpos Hi Heq2 Hx' Hp) as Hpx.
           rewrite Heq2 in Hq. lookup_insert_cases; try lia.
           specialize (Hpx Hx). lia.
        -- lookup_insert_cases; try lia. by eapply H1.
  - intros c x g Hpp0 Hc Hpc Hx Hg.
    pose proof (parent_lt _ Hpp0) as Hppp.
    pose proof (parent_lt _ Hc) as Hcc.
    assert (key g ≤ key p) as Hgp.
    { lookup_insert_cases; try lia; eapply (H1 (parent pos)); eauto; lia. }
    destruct (decide (c = pos)) as [->|Hcp].
    + lookup_insert_cases; try lia.
    + assert (l !! parent c = Some p) as Hp' by (by rewrite Hpc).
      lookup_insert_cases; try lia.
      pose proof (H1 c x p Hc Hcp Hx Hp'). lia.
Qed.

Lemma _siftdown_loop_S steps h n s pos :
  _siftdown_loop lt (S steps) h n s pos =
    if bool_decide (s < pos)%nat then
      p ← getitem h (parent pos);
      if lt n p then
        h' ← setitem h pos p; _siftdown_loop lt steps h' n s (parent pos)
      else Ok (h, pos)
    else Ok (h, pos).
Proof. reflexivity. Qed.

Lemma _siftdown_loop_ok (newitem : A) :
  ∀ steps h pos, (pos ≤ steps)%nat → (pos < length h)%nat →
    heap_but_up key (<[pos:=newitem]> h) pos →
    ∃ h' pos', _siftdown_loop lt steps h newitem 0 pos = Ok (h', pos') ∧
      (pos' < length h')%nat ∧
      <[pos':=newitem]> h' ≡ₚ <[pos:=newitem]> h ∧
      heap_ok key (<[pos':=newitem]> h').
Proof.
  induction steps as [|steps IH]; intros h pos Hsteps Hlen Hinv.
  - assert (pos = 0)%nat as -> by lia. exists h, 0%nat. simpl.
    split_and!; [done | done | done | by apply heap_but_up_root].
  - rewrite _siftdown_loop_S. case_bool_decide as Hpos.
    + pose proof (parent_lt pos Hpos) as Hpp.
      destruct (getitem_lt h (parent pos)) as (p & Hp & ->); [lia|].
      simpl. rewrite lt_key.
      destruct (Z.ltb_spec (key newitem) (key p)) as [Hlt|Hge].
      * rewrite setitem_Ok by done. simpl.
        destruct (IH (<[pos:=p]> h) (parent pos)) as (h' & pos' & Hrun & Hl & Hperm & Hok).
        { lia. }
        { rewrite length_insert. lia. }
        { replace (<[pos:=p]> h) with (<[pos:=p]> (<[pos:=newitem]> h))
            by apply list_insert_insert_eq.
          apply heap_but_up_swap; try done.
          - by apply list_lookup_insert_eq.
          - rewrite list_lookup_insert_ne by lia. done. }
        exists h', pos'. split_and!; try done.
        rewrite Hperm.
        replace (<[pos:=p]> h) with (<[pos:=p]> (<[pos:=newitem]> h))
          by apply list_insert_insert_eq.
        apply insert_swap_Permutation.
        -- by apply list_lookup_insert_eq.
        -- rewrite list_lookup_insert_ne by lia. done.
      * exists h, pos. split_and!; try done.
        eapply (heap_but_up_done _ pos newitem p); try done.
        -- by apply list_lookup_insert_eq.
        -- rewrite list_lookup_insert_ne by lia. done.
    + assert (pos = 0)%nat as -> by lia. exists h, 0%nat.
      split_and!; [done | done | done | by apply heap_but_up_root].
Qed.

Lemma _siftdown_ok (h : list A) pos :
  (pos < length h)%nat → heap_but_up key h pos →
  ∃ h', _siftdown lt h 0 pos = Ok h' ∧ h' ≡ₚ h ∧ heap_ok key h'.
Proof.
  intros Hlen Hinv. unfold _siftdown.
  destruct (getitem_lt h pos Hlen) as (n & Hn & ->). simpl.
  destruct (_siftdown_loop_ok n pos h pos) as (h' & pos' & -> & Hl & Hperm & Hok);
    [lia | done | by rewrite list_insert_id |].
  simpl. rewrite setitem_Ok by done.
  exists (<[pos':=n]> h'). split_and!; [done | | done].
  by rewrite Hperm, list_insert_id.
Qed.

Lemma heappush_ok (h : list A) (x : A) :
  heap_ok key h →
  ∃ h', heappush lt h x = Ok h' ∧ h' ≡ₚ x :: h ∧ heap_ok key h'.
Proof.
  intros Hok. unfold heappush.
  destruct (_siftdown_ok (h ++ [x]) (length (h ++ [x]) - 1)) as (h' & -> & Hperm & Hok').
  - rewrite length_app. simpl. lia.
  - rewrite length_app. simpl.
    replace (length h + 1 - 1)%nat with (length h) by lia.
    split.
    + intros i y p Hi Hne Hy Hp.
      pose proof (parent_lt i Hi).
      pose proof (lookup_lt_Some _ _ _ Hy) as Hl.
      rewrite length_app in Hl. simpl in Hl.
      rewrite lookup_app_l in Hy by lia.
      rewrite lookup_app_l in Hp by lia.
      by eapply Hok.
    + intros c y g _ Hc Hpc Hy _.
      pose proof (parent_lt c Hc).
      pose proof (lookup_lt_Some _ _ _ Hy) as Hl.
      rewrite length_app in Hl. simpl in Hl. lia.
  - exists h'. split_and!; [done | | done].
    rewrite Hperm. by rewrite Permutation_app_comm.
Qed.

Lemma heap_but_at_leaf (l : list A) pos :
  (length l ≤ 2 * pos + 1)%nat → heap_but_at key l pos → heap_but_up key l pos.
Proof.
  intros Hleaf [H1 H2]. split; [|done].
  intros i x p Hi Hne Hx Hp. apply (H1 i); try done.
  pose proof (lookup_lt_Some _ _ _ Hx). rewrite parent_div. intros Heq.
  assert (2 * pos + 1 ≤ i)%nat; [|lia].
  rewrite <- Heq. pose proof (Nat.div_mod_eq (i - 1) 2).
  pose proof (Nat.mod_upper_bound (i - 1) 2). lia.
Qed.

Lemma parent_child (c pos : nat) :
  (0 < c)%nat → parent c = pos ↔ (c = 2 * pos + 1 ∨ c = 2 * pos + 2)%nat.
Proof.
  intros Hc. rewrite parent_div.
  pose proof (Nat.div_mod_eq (c - 1) 2).
  pose proof (Nat.mod_upper_bound (c - 1) 2). lia.
Qed.

Lemma heap_but_at_swap (l : list A) pos c n ch :
  (0 < c)%nat → parent c = pos → l !! pos = Some n → l !! c = Some ch →
  (∀ s y, (0 < s)%nat → parent s = pos → l !! s = Some y → key ch ≤ key y) →
  heap_but_at key l pos →
  heap_but_at key (<[c:=n]> (<[pos:=ch]> l)) c.
Proof.
  intros Hc Hpc Hn Hch Hsib [H1 H2].
  pose proof (parent_lt c Hc) as Hlt.
  pose proof (lookup_lt_Some _ _ _ Hn) as Ln.
  pose proof (lookup_lt_Some _ _ _ Hch) as Lc.
  split.
  - intros i x q Hi Hic Hpic Hx Hq.
    destruct (decide (i = pos)) as [->|Hip].
    + pose proof (parent_lt _ Hi).
      pose proof (λ g, H2 c ch g Hi Hc Hpc Hch) as Hg.
      lookup_insert_cases; try lia. by apply Hg.
    + destruct (decide (parent i = pos)) as [Heq|Hne].
      * pose proof (Hsib i x Hi Heq) as Hs.
        rewrite Heq in Hq. lookup_insert_cases; try lia. by apply Hs.
      * lookup_insert_cases; try lia. by eapply H1.
  - intros cc x g _ Hcc Hpcc Hx Hg.
    pose proof (parent_lt cc Hcc).
    assert (l !! parent cc = Some ch) as Hch' by (by rewrite Hpcc).
    pose proof (λ Hx', H1 cc x ch Hcc ltac:(lia) ltac:(lia) Hx' Hch') as Hle.
    rewrite Hpc in Hg. lookup_insert_cases; try lia. by apply Hle.
Qed.

Lemma _siftup_loop_S steps h endpos pos :
  _siftup_loop lt (S steps) h endpos pos =
    if bool_decide (2 * pos + 1 < endpos)%nat then
      c ← (if bool_decide (2 * pos + 1 + 1 < endpos)%nat then
             l ← getitem h (2 * pos + 1)%nat;
             r ← getitem h (2 * pos + 1 + 1)%nat;
             Ok (if negb (lt l r) then (2 * pos + 1 + 1)%nat else (2 * pos + 1)%nat)
           else Ok (2 * pos + 1)%nat);
      child ← getitem h c;
      h' ← setitem h pos child;
      _siftup_loop lt steps h' endpos c
    else Ok (h, pos).
Proof. reflexivity. Qed.

Lemma _siftup_loop_ok (newitem : A) :
  ∀ steps h pos, (length h ≤ steps + pos)%nat → (pos < length h)%nat →
    heap_but_at key (<[pos:=newitem]> h) pos →
    ∃ h' pos', _siftup_loop lt steps h (length h) pos = Ok (h', pos') ∧
      (pos' < length h')%nat ∧
      <[pos':=newitem]> h' ≡ₚ <[pos:=newitem]> h ∧
      heap_but_up key (<[pos':=newitem]> h') pos'.
Proof.
  induction steps as [|steps IH]; intros h pos Hsteps Hlen Hinv; [lia|].
  rewrite _siftup_loop_S. case_bool_decide as Hchild; cycle 1.
  { exists h, pos. split_and!; try done.
    apply heap_but_at_leaf; [rewrite length_insert; lia | done]. }
  set (g := <[pos:=newitem]> h) in *.
  assert (∃ c ch, (c = 2 * pos + 1 ∨ c = 2 * pos + 2)%nat ∧ h !! c = Some ch ∧
    (if bool_decide (2 * pos + 1 + 1 < length h)%nat then
       l ← getitem h (2 * pos + 1)%nat;
       r ← getitem h (2 * pos + 1 + 1)%nat;
       Ok (if negb (lt l r) then (2 * pos + 1 + 1)%nat else (2 * pos + 1)%nat)
     else Ok (2 * pos + 1)%nat) = Ok c ∧
    ∀ s y, (0 < s)%nat → parent s = pos → h !! s = Some y → key ch ≤ key y)
    as (c & ch & Hc & Hch & -> & Hsib).
  { destruct (getitem_lt h (2 * pos + 1)%nat Hchild) as (l & Hl & Hgl).
    case_bool_decide as Hright.
    - destruct (getitem_lt h (2 * pos + 1 + 1)%nat Hright) as (r & Hr & Hgr).
      rewrite Hgl, Hgr. simpl. rewrite lt_key.
      destruct (Z.ltb_spec (key l) (key r)); simpl.
      + exists (2 * pos + 1)%nat, l. split_and!; [lia | done | done |].
        intros s y Hs Hps Hy. apply parent_child in Hps; [|done].
        destruct Hps as [-> | ->].
        * assert (y = l) as -> by congruence. lia.
        * replace (2 * pos + 2)%nat with (2 * pos + 1 + 1)%nat in Hy by lia.
          assert (y = r) as -> by congruence. lia.
      + exists (2 * pos + 1 + 1)%nat, r. split_and!; [lia | done | done |].
        intros s y Hs Hps Hy. apply parent_child in Hps; [|done].
        destruct Hps as [-> | ->].
        * assert (y = l) as -> by congruence. lia.
        * replace (2 * pos + 2)%nat with (2 * pos + 1 + 1)%nat in Hy by lia.
          assert (y = r) as -> by congruence. lia.
    - exists (2 * pos + 1)%nat, l. split_and!; [lia | done | done |].
      intros s y Hs Hps Hy. apply parent_child in Hps; [|done].
      pose proof (lookup_lt_Some _ _ _ Hy).
      destruct Hps as [-> | ->]; [|lia].
      assert (y = l) as -> by congruence. lia. }
  simpl. rewrite (getitem_Ok _ _ _ Hch). simpl.
  rewrite setitem_Ok by done. simpl.
  pose proof (lookup_lt_Some _ _ _ Hch) as Lc.
  assert (0 < c)%nat as Hc0 by lia.
  assert (parent c = pos) as Hpc by (apply parent_child; [done | lia]).
  replace (length h) with (length (<[pos:=ch]> h)) by apply length_insert.
  destruct (IH (<[pos:=ch]> h) c) as (h' & pos' & Hrun & Hl & Hperm & Hup).
  { rewrite length_insert. lia. }
  { rewrite length_insert. lia. }
  { replace (<[pos:=ch]> h) with (<[pos:=ch]> g) by apply list_insert_insert_eq.
    apply heap_but_at_swap; try done.
    - by apply list_lookup_insert_eq.
    - unfold g. rewrite list_lookup_insert_ne by lia. done.
    - intros s y Hs Hps Hy. apply (Hsib s y Hs Hps).
      pose proof (parent_lt s Hs).
      unfold g in Hy. rewrite list_lookup_insert_ne in Hy by lia. done. }
  exists h', pos'. split_and!; try done.
  rewrite Hperm.
  replace (<[pos:=ch]> h) with (<[pos:=ch]> g) by apply list_insert_insert_eq.
  apply insert_swap_Permutation.
  - by apply list_lookup_insert_eq.
  - unfold g. rewrite list_lookup_insert_ne by lia. done.
Qed.

Lemma _siftup_ok (h : list A) :
  (0 < length h)%nat → heap_but_at key h 0 →
  ∃ h', _siftup lt h 0 = Ok h' ∧ h' ≡ₚ h ∧ heap_ok key h'.
Proof.
  intros Hlen Hinv. unfold _siftup.
  destruct (getitem_lt h 0%nat Hlen) as (n & Hn & ->). simpl.
  destruct (_siftup_loop_ok n (length h) h 0%nat) as (h' & pos' & -> & Hl & Hperm & Hup);
    [lia | done | by rewrite list_insert_id |].
  simpl. rewrite setitem_Ok by done. simpl.
  destruct (_siftdown_ok (<[pos':=n]> h') pos') as (h'' & -> & Hperm' & Hok);
    [by rewrite length_insert | done |].
  exists h''. split_and!; [done | | done].
  by rewrite Hperm', Hperm, list_insert_id.
Qed.

Lemma heappushpop_ok (h : list A) (item : A) :
  heap_ok key h →
  ∃ r h', heappushpop lt h item = Ok (r, h') ∧ heap_ok key h' ∧
    match h with
    | heap0 :: tl =>
        if key heap0 <? key item then r = heap0 ∧ h' ≡ₚ item :: tl
        else r = item ∧ h' = h
    | [] => r = item ∧ h' = h
    end.
Proof.
  intros Hok. unfold heappushpop. destruct h as [|heap0 tl].
  { by exists item, []. }
  rewrite lt_key. destruct (key heap0 <? key item); [|by exists item, (heap0 :: tl)].
  rewrite setitem_Ok by (simpl; lia). simpl.
  destruct (_siftup_ok (item :: tl)) as (h' & -> & Hperm & Hok'); [simpl; lia | |].
  - split.
    + intros i x p Hi Hi0 Hp0 Hx Hp.
      pose proof (parent_lt i Hi).
      destruct i as [|i]; [lia|].
      destruct (parent (S i)) as [|j] eqn:Hj; [lia|].
      apply (Hok (S i) x p); [lia | done | by rewrite Hj].
    + intros; lia.
  - by exists heap0, h'.
Qed.

(** The root of a heap is a minimum of it. *)
Lemma heap_ok_root_min (l : list A) m :
  heap_ok key l → l !! 0%nat = Some m → ∀ x, x ∈ l → key m ≤ key x.
Proof.
  intros Hok Hm x [i Hi]%list_elem_of_lookup.
  revert x Hi. induction (lt_wf i) as [i _ IH]. intros x Hi.
  destruct (decide (i = 0)%nat) as [->|Hne]; [by simplify_eq|].
  pose proof (parent_lt i ltac:(lia)) as Hp.
  destruct (lookup_lt_is_Some_2 l (parent i)) as [p Hpl].
  { pose proof (lookup_lt_Some _ _ _ Hi). lia. }
  pose proof (IH (parent i) Hp p Hpl).
  pose proof (Hok i x p ltac:(lia) Hi Hpl). lia.
Qed.

(** Steps beyond the first [pos] (resp. beyond [endpos - pos]) are never
    used: the loops leave by their own test. *)
Lemma _siftdown_loop_steps n s :
  ∀ steps1 steps2 h pos, (pos ≤ steps1)%nat → (pos ≤ steps2)%nat →
    _siftdown_loop lt steps1 h n s pos = _siftdown_loop lt steps2 h n s pos.
Proof.
  induction steps1 as [|k IH]; intros steps2 h pos H1 H2.
  - assert (pos = 0)%nat as -> by lia. destruct steps2; [done|].
    rewrite _siftdown_loop_S. by rewrite bool_decide_eq_false_2 by lia.
  - destruct steps2 as [|k2].
    + assert (pos = 0)%nat as -> by lia.
      rewrite _siftdown_loop_S. by rewrite bool_decide_eq_false_2 by lia.
    + rewrite !_siftdown_loop_S. case_bool_decide as Hpos; [|done].
      pose proof (parent_lt pos ltac:(lia)).
      destruct (getitem h (parent pos)); [simpl|done].
      destruct (lt n a); [|done].
      destruct (setitem h pos a); [simpl|done].
      apply IH; lia.
Qed.

Lemma _siftup_loop_steps endpos :
  ∀ steps1 steps2 h pos, (endpos ≤ steps1 + pos)%nat → (endpos ≤ steps2 + pos)%nat →
    _siftup_loop lt steps1 h endpos pos = _siftup_loop lt steps2 h endpos pos.
Proof.
  induction steps1 as [|k IH]; intros steps2 h pos H1 H2.
  - destruct steps2; [done|].
    rewrite _siftup_loop_S. by rewrite bool_decide_eq_false_2 by lia.
  - destruct steps2 as [|k2].
    + rewrite _siftup_loop_S. by rewrite bool_decide_eq_false_2 by lia.
    + rewrite !_siftup_loop_S. case_bool_decide as Hpos; [|done].
      assert (∀ c : nat, (pos < c)%nat →
        (child ← getitem h c; h' ← setitem h pos child;
           _siftup_loop lt k h' endpos c) =
        (child ← getitem h c; h' ← setitem h pos child;
           _siftup_loop lt k2 h' endpos c)) as Hstep.
      { intros c Hc. destruct (getitem h c); cbn [mbind Res_bind]; [|done].
        destruct (setitem h pos a); cbn [mbind Res_bind]; [|done].
        apply IH; lia. }
      case_bool_decide; cbn [mbind Res_bind]; [|apply Hstep; lia].
      destruct (getitem h (2 * pos + 1)%nat); cbn [mbind Res_bind]; [|done].
      destruct (getitem h (2 * pos + 1 + 1)%nat); cbn [mbind Res_bind]; [|done].
      destruct (negb (lt a a0)); apply Hstep; lia.
Qed.
End heapq_correct.

(** ** The top-K selector *)

#[local] Instance flip_Zle_trans : Transitive (flip Z.le).
Proof. intros x y z. unfold flip. lia. Qed.
#[local] Instance flip_Zle_total : Total (flip Z.le).
Proof. intros x y. unfold flip. lia. Qed.
#[local] Instance flip_Zle_antisymm : AntiSymm (=) (flip Z.le).
Proof. intros x y. unfold flip. lia. Qed.

(** A part [H] of a list that dominates the rest [D] is the list's largest
    [length H] values. *)
Lemma k_largest_split (k : Z) (l H D : list Z) :
  l ≡ₚ H ++ D → (∀ d x, d ∈ D → x ∈ H → d ≤ x) →
  length H = Nat.min (length l) (Z.to_nat k) →
  H ≡ₚ k_largest k l.
Proof.
  intros Hperm Hdom Hlen. unfold k_largest.
  assert (merge_sort (flip Z.le) l = merge_sort (flip Z.le) H ++ merge_sort (flip Z.le) D) as ->.
  { apply (StronglySorted_unique (flip Z.le)).
    - apply StronglySorted_merge_sort; apply _.
    - apply StronglySorted_app_2; [| apply StronglySorted_merge_sort; apply _ ..].
      intros x y Hx Hy. unfold flip.
      rewrite merge_sort_Permutation in Hx. rewrite merge_sort_Permutation in Hy.
      by apply Hdom.
    - by rewrite !merge_sort_Permutation. }
  assert (length (merge_sort (flip Z.le) H) = length H) as HlH
    by (by rewrite merge_sort_Permutation).
  pose proof (Permutation_length Hperm) as Hl. rewrite length_app in Hl.
  destruct (decide (Z.to_nat k ≤ length l)%nat) as [Hk|Hk].
  - rewrite take_app_le by lia. rewrite take_ge by lia.
    by rewrite merge_sort_Permutation.
  - assert (D = []) as -> by (apply length_zero_iff_nil; lia).
    simpl. rewrite app_nil_r. rewrite take_ge by lia.
    by rewrite merge_sort_Permutation.
Qed.

Section top_k_correct.
Context {W : Type}.
Implicit Types (s : Top_K_and_Which W) (stream : list (Z * W)).

Lemma vw_lt_key (a b : Value_and_Which W) : vw_lt a b = (value a <? value b).
Proof. reflexivity. Qed.

Lemma top_k_inv_init K : top_k_inv (W:=W) K [] (Top_K_init K).
Proof.
  split_and!; [done | | done |].
  - intros i x p _ Hx. by destruct i.
  - exists []. split; [done|]. intros d x Hd. by apply elem_of_nil in Hd.
Qed.

Lemma push_inv K stream s v w :
  top_k_inv K stream s →
  ∃ r s', push s v w = Ok (r, s') ∧ top_k_inv K (stream ++ [(v, w)]) s'.
Proof.
  destruct s as [cap l]. unfold top_k_inv, push, held. simpl.
  intros (-> & Hok & Hlen & dropped & Hperm & Hdom).
  pose proof (Permutation_length Hperm) as Hl.
  rewrite length_fmap, length_app, length_fmap in Hl.
  rewrite length_app, fmap_app. simpl.
  destruct (Z.ltb_spec (Z.of_nat (length l)) K) as [Hroom|Hfull].
  - destruct (heappush_ok value vw_lt vw_lt_key l (mkVW v w) Hok)
      as (l' & -> & Hperm' & Hok').
    simpl. eexists _, _. split; [done|]. simpl.
    assert (dropped = []) as -> by (apply length_zero_iff_nil; lia).
    split_and!; [done | done | |].
    + rewrite (Permutation_length Hperm'). simpl. lia.
    + exists []. split; [| intros d x Hd; by apply elem_of_nil in Hd].
      rewrite app_nil_r in *. rewrite Hperm', Hperm. simpl.
      by rewrite Permutation_app_comm.
  - destruct (heappushpop_ok value vw_lt vw_lt_key l (mkVW v w) Hok)
      as (r & l' & -> & Hok' & Hcase).
    simpl. eexists _, _. split; [done|]. simpl.
    destruct l as [|heap0 tl].
    + destruct Hcase as [-> ->]. split_and!; [done | done | simpl in *; lia |].
      exists (dropped ++ [v]). split.
      * by rewrite Hperm.
      * intros d x _ Hx. by apply elem_of_nil in Hx.
    + assert (∀ x, x ∈ value <$> tl → value heap0 ≤ x) as Hmin.
      { intros x (item & -> & Hitem)%list_elem_of_fmap.
        apply (heap_ok_root_min value (heap0 :: tl) heap0 Hok); [done|].
        by apply list_elem_of_further. }
      simpl in Hcase. destruct (Z.ltb_spec (value heap0) v) as [Hlt|Hge].
      * destruct Hcase as [-> Hperm']. split_and!; [done | done | |].
        { rewrite (Permutation_length Hperm'). simpl in *. lia. }
        exists (value heap0 :: dropped). split.
        -- rewrite Hperm', Hperm, !fmap_cons. cbn [value app].
           rewrite <- (Permutation_middle (value <$> tl) dropped (value heap0)).
           rewrite <- (Permutation_cons_append ((value <$> tl) ++ dropped) v).
           apply perm_swap.
        -- intros d x Hd Hx. rewrite Hperm' in Hx. simpl in Hx.
           assert (value heap0 ≤ x) as H0x.
           { apply elem_of_cons in Hx as [->|Hx]; [lia | by apply Hmin]. }
           apply elem_of_cons in Hd as [->|Hd]; [done|].
           assert (d ≤ value heap0); [|lia].
           apply Hdom; [done|]. simpl. apply list_elem_of_here.
      * destruct Hcase as [-> ->]. split_and!; [done | done | simpl in *; lia |].
        exists (v :: dropped). split.
        -- rewrite Hperm.
           rewrite <- (Permutation_middle (value <$> heap0 :: tl) dropped v).
           by rewrite <- Permutation_cons_append.
        -- intros d x Hd Hx.
           apply elem_of_cons in Hd as [->|Hd].
           ++ simpl in Hx. apply elem_of_cons in Hx as [->|Hx]; [lia|].
              specialize (Hmin x Hx). lia.
           ++ by apply Hdom.
Qed.

Lemma push_all_inv K : ∀ rest stream s,
  top_k_inv K stream s →
  ∃ s', push_all s rest = Ok s' ∧ top_k_inv K (stream ++ rest) s'.
Proof.
  induction rest as [|[v w] rest IH]; intros stream s Hinv.
  - exists s. by rewrite app_nil_r.
  - destruct (push_inv K stream s v w Hinv) as (r & s1 & Hpush & Hinv1).
    destruct (IH _ _ Hinv1) as (s' & Hrun & Hinv').
    exists s'. simpl. rewrite Hpush. simpl. rewrite Hrun.
    split; [done|]. by rewrite <- app_assoc in Hinv'.
Qed.
End top_k_correct.

(** C1.  For a selector of capacity [K >= 1]: after the offers of any
    stream (its values need not even be distinct) the selector holds exactly
    the [K] largest values offered, [K] of them as soon as [K] were offered;
    [next_to_pop] is [None] while fewer than [K] items are held and the
    minimum held value once [K] are held; and pushing onto a full selector a
    value that is at most its minimum held value leaves the selector, hence
    the multiset of held values, as it was. *)
Theorem top_k_selector_correct {W : Type} (K : Z) :
  1 ≤ K →
  (∀ stream : list (Z * W),
     ∃ s, push_all (Top_K_init K) stream = Ok s ∧
       held s ≡ₚ k_largest K (stream.*1) ∧
       (K ≤ Z.of_nat (length stream) → Z.of_nat (length (held s)) = K) ∧
       (Z.of_nat (length (held s)) < K → next_to_pop s = Ok None) ∧
       (K ≤ Z.of_nat (length (held s)) →
          ∃ m, next_to_pop s = Ok (Some m) ∧ is_min m (held s))) ∧
  (∀ (s : Top_K_and_Which W) (v : Z) (w : W) (m : Z),
     capacity s = K → K ≤ Z.of_nat (length (_list s)) →
     is_min m (held s) → v ≤ m →
     ∃ r s', push s v w = Ok (r, s') ∧ s' = s ∧ held s' ≡ₚ held s).
Proof.
  intros HK. split.
  - intros stream.
    destruct (push_all_inv K stream [] (Top_K_init K) (top_k_inv_init K))
      as (s & Hrun & Hcap & Hok & Hlen & dropped & Hperm & Hdom).
    simpl in *. exists s. unfold held in *. rewrite length_fmap.
    split_and!; [done | | lia | |].
    + eapply k_largest_split; [done | done |]. by rewrite !length_fmap.
    + intros Hfew. unfold next_to_pop. rewrite Hcap.
      by destruct (Z.ltb_spec (Z.of_nat (length (_list s))) K); [|lia].
    + intros Hfull. unfold next_to_pop. rewrite Hcap.
      destruct (Z.ltb_spec (Z.of_nat (length (_list s))) K); [lia|].
      destruct (_list s) as [|heap0 tl] eqn:Hlist; [simpl in *; lia|].
      exists (value heap0). split; [done|]. split.
      * rewrite fmap_cons. apply list_elem_of_here.
      * intros x (item & -> & Hitem)%list_elem_of_fmap.
        by apply (heap_ok_root_min value (heap0 :: tl) heap0 Hok).
  - intros [cap l] v w m Hcap Hfull [Hin Hmin] Hv. simpl in *. subst cap.
    unfold push, held in *. simpl in *.
    destruct (Z.ltb_spec (Z.of_nat (length l)) K); [lia|].
    destruct l as [|heap0 tl]; [simpl in *; lia|].
    unfold heappushpop, vw_lt. simpl.
    assert ((value heap0 <? v) = false) as ->.
    { apply Z.ltb_ge. etrans; [done|]. apply Hmin. rewrite fmap_cons. apply list_elem_of_here. }
    simpl. by eexists _, _.
Qed.

Example k_largest_example : k_largest 2 [5; 3; 8; 1] = [8; 5].
Proof. reflexivity. Qed.

Lemma top_k_selector_correct_witness :
  1 ≤ 2 ∧
  ∃ s, push_all (Top_K_init 2) [(5, "a"); (3, "b"); (8, "c")] = Ok s ∧
    held s ≡ₚ k_largest 2 [5; 3; 8] ∧
    ∃ m, next_to_pop s = Ok (Some m) ∧ is_min m (held s).
Proof.
  split; [lia|].
  destruct (top_k_selector_correct (W:=string) 2 ltac:(lia)) as [Hstream _].
  destruct (Hstream [(5, "a"); (3, "b"); (8, "c")]) as (s & Hrun & Hperm & Hlen & _ & Hmin).
  exists s. split_and!; [done | done |]. apply Hmin. rewrite Hlen; simpl; lia.
Defined.

(** ** The null-aware operators and the comparator *)

Lemma string_ltb_irrefl (s : string) : string_ltb s s = false.
Proof.
  induction s as [|a s IH]; [done|]. simpl.
  by rewrite Nat.ltb_irrefl.
Qed.

Lemma three_way_refl (v : FieldVal) : three_way v v = Ok 0.
Proof.
  destruct v; simpl.
  - by rewrite Z.ltb_irrefl.
  - by rewrite string_ltb_irrefl.
Qed.

Section cmp_laws.
Context {obj : Type} (getattr : obj → string → option FieldVal).

(** Fields on which two nodes agree decide nothing. *)
Lemma cmp_fields_tied (pre fields : list string) (a b : obj) :
  (∀ g, g ∈ pre → getattr a g = getattr b g) →
  cmp_fields getattr (pre ++ fields) a b = cmp_fields getattr fields a b.
Proof.
  induction pre as [|g pre IH]; intros Htied; [done|].
  simpl. rewrite <- (Htied g) by apply list_elem_of_here.
  rewrite IH by (intros; apply Htied; by apply list_elem_of_further).
  destruct (getattr a g) as [v|]; [|done].
  unfold Null.presence. simpl. rewrite three_way_refl. done.
Qed.

Lemma cmp_fields_presence (f : string) (rest : list string) (a b : obj) v :
  getattr a f = Some v → getattr b f = None →
  cmp_fields getattr (f :: rest) a b = Ok (-1) ∧
  cmp_fields getattr (f :: rest) b a = Ok 1.
Proof. intros Ha Hb. simpl. by rewrite Ha, Hb. Qed.
End cmp_laws.

(** C3.  The laws of the null-aware operators, and the comparator: when two
    nodes agree on the fields sorted by before [f] (none, when [f] is the
    first), the one that has [f] comes strictly before the one that lacks
    it, whether [f] holds a number or a string. *)
Theorem null_algebra_laws :
  (∀ x, Null.max_of None x = x) ∧
  Null.add None None = None ∧
  (∀ x, Null.add None x = x) ∧
  (∀ b, Null.lt None (Some b) = true) ∧
  (∀ a, Null.lt (Some a) None = false) ∧
  (∀ (obj : Type) (getattr : obj → string → option FieldVal)
     (pre : list string) (f : string) (rest : list string) (a b : obj) (v : FieldVal),
     (∀ g, g ∈ pre → getattr a g = getattr b g) →
     getattr a f = Some v → getattr b f = None →
     fields_to_cmp getattr (pre ++ f :: rest) (Some a) (Some b) = Ok (-1) ∧
     fields_to_cmp getattr (pre ++ f :: rest) (Some b) (Some a) = Ok 1).
Proof.
  split_and!.
  - by intros [x|].
  - done.
  - by intros [x|].
  - done.
  - done.
  - intros obj getattr pre f rest a b v Htied Ha Hb.
    unfold fields_to_cmp. simpl.
    rewrite !cmp_fields_tied by (done || (intros; symmetry; by apply Htied)).
    by apply (cmp_fields_presence getattr f rest a b v).
Qed.

Lemma null_algebra_laws_witness :
  let getattr := λ (n : string) (f : string), if String.eqb n "big" then Some (Num 7) else None in
  fields_to_cmp getattr ["usize"; "name"] (Some "big") (Some "none") = Ok (-1) ∧
  fields_to_cmp getattr ["usize"; "name"] (Some "none") (Some "big") = Ok 1.
Proof.
  destruct null_algebra_laws as (_ & _ & _ & _ & _ & Hcmp).
  apply (Hcmp string _ [] "usize" ["name"] "big" "none" (Num 7)); [|done|done].
  intros g Hg. by apply elem_of_nil in Hg.
Defined.

(** ** [best_of] and [sum_of] *)

(** C5.  On nodes none of which has the attribute, [best_of] is [None] but
    [sum_of] is the number [0], not [None]. *)
Theorem best_of_sum_of_all_absent {obj : Type}
    (getattr : obj → string → option Z) (nodes : list obj) (attr : string) :
  (∀ n, n ∈ nodes → getattr n attr = None) →
  best_of getattr nodes attr = None ∧ sum_of getattr nodes attr = Some 0.
Proof.
  intros Habsent.
  assert (present_attrs getattr nodes attr = []) as Hnone.
  { unfold present_attrs. induction nodes as [|n nodes IH]; [done|]. simpl.
    rewrite (Habsent n) by apply list_elem_of_here.
    apply IH. intros; apply Habsent; by apply list_elem_of_further. }
  unfold best_of, sum_of. by rewrite Hnone.
Qed.

Lemma best_of_sum_of_all_absent_witness :
  (∀ n, n ∈ ["a.bin"; "b.bin"] → (λ (_ _ : string), @None Z) n "lines" = None) ∧
  best_of (λ _ _ : string, None) ["a.bin"; "b.bin"] "lines" = None ∧
  sum_of (λ _ _ : string, None) ["a.bin"; "b.bin"] "lines" = Some 0.
Proof.
  split; [done|].
  apply (best_of_sum_of_all_absent (λ _ _ : string, None) ["a.bin"; "b.bin"] "lines").
  done.
Defined.

(** ** The walk: unfolding and the nodes it creates *)

Lemma fst_map_pair {A B C} (f : A → B) (g : A → C) (l : list A) :
  (map (λ x, (f x, g x)) l).*1 = map f l.
Proof. induction l as [|x l IH]; [done|]. simpl. by rewrite <- IH. Qed.

Lemma elem_of_concat {A} (x : A) (ls : list (list A)) :
  x ∈ concat ls ↔ ∃ l, x ∈ l ∧ l ∈ ls.
Proof.
  rewrite list_elem_of_In, in_concat. split.
  - intros (l & Hl & Hx). exists l. by rewrite !list_elem_of_In.
  - intros (l & Hx & Hl). exists l. by rewrite <- !list_elem_of_In.
Qed.

(** Induction on the entries of a file system. *)
Lemma Entry_nested_ind (P : Entry → Prop) :
  (∀ r err entries, Forall P entries → P (mkEntry r err entries)) →
  ∀ e, P e.
Proof.
  intros Hstep. fix IH 1. intros [r err entries]. apply Hstep.
  induction entries as [|x entries IHl]; constructor; [apply IH | apply IHl].
Qed.

Section walk_basics.
Context (md5_hexdigest : string → string) (cfg : Config).

Lemma gather_enter_result level root t :
  stat_of (gather_enter cfg level root t).1 = stat_of root ∧
  children (gather_enter cfg level root t).1 = children root ∧
  agg (gather_enter cfg level root t).1 = Some (own_agg root).
Proof. unfold gather_enter. by destruct (top_mode cfg), (no_progress cfg). Qed.

Lemma _gather_eq r err entries level root t :
  _gather md5_hexdigest cfg (mkEntry r err entries) level root t =
    let root1 := (gather_enter cfg level root t).1 in
    let t1 := (gather_enter cfg level root t).2 in
    match err with
    | Some message => Ok (root1, warning_print cfg t1 message)
    | None =>
        let all_nodes : list (Node * Walk) :=
          map (λ x, (Node_init md5_hexdigest
                       (path_join (path root1) (d_name (raw_of x)))
                       (Some (path root1)) (raw_of x),
                     _gather md5_hexdigest cfg x)) entries in
        '(root2, t2) ←
          files_loop cfg
            (filter (λ n, negb (is_to_dir n) && fpred cfg n)
               (map (λ x, Node_init md5_hexdigest
                            (path_join (path root1) (d_name (raw_of x)))
                            (Some (path root1)) (raw_of x)) entries)) root1 t1;
        dirs_loop cfg level
          (filter (λ nw, is_to_dir nw.1 && dpred cfg nw.1) all_nodes) root2 t2
    end.
Proof.
  simpl. destruct (gather_enter cfg level root t). destruct err; [done|].
  simpl. by rewrite fst_map_pair.
Qed.

Lemma Node_init_leaf p father r :
  is_dir (Node_init md5_hexdigest p father r) = false →
  children (Node_init md5_hexdigest p father r) = None.
Proof. unfold Node_init. simpl. by destruct (st_kind r). Qed.

Lemma Node_init_dir p father r :
  is_to_dir (Node_init md5_hexdigest p father r) = true →
  is_link (Node_init md5_hexdigest p father r) = false →
  children (Node_init md5_hexdigest p father r) = Some [].
Proof. unfold Node_init. simpl. by destruct (st_kind r) as [| |[]|]. Qed.

Lemma Node_init_not_to_dir p father r :
  is_to_dir (Node_init md5_hexdigest p father r) = false →
  is_dir (Node_init md5_hexdigest p father r) = false.
Proof. unfold Node_init. simpl. by destruct (st_kind r) as [| |[]|]. Qed.

Lemma Node_init_link p father r :
  is_link (Node_init md5_hexdigest p father r) = true →
  is_dir (Node_init md5_hexdigest p father r) = false.
Proof. unfold Node_init. simpl. by destruct (st_kind r) as [| |[]|]. Qed.
End walk_basics.

(** ** The walk: the gates of the two loops *)

Section walk_gates.
Context (cfg : Config).

Lemma next_to_pop_total {W} (h : Top_K_and_Which W) :
  1 ≤ capacity h → ∃ thr, next_to_pop h = Ok thr.
Proof.
  intros Hcap. unfold next_to_pop.
  destruct (Z.ltb_spec (Z.of_nat (length (_list h))) (capacity h)); [by eexists|].
  destruct (_list h) as [|item l]; [simpl in *; lia|]. by eexists.
Qed.

Lemma le_None (thr : option Z) : Null.le None thr = true.
Proof. by destruct thr. Qed.

Lemma file_step_skip root t f m thr :
  top_mode cfg = Some m → next_to_pop (top_heap t) = Ok thr →
  Null.le (getattr_f f m) thr = true →
  file_step cfg root t f = Ok (root, t).
Proof.
  intros Hm Hthr Hle. unfold file_step, file_gate.
  rewrite Hm, Hthr. simpl. by rewrite Hle.
Qed.

Lemma dir_step_pruned level root t d walk d1 t1 :
  is_link d = false → dir_enter cfg level d walk t = Ok (d1, t1) →
  dir_pruned cfg d1 = Ok true →
  dir_step cfg level root t (d, walk) = Ok (root, t1).
Proof.
  intros Hlink Henter Hpruned. unfold dir_step. simpl.
  by rewrite Hlink, Henter; simpl; rewrite Hpruned.
Qed.

Lemma dir_step_gate level root t d walk d1 t1 :
  is_link d = false → dir_enter cfg level d walk t = Ok (d1, t1) →
  dir_pruned cfg d1 = Ok false →
  dir_step cfg level root t (d, walk) =
    gate ← dir_gate cfg root d1 t1;
    match gate with
    | None => Ok (root, t1)
    | Some root1 => root2 ← dir_link root1 d1; Ok (root2, t1)
    end.
Proof.
  intros Hlink Henter Hpruned. unfold dir_step. simpl.
  by rewrite Hlink, Henter; simpl; rewrite Hpruned.
Qed.
End walk_gates.

(** C10.  In top-mode a file whose metric is absent passes the skip test
    [le(val, threshold)] whatever the threshold, also the absent one of a
    selector that is not full: the body of the file loop leaves the
    directory (children and aggregates) and the selector as they were. *)
Theorem absent_metric_never_offered (cfg : Config) (root : Node) (t : Tree)
    (f : Node) (m : Metric) :
  top_mode cfg = Some m → 1 ≤ capacity (top_heap t) →
  getattr_f f m = None →
  (∀ thr, Null.le (getattr_f f m) thr = true) ∧
  file_step cfg root t f = Ok (root, t).
Proof.
  intros Hm Hcap Hval. rewrite Hval. split; [apply le_None|].
  destruct (next_to_pop_total (top_heap t) Hcap) as [thr Hthr].
  eapply file_step_skip; [done | done |]. rewrite Hval. apply le_None.
Qed.

Lemma absent_metric_never_offered_witness :
  let root := Node_init toy_md5 "r" None (dir_raw "r" 10) in
  let f := Node_init toy_md5 "r/blob" (Some "r")
             (mkRaw "blob" Regular 9 1 2 3 4 false None (Some "x")) in
  top_mode (cfg_top m_lines) = Some m_lines ∧
  1 ≤ capacity (top_heap (Tree_init 3)) ∧
  getattr_f f m_lines = None ∧
  file_step (cfg_top m_lines) root (Tree_init 3) f = Ok (root, Tree_init 3).
Proof.
  intros root f. split_and!; [done | done | done |].
  apply (absent_metric_never_offered (cfg_top m_lines) root (Tree_init 3) f m_lines);
    [done | done | done].
Defined.

(** C8.  A directory that is not a link and, once walked, fails [dpost], or
    has no file and no directory below it while empty directories are not
    shown, leaves its parent (children and aggregates) as it was. *)
Theorem pruned_directory_contributes_nothing (cfg : Config) (level : Z)
    (root : Node) (t : Tree) (d : Node) (walk : Walk) (d1 : Node) (t1 : Tree) :
  is_link d = false →
  dir_enter cfg level d walk t = Ok (d1, t1) →
  dpost cfg d1 = false ∨
    (always_show_dirs cfg = false ∧
     ∃ a, agg d1 = Some a ∧ fcount a = 0 ∧ dcount a = 0) →
  dir_step cfg level root t (d, walk) = Ok (root, t1).
Proof.
  intros Hlink Henter Hcase. eapply dir_step_pruned; [done | done |].
  unfold dir_pruned. destruct (dpost cfg d1); simpl; [|done].
  destruct Hcase as [?|(-> & a & Ha & Hf & Hd)]; [done|].
  unfold get_agg. rewrite Ha. simpl. by rewrite Hf, Hd.
Qed.

Lemma pruned_directory_contributes_nothing_witness :
  let root := Node_init toy_md5 "r" None (dir_raw "r" 10) in
  let d := Node_init toy_md5 "r/d" (Some "r") (dir_raw "d" 10) in
  let walk := _gather toy_md5 cfg_plain fs_empty_dir in
  ∃ d1 t1,
    is_link d = false ∧
    dir_enter cfg_plain 1 d walk (Tree_init 1) = Ok (d1, t1) ∧
    always_show_dirs cfg_plain = false ∧
    (∃ a, agg d1 = Some a ∧ fcount a = 0 ∧ dcount a = 0) ∧
    dir_step cfg_plain 1 root (Tree_init 1) (d, walk) = Ok (root, t1).
Proof.
  intros root d walk.
  destruct (dir_enter cfg_plain 1 d walk (Tree_init 1)) as [[d1 t1]|] eqn:Henter;
    [|by vm_compute in Henter].
  assert (∃ a, agg d1 = Some a ∧ fcount a = 0 ∧ dcount a = 0) as Hempty.
  { vm_compute in Henter. injection Henter as <- _. by eexists. }
  exists d1, t1. split_and!; [done | done | done | done |].
  apply (pruned_directory_contributes_nothing cfg_plain 1 root (Tree_init 1) d walk d1 t1);
    [done | done |].
  right. by split.
Defined.

(** ** A failing listing *)


(** The walk goes on after the unreadable directory [x]: the file below [y]
    is counted, and one warning was printed. *)
Example listing_failure_example :
  ∃ root t,
    _build toy_md5 cfg_plain "r" fs_denied (Tree_init 1) = Ok (root, t) ∧
    child_paths root = Some ["r/y"] ∧
    (fcount <$> agg root) = Some 1 ∧
    stdout t = [Warning "[Errno 13] Permission denied"].
Proof. eexists _, _. split; [vm_compute; reflexivity|]. done. Qed.

(** ** The walk on a small tree *)

(** Without a mode, the root of [fs_scenario] totals 35 lines and 250
    bytes, and its best line count is 20. *)
Example scenario_plain :
  ∃ root t,
    _build toy_md5 cfg_plain "root" fs_scenario (Tree_init 1) = Ok (root, t) ∧
    child_paths root = Some ["root/a.txt"; "root/b.txt"; "root/sub"] ∧
    (rlines <$> agg root) = Some (Some 35) ∧
    (blines <$> agg root) = Some (Some 20) ∧
    (rsize <$> agg root) = Some 250 ∧
    (fcount <$> agg root) = Some 3 ∧ (dcount <$> agg root) = Some 1.
Proof. eexists _, _. split; [vm_compute; reflexivity|]. done. Qed.

(** Under a top-1 by lines, [a.txt] is offered while the selector is empty:
    it is linked and counted, and stays so after [b.txt] has pushed it out
    of the selector; [c.txt] and [sub] do not pass the gates. *)
Example scenario_top_lines :
  ∃ root t,
    _build toy_md5 (cfg_top m_lines) "root" fs_scenario (Tree_init 1) = Ok (root, t) ∧
    child_paths root = Some ["root/a.txt"; "root/b.txt"] ∧
    held (top_heap t) = [20] ∧
    (path ∘ which <$> _list (top_heap t)) = ["root/b.txt"] ∧
    (rlines <$> agg root) = Some (Some 30) ∧
    (fcount <$> agg root) = Some 2 ∧ (dcount <$> agg root) = Some 0.
Proof. eexists _, _. split; [vm_compute; reflexivity|]. done. Qed.

(** ** The top-mode gates *)



(** A directory that was not listed has no [top_val]: when it is neither
    filtered out nor empty-pruned, the test of the directory loop reads the
    missing attribute and the walk ends on [AttributeError]. *)
Example top_mode_unlisted_directory_raises :
  _build toy_md5 cfg_top_level_1 "r" fs_nested (Tree_init 1)
    = Raise (AttributeError "top_val").
Proof. reflexivity. Qed.


(** ** Aggregation over the children *)

Lemma sum_sizes_snoc (l : list Node) (f : Node) :
  sum_sizes (l ++ [f]) = sum_sizes l + size f.
Proof. induction l as [|c l IH]; simpl; [lia|]. unfold sum_sizes in *. simpl. lia. Qed.

Lemma max_size_snoc (own : Z) (l : list Node) (f : Node) :
  max_size own (l ++ [f]) = Z.max (size f) (max_size own l).
Proof.
  induction l as [|c l IH]; simpl; [lia|]. unfold max_size in *. simpl. lia.
Qed.

Lemma max_of_Some (x y : Z) : Null.max_of (Some x) (Some y) = Some (Z.max x y).
Proof.
  unfold Null.max_of, Null.lt, Null.presence. simpl.
  destruct (Z.ltb_spec x y); f_equal; lia.
Qed.

Section aggregation.
Context (md5_hexdigest : string → string) (cfg : Config).

Lemma children_add_stat n x n1 :
  children_add n x = Ok n1 → stat_of n1 = stat_of n.
Proof. unfold children_add. destruct (children n); intros; by simplify_eq. Qed.

(** One turn of the file loop links the file and adds it to the
    aggregates, or changes nothing. *)
Lemma file_step_result root t f root1 t1 cs a :
  file_step cfg root t f = Ok (root1, t1) →
  children root = Some cs → agg root = Some a →
  stat_of root1 = stat_of root ∧
  (root1 = root ∨
   (children root1 = Some (cs ++ [f]) ∧ agg root1 = Some (agg_file cfg a f))).
Proof.
  intros Hstep Hcs Ha. unfold file_step in Hstep.
  destruct (file_gate cfg root t f) as [[[root0 t0]|]|] eqn:Hgate; simpl in Hstep;
    [| by simplify_eq; auto | done].
  assert (stat_of root0 = stat_of root ∧ children root0 = Some cs ∧ agg root0 = Some a)
    as (Hstat & Hcs0 & Ha0).
  { unfold file_gate in Hgate. destruct (top_mode cfg); [|by simplify_eq].
    destruct (next_to_pop (top_heap t)); simpl in Hgate; [|done].
    destruct (Null.le _ _); [done|].
    destruct (getattr_f f m); simpl in Hgate; [|done].
    destruct (push _ _ _) as [[? ?]|]; simpl in Hgate; [|done].
    destruct (get_top_val root); simpl in Hgate; [|done].
    by simplify_eq. }
  unfold file_link, children_add, get_agg in Hstep. rewrite Hcs0 in Hstep.
  simpl in Hstep. rewrite Ha0 in Hstep. simpl in Hstep.
  injection Hstep as <- <-. split; [exact Hstat|]. by right.
Qed.

Lemma files_loop_result : ∀ fs root t root1 t1 cs a,
  files_loop cfg fs root t = Ok (root1, t1) →
  children root = Some cs → agg root = Some a →
  ∃ linked,
    stat_of root1 = stat_of root ∧
    children root1 = Some (cs ++ linked) ∧
    agg root1 = Some (foldl (agg_file cfg) a linked) ∧
    ∀ f, f ∈ linked → f ∈ fs.
Proof.
  induction fs as [|f fs IH]; intros root t root1 t1 cs a Hloop Hcs Ha.
  - simpl in Hloop. simplify_eq. exists []. rewrite app_nil_r.
    split_and!; try done; intros f Hf; by apply elem_of_nil in Hf.
  - simpl in Hloop.
    destruct (file_step cfg root t f) as [[root0 t0]|] eqn:Hstep; simpl in Hloop; [|done].
    destruct (file_step_result _ _ _ _ _ _ _ Hstep Hcs Ha) as [Hstat [->|[Hcs0 Ha0]]].
    + destruct (IH _ _ _ _ _ _ Hloop Hcs Ha) as (linked & ? & ? & ? & Hin).
      exists linked. split_and!; try done.
      intros g Hg. apply list_elem_of_further. by apply Hin.
    + destruct (IH _ _ _ _ _ _ Hloop Hcs0 Ha0) as (linked & Hs & Hc & Hagg & Hin).
      exists (f :: linked). split_and!.
      * congruence.
      * by rewrite <- app_assoc in Hc.
      * done.
      * intros g [->|Hg]%elem_of_cons; [apply list_elem_of_here|].
        apply list_elem_of_further. by apply Hin.
Qed.

Lemma children_add_children n x n1 cs :
  children_add n x = Ok n1 → children n = Some cs → children n1 = Some (cs ++ [x]).
Proof. unfold children_add. intros H Hc. rewrite Hc in H. by injection H as <-. Qed.

(** The file loop links some of its files, whatever the aggregates are. *)
Lemma children_files_loop : ∀ fs root t root1 t1 cs,
  files_loop cfg fs root t = Ok (root1, t1) →
  children root = Some cs →
  ∃ linked, children root1 = Some (cs ++ linked) ∧ ∀ f, f ∈ linked → f ∈ fs.
Proof.
  induction fs as [|f fs IH]; intros root t root1 t1 cs Hloop Hcs; simpl in Hloop.
  - injection Hloop as <- <-. exists []. rewrite app_nil_r.
    split; [done|]. intros f Hf. by apply elem_of_nil in Hf.
  - destruct (file_step cfg root t f) as [[root0 t0]|] eqn:Hstep; simpl in Hloop; [|done].
    assert (children root0 = Some cs ∨ children root0 = Some (cs ++ [f])) as [Hc0|Hc0].
    { unfold file_step in Hstep.
      destruct (file_gate cfg root t f) as [[[root2 t2]|]|] eqn:Hgate; simpl in Hstep;
        [| injection Hstep as <- <-; by left | done].
      assert (children root2 = Some cs) as Hc2.
      { unfold file_gate in Hgate. destruct (top_mode cfg); [|by injection Hgate as <- <-].
        destruct (next_to_pop (top_heap t)); simpl in Hgate; [|done].
        destruct (Null.le _ _); [done|].
        destruct (getattr_f f m); simpl in Hgate; [|done].
        destruct (push _ _ _) as [[? ?]|]; simpl in Hgate; [|done].
        destruct (get_top_val root); simpl in Hgate; [|done].
        by injection Hgate as <- <-. }
      unfold file_link in Hstep.
      destruct (children_add root2 f) as [root3|] eqn:Hadd; simpl in Hstep; [|done].
      apply (children_add_children _ _ _ cs) in Hadd; [|done].
      destruct (get_agg root3); simpl in Hstep; [|done].
      injection Hstep as <- <-. by right. }
    + destruct (IH _ _ _ _ _ Hloop Hc0) as (linked & Hc & Hin).
      exists linked. split; [done|]. intros g Hg. apply list_elem_of_further. by apply Hin.
    + destruct (IH _ _ _ _ _ Hloop Hc0) as (linked & Hc & Hin).
      exists (f :: linked). split; [by rewrite <- app_assoc in Hc|].
      intros g [->|Hg]%elem_of_cons; [apply list_elem_of_here|].
      apply list_elem_of_further. by apply Hin.
Qed.

Lemma agg_files_sizes (a : Agg) (own : Z) : ∀ linked,
  bsize a = Some own →
  rsize (foldl (agg_file cfg) a linked) = rsize a + sum_sizes linked ∧
  bsize (foldl (agg_file cfg) a linked) = Some (max_size own linked) ∧
  fcount (foldl (agg_file cfg) a linked) = fcount a + Z.of_nat (length linked) ∧
  dcount (foldl (agg_file cfg) a linked) = dcount a.
Proof.
  induction linked as [|f linked IH] using rev_ind; intros Hb.
  - simpl. split_and!; try done; lia.
  - rewrite foldl_snoc, sum_sizes_snoc, max_size_snoc, length_app. simpl.
    destruct (IH Hb) as (-> & -> & -> & ->). rewrite max_of_Some.
    split_and!; try done; lia.
Qed.

(** One turn of the directory loop links one directory, or changes
    nothing. *)
Lemma dir_step_result level root t d walk root1 t1 cs :
  walk_keeps_stat walk →
  dir_step cfg level root t (d, walk) = Ok (root1, t1) →
  children root = Some cs →
  stat_of root1 = stat_of root ∧
  (root1 = root ∨
   ∃ d1, stat_of d1 = stat_of d ∧ children root1 = Some (cs ++ [d1])).
Proof.
  intros Hkeep Hstep Hcs. unfold dir_step in Hstep. simpl in Hstep.
  destruct (is_link d).
  { destruct (always_show_dirs cfg); [|by simplify_eq; auto].
    unfold children_add, get_agg in Hstep. rewrite Hcs in Hstep. simpl in Hstep.
    destruct (agg root); simpl in Hstep; [|done]. injection Hstep as <- <-.
    split; [done|]. right. by exists d. }
  destruct (dir_enter cfg level d walk t) as [[d1 t0]|] eqn:Henter; simpl in Hstep; [|done].
  assert (stat_of d1 = stat_of d) as Hd1.
  { unfold dir_enter in Henter. destruct (level <? access_level cfg).
    - by eapply Hkeep.
    - by simplify_eq. }
  destruct (dir_pruned cfg d1) as [[|]|]; simpl in Hstep; [by simplify_eq; auto | | done].
  destruct (dir_gate cfg root d1 t0) as [[root0|]|] eqn:Hgate; simpl in Hstep;
    [| by simplify_eq; auto | done].
  assert (stat_of root0 = stat_of root ∧ children root0 = Some cs) as [Hstat Hcs0].
  { unfold dir_gate in Hgate. destruct (top_mode cfg); [|by simplify_eq].
    destruct (get_top_val d1); simpl in Hgate; [|done].
    destruct (next_to_pop (top_heap t0)); simpl in Hgate; [|done].
    destruct (Null.lt _ _); [done|].
    destruct (get_top_val root); simpl in Hgate; [|done].
    by simplify_eq. }
  unfold dir_link, children_add, get_agg in Hstep. rewrite Hcs0 in Hstep.
  simpl in Hstep.
  destruct (agg root0); simpl in Hstep; [|done].
  destruct (agg d1); simpl in Hstep; [|done]. injection Hstep as <- <-.
  split; [exact Hstat|]. right. by exists d1.
Qed.

Lemma dirs_loop_result level : ∀ ds root t root1 t1 cs,
  Forall (λ dw, walk_keeps_stat dw.2) ds →
  dirs_loop cfg level ds root t = Ok (root1, t1) →
  children root = Some cs →
  stat_of root1 = stat_of root ∧
  (root1 = root ∨
   ∃ d d1 more, d ∈ ds.*1 ∧ stat_of d1 = stat_of d ∧
     children root1 = Some (cs ++ d1 :: more)).
Proof.
  induction ds as [|[d walk] ds IH]; intros root t root1 t1 cs Hkeep Hloop Hcs.
  - simpl in Hloop. simplify_eq. auto.
  - simpl in Hloop. apply Forall_cons in Hkeep as [Hw Hkeep]. simpl in Hw.
    destruct (dir_step cfg level root t (d, walk)) as [[root0 t0]|] eqn:Hstep;
      simpl in Hloop; [|done].
    destruct (dir_step_result _ _ _ _ _ _ _ _ Hw Hstep Hcs) as [Hstat [->|(d1 & Hd1 & Hcs0)]].
    + destruct (IH _ _ _ _ _ Hkeep Hloop Hcs) as [Hs [->|(d' & d1 & more & Hin & Hd1 & Hc)]];
        [by auto|].
      split; [done|]. right. exists d', d1, more. split_and!; try done.
      rewrite fmap_cons. by apply list_elem_of_further.
    + destruct (IH _ _ _ _ _ Hkeep Hloop Hcs0) as [Hs Hcase].
      split; [congruence|]. right. exists d, d1.
      destruct Hcase as [->|(d' & d2 & more & Hin & Hd2 & Hc)].
      * exists []. split_and!; [rewrite fmap_cons; apply list_elem_of_here | done | done].
      * exists ([d2] ++ more). split_and!;
          [rewrite fmap_cons; apply list_elem_of_here | done |].
        rewrite Hc. by rewrite <- !app_assoc.
Qed.

Lemma file_step_stat root t f root1 t1 :
  file_step cfg root t f = Ok (root1, t1) → stat_of root1 = stat_of root.
Proof.
  intros Hstep. unfold file_step in Hstep.
  destruct (file_gate cfg root t f) as [[[root0 t0]|]|] eqn:Hgate; simpl in Hstep;
    [| by injection Hstep as <- <- | done].
  assert (stat_of root0 = stat_of root) as Hstat.
  { unfold file_gate in Hgate. destruct (top_mode cfg); [|by injection Hgate as <- <-].
    destruct (next_to_pop (top_heap t)); simpl in Hgate; [|done].
    destruct (Null.le _ _); [done|].
    destruct (getattr_f f m); simpl in Hgate; [|done].
    destruct (push _ _ _) as [[? ?]|]; simpl in Hgate; [|done].
    destruct (get_top_val root); simpl in Hgate; [|done].
    by injection Hgate as <- <-. }
  unfold file_link in Hstep.
  destruct (children_add root0 f) as [root2|] eqn:Hadd; simpl in Hstep; [|done].
  apply children_add_stat in Hadd.
  destruct (get_agg root2); simpl in Hstep; [|done].
  injection Hstep as <- <-. change (stat_of root2 = stat_of root). congruence.
Qed.

Lemma files_loop_stat : ∀ fs root t root1 t1,
  files_loop cfg fs root t = Ok (root1, t1) → stat_of root1 = stat_of root.
Proof.
  induction fs as [|f fs IH]; intros root t root1 t1 Hloop; simpl in Hloop.
  - by injection Hloop as <- <-.
  - destruct (file_step cfg root t f) as [[root0 t0]|] eqn:Hstep; simpl in Hloop; [|done].
    apply file_step_stat in Hstep. apply IH in Hloop. congruence.
Qed.

Lemma dir_step_stat level root t dw root1 t1 :
  dir_step cfg level root t dw = Ok (root1, t1) → stat_of root1 = stat_of root.
Proof.
  intros Hstep. unfold dir_step in Hstep.
  destruct (is_link dw.1).
  { destruct (always_show_dirs cfg); [|by injection Hstep as <- <-].
    destruct (children_add root dw.1) as [root2|] eqn:Hadd; simpl in Hstep; [|done].
    apply children_add_stat in Hadd.
    destruct (get_agg root2); simpl in Hstep; [|done].
    injection Hstep as <- <-. change (stat_of root2 = stat_of root). congruence. }
  destruct (dir_enter cfg level dw.1 dw.2 t) as [[d1 t0]|]; simpl in Hstep; [|done].
  destruct (dir_pruned cfg d1) as [[|]|]; simpl in Hstep;
    [by injection Hstep as <- <- | | done].
  destruct (dir_gate cfg root d1 t0) as [[root0|]|] eqn:Hgate; simpl in Hstep;
    [| by injection Hstep as <- <- | done].
  assert (stat_of root0 = stat_of root) as Hstat.
  { unfold dir_gate in Hgate. destruct (top_mode cfg); [|by injection Hgate as <-].
    destruct (get_top_val d1); simpl in Hgate; [|done].
    destruct (next_to_pop (top_heap t0)); simpl in Hgate; [|done].
    destruct (Null.lt _ _); [done|].
    destruct (get_top_val root); simpl in Hgate; [|done].
    by injection Hgate as <-. }
  unfold dir_link in Hstep.
  destruct (children_add root0 d1) as [root2|] eqn:Hadd; simpl in Hstep; [|done].
  apply children_add_stat in Hadd.
  destruct (get_agg root2); simpl in Hstep; [|done].
  destruct (get_agg d1); simpl in Hstep; [|done].
  injection Hstep as <- <-. change (stat_of root2 = stat_of root). congruence.
Qed.

Lemma dirs_loop_stat level : ∀ ds root t root1 t1,
  dirs_loop cfg level ds root t = Ok (root1, t1) → stat_of root1 = stat_of root.
Proof.
  induction ds as [|dw ds IH]; intros root t root1 t1 Hloop; simpl in Hloop.
  - by injection Hloop as <- <-.
  - destruct (dir_step cfg level root t dw) as [[root0 t0]|] eqn:Hstep;
      simpl in Hloop; [|done].
    apply dir_step_stat in Hstep. apply IH in Hloop. congruence.
Qed.

(** [_gather] hands back the node it was given. *)
Lemma _gather_keeps_stat (e : Entry) : walk_keeps_stat (_gather md5_hexdigest cfg e).
Proof.
  intros level root t D t' Hrun. destruct e as [r err entries].
  rewrite _gather_eq in Hrun. cbv zeta in Hrun.
  pose proof (gather_enter_result cfg level root t) as (Hs1 & _).
  destruct (gather_enter cfg level root t) as [root1 t1]. simpl in Hs1.
  cbn [fst snd] in Hrun.
  destruct err; [by injection Hrun as <- <-|].
  destruct (files_loop _ _ _ _) as [[root2 t2]|] eqn:Hfiles; simpl in Hrun; [|done].
  apply files_loop_stat in Hfiles. apply dirs_loop_stat in Hrun. congruence.
Qed.
End aggregation.

(** ** Without a top-mode the walk raises nothing *)

Section walk_total.
Context (md5_hexdigest : string → string) (cfg : Config).
Hypothesis no_top : top_mode cfg = None.

Lemma file_step_total root t f cs a :
  children root = Some cs → agg root = Some a →
  ∃ root1 t1, file_step cfg root t f = Ok (root1, t1) ∧
    children root1 = Some (cs ++ [f]) ∧ agg root1 = Some (agg_file cfg a f).
Proof.
  intros Hcs Ha. unfold file_step, file_gate. rewrite no_top. simpl.
  unfold file_link, children_add, get_agg. rewrite Hcs. simpl. rewrite Ha. simpl.
  by eexists _, _.
Qed.

Lemma files_loop_total : ∀ fs root t cs a,
  children root = Some cs → agg root = Some a →
  ∃ root1 t1, files_loop cfg fs root t = Ok (root1, t1) ∧
    children root1 = Some (cs ++ fs) ∧ agg root1 = Some (foldl (agg_file cfg) a fs).
Proof.
  induction fs as [|f fs IH]; intros root t cs a Hcs Ha.
  - exists root, t. by rewrite app_nil_r.
  - destruct (file_step_total root t f cs a Hcs Ha) as (root0 & t0 & Hstep & Hc0 & Ha0).
    destruct (IH root0 t0 _ _ Hc0 Ha0) as (root1 & t1 & Hloop & Hc1 & Ha1).
    exists root1, t1. simpl. rewrite Hstep. simpl. rewrite Hloop.
    split; [done|]. by rewrite <- app_assoc in Hc1.
Qed.

Lemma dir_step_total level root t d walk cs a :
  (is_link d = false → children d = Some []) → walk_total walk →
  children root = Some cs → agg root = Some a →
  ∃ root1 t1, dir_step cfg level root t (d, walk) = Ok (root1, t1) ∧
    is_Some (children root1) ∧ is_Some (agg root1).
Proof.
  intros Hfresh Hwalk Hcs Ha. unfold dir_step. simpl.
  destruct (is_link d).
  { destruct (always_show_dirs cfg); [|by eexists _, _].
    unfold children_add, get_agg. rewrite Hcs. simpl. rewrite Ha. simpl.
    by eexists _, _. }
  specialize (Hfresh eq_refl).
  assert (∃ d1 t1, dir_enter cfg level d walk t = Ok (d1, t1) ∧ is_Some (agg d1))
    as (d1 & t1 & -> & [da Hda]).
  { unfold dir_enter. destruct (level <? access_level cfg).
    - by apply Hwalk.
    - by eexists _, _. }
  simpl. unfold dir_pruned, dir_gate, get_agg. rewrite no_top, Hda.
  destruct (dpost cfg d1); simpl; [|by eexists _, _].
  assert (∃ root1, (dir_link root d1 ≫= λ root2, Ok (root2, t1)) = Ok (root1, t1) ∧
            is_Some (children root1) ∧ is_Some (agg root1)) as Hlink.
  { unfold dir_link, children_add, get_agg. rewrite Hcs. simpl. rewrite Ha, Hda. simpl.
    by eexists. }
  destruct Hlink as (root1 & Hlink & ? & ?).
  destruct (always_show_dirs cfg); simpl.
  - rewrite Hlink. by eexists _, _.
  - destruct ((fcount da =? 0) && (dcount da =? 0)); simpl; [by eexists _, _|].
    rewrite Hlink. by eexists _, _.
Qed.

Lemma dirs_loop_total level : ∀ ds root t cs a,
  Forall (λ dw : Node * Walk,
            (is_link dw.1 = false → children dw.1 = Some []) ∧ walk_total dw.2) ds →
  children root = Some cs → agg root = Some a →
  ∃ root1 t1, dirs_loop cfg level ds root t = Ok (root1, t1) ∧
    is_Some (children root1) ∧ is_Some (agg root1).
Proof.
  induction ds as [|[d walk] ds IH]; intros root t cs a Hall Hcs Ha.
  - by exists root, t.
  - apply Forall_cons in Hall as [[Hfresh Hwalk] Hall]. simpl in Hfresh, Hwalk.
    destruct (dir_step_total level root t d walk cs a Hfresh Hwalk Hcs Ha)
      as (root0 & t0 & Hstep & [cs0 Hc0] & [a0 Ha0]).
    destruct (IH root0 t0 cs0 a0 Hall Hc0 Ha0) as (root1 & t1 & Hloop & ? & ?).
    exists root1, t1. simpl. rewrite Hstep. simpl. by rewrite Hloop.
Qed.

(** Started on a node that has a set of children, the walk returns. *)
Lemma _gather_total : ∀ e level root t cs,
  children root = Some cs →
  ∃ D t', _gather md5_hexdigest cfg e level root t = Ok (D, t') ∧
    is_Some (agg D) ∧ is_Some (children D).
Proof.
  induction e as [r err entries IH] using Entry_nested_ind.
  intros level root t cs Hcs. rewrite _gather_eq. cbv zeta.
  pose proof (gather_enter_result cfg level root t) as (_ & Hc1 & Ha1).
  destruct (gather_enter cfg level root t) as [root1 t1]. cbn [fst snd] in *.
  rewrite Hcs in Hc1.
  destruct err as [message|]; [by eexists _, _|].
  match goal with |- context [files_loop cfg ?fs root1 t1] =>
    destruct (files_loop_total fs root1 t1 _ _ Hc1 Ha1) as (root2 & t2 & -> & Hc2 & Ha2)
  end.
  simpl.
  match goal with |- context [dirs_loop cfg level ?ds root2 t2] =>
    destruct (λ H, dirs_loop_total level ds root2 t2 _ _ H Hc2 Ha2)
      as (D & t' & -> & ? & ?); [| by exists D, t']
  end.
  apply Forall_forall. intros [d w] [Hp Hin]%list_elem_of_filter.
  apply list_elem_of_fmap in Hin as (x & Heq & Hx). injection Heq as -> ->.
  apply andb_prop_elim in Hp as [Hp _]. cbn [fst snd] in *. split.
  - intros Hlink. apply Node_init_dir; [by destruct (is_to_dir _) | done].
  - intros lv d t0 Hd. rewrite Forall_forall in IH.
    destruct (IH x Hx lv d t0 [] Hd) as (D & t' & Hrun & Hagg & _).
    by exists D, t'.
Qed.
End walk_total.

(** A directory of 4096 bytes with one file of 10 bytes: the total is 4106
    and the best is 4096, neither is 10; the same directory without the file
    has 4096 for both, not [None]. *)
Lemma aggregates_include_own_size :
  (∃ D c t,
     _build toy_md5 cfg_plain "d" fs_one_file (Tree_init 1) = Ok (D, t) ∧
     children D = Some [c] ∧ is_file c = true ∧ size c = 10 ∧
     (rsize <$> agg D) = Some 4106 ∧ (bsize <$> agg D) = Some (Some 4096) ∧
     (rsize <$> agg D) ≠ Some (sum_sizes [c]) ∧
     (bsize <$> agg D) ≠ Some (Some (size c))) ∧
  (∃ D t,
     _build toy_md5 cfg_plain "d" fs_empty_dir (Tree_init 1) = Ok (D, t) ∧
     children D = Some [] ∧
     (rsize <$> agg D) = Some 4096 ∧ (bsize <$> agg D) = Some (Some 4096) ∧
     (bsize <$> agg D) ≠ Some None).
Proof.
  split.
  - eexists _, _, _. split; [vm_compute; reflexivity|].
    split_and!; try done; vm_compute; congruence.
  - eexists _, _. split; [vm_compute; reflexivity|]. done.
Qed.

(** C2, as the code has it.  When [_gather] has walked a directory [D] and
    every child linked to [D] is a file (not a directory, not a link to
    one), [D]'s total size is its own size plus the sum of its children's
    sizes and its best size is the largest of its own size and its
    children's sizes; without children both are [D]'s own size.  Without a
    top-mode the walk always returns. *)
Theorem aggregation_over_file_children (md5_hexdigest : string → string)
    (cfg : Config) (e : Entry) (level : Z) (root : Node) (t : Tree) :
  children root = Some [] →
  (top_mode cfg = None →
     ∃ D t', _gather md5_hexdigest cfg e level root t = Ok (D, t')) ∧
  (∀ D t' cs,
     _gather md5_hexdigest cfg e level root t = Ok (D, t') →
     children D = Some cs →
     (∀ c, c ∈ cs → is_to_dir c = false) →
     ∃ a, agg D = Some a ∧
       rsize a = size D + sum_sizes cs ∧
       bsize a = Some (max_size (size D) cs) ∧
       fcount a = Z.of_nat (length cs) ∧ dcount a = 0 ∧
       (cs = [] → rsize a = size D ∧ bsize a = Some (size D))).
Proof.
  intros Hfresh. split.
  { intros Hno.
    destruct (_gather_total md5_hexdigest cfg Hno e level root t [] Hfresh)
      as (D & t' & Hrun & _).
    by exists D, t'. }
  intros D t' cs Hrun Hcs Hfiles.
  pose proof (_gather_keeps_stat md5_hexdigest cfg e level root t D t' Hrun) as Hstat.
  assert (size D = size root) as Hsize by (by injection Hstat).
  revert Hrun. destruct e as [r err entries].
  rewrite _gather_eq. cbv zeta.
  pose proof (gather_enter_result cfg level root t) as (Hs1 & Hc1 & Ha1).
  destruct (gather_enter cfg level root t) as [root1 t1].
  simpl in Hs1, Hc1, Ha1. rewrite Hfresh in Hc1. cbn [fst snd].
  destruct err as [message|].
  { intros Hrun. injection Hrun as <- <-. exists (own_agg root).
    assert (cs = []) as -> by congruence. rewrite Hsize. simpl.
    split_and!; try done; lia. }
  intros Hrun.
  destruct (files_loop _ _ _ _) as [[root2 t2]|] eqn:Hfl; simpl in Hrun; [|done].
  destruct (files_loop_result _ _ _ _ _ _ _ _ Hfl Hc1 Ha1) as (linked & Hs2 & Hc2 & Ha2 & _).
  simpl in Hc2.
  match type of Hrun with dirs_loop _ _ ?ds _ _ = _ => set (d_nodes := ds) in * end.
  assert (Forall (λ dw : Node * Walk, walk_keeps_stat dw.2) d_nodes) as Hkeep.
  { apply Forall_forall. intros [d w] [_ Hin]%list_elem_of_filter.
    apply list_elem_of_fmap in Hin as (x & Heq & _). injection Heq as -> ->.
    apply _gather_keeps_stat. }
  destruct (dirs_loop_result cfg level _ _ _ _ _ _ Hkeep Hrun Hc2)
    as [_ [->|(d & d1 & more & Hin & Hd1 & Hc)]].
  - assert (cs = linked) as -> by congruence.
    exists (foldl (agg_file cfg) (own_agg root) linked).
    destruct (agg_files_sizes cfg (own_agg root) (size root) linked eq_refl)
      as (Hr & Hb & Hf & Hd).
    rewrite Hsize, Hr, Hb, Hf, Hd. simpl.
    split_and!; [done | done | done | lia | done |].
    intros ->. simpl. split; [lia | done].
  - exfalso.
    assert (is_to_dir d1 = true) as Hdir.
    { assert (is_to_dir d1 = is_to_dir d) as -> by (by injection Hd1).
      apply list_elem_of_fmap in Hin as ([d' w] & -> & Hin).
      apply list_elem_of_filter in Hin as [Hp _]. simpl in *.
      by destruct (is_to_dir d'). }
    rewrite (Hfiles d1) in Hdir; [done|].
    assert (cs = linked ++ d1 :: more) as -> by congruence.
    apply elem_of_app. right. apply list_elem_of_here.
Qed.

Lemma aggregation_over_file_children_witness :
  let root := Node_init toy_md5 "d" None (dir_raw "d" 4096) in
  let c := Node_init toy_md5 "d/a" (Some "d") (file_raw "a" 10 1 "0123456789") in
  children root = Some [] ∧
  ∃ D t' a,
    _gather toy_md5 cfg_plain fs_one_file 1 root (Tree_init 1) = Ok (D, t') ∧
    children D = Some [c] ∧
    (∀ x, x ∈ [c] → is_to_dir x = false) ∧
    agg D = Some a ∧ rsize a = 4096 + 10 ∧ bsize a = Some 4096.
Proof.
  intros root c. split; [done|].
  destruct (aggregation_over_file_children toy_md5 cfg_plain fs_one_file 1 root
              (Tree_init 1) eq_refl) as [Htotal Hagg].
  destruct (Htotal eq_refl) as (D & t' & Hrun).
  assert (children D = Some [c]) as Hcs.
  { vm_compute in Hrun. injection Hrun as <- _. reflexivity. }
  assert (∀ x, x ∈ [c] → is_to_dir x = false) as Hfiles.
  { intros x Hx. apply list_elem_of_singleton in Hx as ->. reflexivity. }
  destruct (Hagg D t' [c] Hrun Hcs Hfiles) as (a & Ha & Hr & Hb & _).
  exists D, t', a. split_and!; try done.
  - rewrite Hr. vm_compute in Hrun. injection Hrun as <- _. reflexivity.
  - rewrite Hb. vm_compute in Hrun. injection Hrun as <- _. reflexivity.
Defined.

(** ** The duplicate grouper *)

Section grouper.
Context (cfg : Config).

Lemma group_snoc_other h fs f :
  md5 f ≠ Some h → group cfg h (fs ++ [f]) = group cfg h fs.
Proof.
  intros Hne. unfold group. destruct (_ && _); [done|].
  rewrite filter_app. simpl. rewrite filter_cons_False by done.
  by rewrite filter_nil, app_nil_r.
Qed.

Lemma group_snoc_same h fs f :
  md5 f = Some h →
  (String.eqb h EMPTY_FILE_MD5_HASH && dup_nonempty cfg) = false →
  group cfg h (fs ++ [f]) = group cfg h fs ++ [f].
Proof.
  intros Heq Hrec. unfold group. rewrite Hrec.
  rewrite filter_app. simpl. by rewrite filter_cons_True by done.
Qed.

Lemma dup_record_inv fs t f :
  dup_inv cfg fs t → dup_inv cfg (fs ++ [f]) (dup_record cfg f t).
Proof.
  intros Hinv h Hh. destruct (Hinv h Hh) as [Hmap Hset].
  unfold dup_record.
  destruct (decide (md5 f = Some h)) as [Heq|Hne]; cycle 1.
  { (* a file of another hash leaves the group of [h] alone *)
    rewrite group_snoc_other by done.
    destruct (negb _ || negb _); [|done].
    destruct (md5 f) as [c|] eqn:Hc; cycle 1.
    { simpl. by rewrite lookup_insert_ne. }
    assert (h ≠ c) by congruence.
    destruct (dup_map t !! Some c) as [l|]; [destruct (truthy (Some c))|]; simpl;
      rewrite lookup_insert_ne by congruence; (split; [done|]);
      rewrite ?Hset; try done.
    rewrite elem_of_union, elem_of_singleton. rewrite Hset.
    split; [by intros [?|?] | by right]. }
  rewrite Heq.
  destruct (String.eqb h EMPTY_FILE_MD5_HASH && dup_nonempty cfg) eqn:Hrec.
  { (* the sentinel while empty files are excluded: nothing is recorded *)
    apply andb_true_iff in Hrec as [->%String.eqb_eq Hn]. rewrite Hn.
    rewrite bool_decide_eq_true_2 by done. simpl.
    unfold group in *. simpl in *. by rewrite Hn in *. }
  rewrite group_snoc_same by done.
  assert ((negb (bool_decide (Some h = Some EMPTY_FILE_MD5_HASH))
           || negb (dup_nonempty cfg)) = true) as ->.
  { apply andb_false_iff in Hrec as [Hs| ->]; [|by rewrite orb_true_r].
    apply String.eqb_neq in Hs. rewrite bool_decide_eq_false_2 by congruence. done. }
  assert (truthy (Some h) = true) as Htruthy.
  { simpl. apply negb_true_iff. by apply String.eqb_neq. }
  rewrite Hmap. destruct (group cfg h fs) as [|g0 g] eqn:Hg.
  - simpl. rewrite lookup_insert_eq. split; [done|].
    rewrite Hset. simpl. lia.
  - rewrite Htruthy. simpl. rewrite lookup_insert_eq. split; [done|].
    rewrite elem_of_union, elem_of_singleton. rewrite length_app. simpl.
    split; [lia | by left].
Qed.

Lemma record_all_inv : ∀ fs0 fs t,
  dup_inv cfg fs0 t → dup_inv cfg (fs0 ++ fs) (record_all cfg fs t).
Proof.
  intros fs0 fs. revert fs0.
  induction fs as [|f fs IH]; intros fs0 t Hinv.
  - by rewrite app_nil_r.
  - unfold record_all. simpl. replace (fs0 ++ f :: fs) with ((fs0 ++ [f]) ++ fs)
      by (by rewrite <- app_assoc).
    apply IH. by apply dup_record_inv.
Qed.

Lemma dup_inv_empty t :
  dup_map t = ∅ → dup_set t = ∅ → dup_inv cfg [] t.
Proof.
  intros Hm Hs h _. rewrite Hm, Hs, lookup_empty.
  unfold group. destruct (_ && _); simpl; (split; [done|]);
    rewrite elem_of_empty; lia.
Qed.
End grouper.

Section grouper_walk.
Context (md5_hexdigest : string → string) (cfg : Config).
Hypothesis no_top : top_mode cfg = None.

#[local] Instance dup_eq_equiv : Equivalence dup_eq.
Proof.
  split.
  - by intros t.
  - intros t t' [H1 H2]. by split.
  - intros t1 t2 t3 [H1 H2] [H3 H4]. split; congruence.
Qed.

Lemma dup_record_dup_eq f t t' :
  dup_eq t t' → dup_eq (dup_record cfg f t) (dup_record cfg f t').
Proof.
  intros [Hm Hs]. unfold dup_record. rewrite Hm.
  destruct (negb _ || negb _); [|done].
  destruct (md5 f) as [c|]; [|by split; simpl; rewrite ?Hm, ?Hs].
  destruct (dup_map t' !! Some c); [destruct (truthy (Some c))|];
    split; simpl; by rewrite ?Hm, ?Hs.
Qed.

Lemma record_all_dup_eq fs : ∀ t t',
  dup_eq t t' → dup_eq (record_all cfg fs t) (record_all cfg fs t').
Proof.
  induction fs as [|f fs IH]; intros t t' Heq; [done|].
  apply IH. by apply dup_record_dup_eq.
Qed.

Lemma record_all_app fs1 fs2 t :
  record_all cfg (fs1 ++ fs2) t = record_all cfg fs2 (record_all cfg fs1 t).
Proof. unfold record_all. by rewrite foldl_app. Qed.

Lemma files_loop_dup : ∀ fs root t root1 t1,
  files_loop cfg fs root t = Ok (root1, t1) →
  t1 = if dup_mode cfg then record_all cfg fs t else t.
Proof.
  induction fs as [|f fs IH]; intros root t root1 t1 Hloop; simpl in Hloop.
  - injection Hloop as <- <-. by destruct (dup_mode cfg).
  - unfold file_step, file_gate in Hloop. rewrite no_top in Hloop. simpl in Hloop.
    unfold file_link in Hloop.
    destruct (children_add root f); simpl in Hloop; [|done].
    destruct (get_agg a); simpl in Hloop; [|done].
    apply IH in Hloop. rewrite Hloop. by destruct (dup_mode cfg).
Qed.

(** The state a directory's turn of the loop leaves is the state its walk
    left, or the one it found. *)
Lemma dir_step_state level root t d walk root1 t1 :
  dir_step cfg level root t (d, walk) = Ok (root1, t1) →
  if is_link d then t1 = t
  else if level <? access_level cfg
       then ∃ d1, walk (level + 1) d t = Ok (d1, t1)
       else t1 = t.
Proof.
  unfold dir_step. simpl. destruct (is_link d).
  { destruct (always_show_dirs cfg); [|by intros [= <- <-]].
    destruct (children_add root d); simpl; [|done].
    destruct (get_agg a); simpl; [|done]. by intros [= <- <-]. }
  unfold dir_enter.
  destruct (level <? access_level cfg).
  - destruct (walk (level + 1) d t) as [[d1 t0]|]; simpl; [|done].
    intros Hstep. exists d1. f_equal. f_equal.
    destruct (dir_pruned cfg d1) as [[|]|]; simpl in Hstep; [by injection Hstep | | done].
    destruct (dir_gate cfg root d1 t0) as [[root0|]|]; simpl in Hstep;
      [| by injection Hstep | done].
    destruct (dir_link root0 d1); simpl in Hstep; [|done]. by injection Hstep.
  - simpl. intros Hstep.
    destruct (dir_pruned cfg (truncate d)) as [[|]|]; simpl in Hstep;
      [by injection Hstep | | done].
    destruct (dir_gate cfg root (truncate d) t) as [[root0|]|]; simpl in Hstep;
      [| by injection Hstep | done].
    destruct (dir_link root0 (truncate d)); simpl in Hstep; [|done].
    by injection Hstep.
Qed.

Lemma dirs_loop_dup level (p : string) : ∀ entries root t root1 t1,
  Forall (walk_records md5_hexdigest cfg) entries →
  dirs_loop cfg level
    (filter (λ nw : Node * Walk, is_to_dir nw.1 && dpred cfg nw.1)
       (map (λ x, (Node_init md5_hexdigest (path_join p (d_name (raw_of x)))
                     (Some p) (raw_of x),
                   _gather md5_hexdigest cfg x)) entries)) root t
    = Ok (root1, t1) →
  dup_eq t1
    (if dup_mode cfg then
       record_all cfg
         (concat
            (map (λ nv : Node * (Z → string → list Node),
                    if is_link nv.1 then []
                    else if level <? access_level cfg
                         then nv.2 (level + 1) (path nv.1) else [])
               (filter (λ nv, is_to_dir nv.1 && dpred cfg nv.1)
                  (map (λ x, (Node_init md5_hexdigest
                                (path_join p (d_name (raw_of x))) (Some p) (raw_of x),
                              visited_files md5_hexdigest cfg x)) entries)))) t
     else t).
Proof.
  induction entries as [|x entries IH]; intros root t root1 t1 Hall Hloop.
  - simpl in Hloop. injection Hloop as <- <-. by destruct (dup_mode cfg).
  - apply Forall_cons in Hall as [Hx Hall].
    rewrite !map_cons in *. rewrite !filter_cons in *. cbn [fst snd] in *.
    set (d := Node_init md5_hexdigest (path_join p (d_name (raw_of x))) (Some p) (raw_of x)) in *.
    destruct (decide (is_to_dir d && dpred cfg d)) as [Hd|Hd]; [|by eapply IH].
    cbn [dirs_loop] in Hloop.
    destruct (dir_step cfg level root t (d, _gather md5_hexdigest cfg x))
      as [[root0 t0]|] eqn:Hstep; simpl in Hloop; [|done].
    apply dir_step_state in Hstep.
    specialize (IH _ _ _ _ Hall Hloop).
    rewrite map_cons, concat_cons. cbn [fst snd].
    destruct (dup_mode cfg) eqn:Hdup.
    + rewrite record_all_app. etrans; [exact IH|]. apply record_all_dup_eq.
      destruct (is_link d); [by subst|].
      destruct (level <? access_level cfg); [|by subst].
      destruct Hstep as [d1 Hwalk]. apply Hx in Hwalk. by rewrite Hdup in Hwalk.
    + etrans; [exact IH|].
      destruct (is_link d); [by subst|].
      destruct (level <? access_level cfg); [|by subst].
      destruct Hstep as [d1 Hwalk]. apply Hx in Hwalk. by rewrite Hdup in Hwalk.
Qed.

Lemma visited_files_eq r entries level p :
  visited_files md5_hexdigest cfg (mkEntry r None entries) level p =
    filter (λ n, negb (is_to_dir n) && fpred cfg n)
      (map (λ x, Node_init md5_hexdigest (path_join p (d_name (raw_of x)))
                   (Some p) (raw_of x)) entries) ++
    concat
      (map (λ nv : Node * (Z → string → list Node),
              if is_link nv.1 then []
              else if level <? access_level cfg
                   then nv.2 (level + 1) (path nv.1) else [])
         (filter (λ nv, is_to_dir nv.1 && dpred cfg nv.1)
            (map (λ x, (Node_init md5_hexdigest (path_join p (d_name (raw_of x)))
                          (Some p) (raw_of x),
                        visited_files md5_hexdigest cfg x)) entries))).
Proof. simpl. by rewrite fst_map_pair. Qed.

Lemma gather_enter_dup level root t :
  dup_eq (gather_enter cfg level root t).2 t ∧
  path (gather_enter cfg level root t).1 = path root.
Proof. unfold gather_enter. rewrite no_top. by destruct (no_progress cfg). Qed.

(** The grouper after a walk is the grouper after the files it visited. *)
Lemma _gather_records : ∀ e, walk_records md5_hexdigest cfg e.
Proof.
  apply Entry_nested_ind. intros r err entries IH level root t D t' Hrun.
  rewrite _gather_eq in Hrun. cbv zeta in Hrun.
  destruct (gather_enter_dup level root t) as [Heq Hpath].
  destruct (gather_enter cfg level root t) as [root1 t1]. cbn [fst snd] in *.
  destruct err as [message|].
  { injection Hrun as <- <-. simpl.
    assert (dup_eq (warning_print cfg t1 message) t) as Hw.
    { unfold warning_print. by destruct (WARNINGS_ON cfg). }
    by destruct (dup_mode cfg). }
  destruct (files_loop _ _ _ _) as [[root2 t2]|] eqn:Hfl; simpl in Hrun; [|done].
  apply files_loop_dup in Hfl.
  apply (dirs_loop_dup level (path root1)) in Hrun; [|done].
  rewrite visited_files_eq. rewrite Hpath in *.
  destruct (dup_mode cfg).
  - rewrite record_all_app. etrans; [exact Hrun|]. apply record_all_dup_eq.
    subst t2. by apply record_all_dup_eq.
  - etrans; [exact Hrun|]. by subst.
Qed.
End grouper_walk.

(** With empty files excluded from duplicates, the two empty files of
    [fs_copies] are visited and carry the sentinel hash, yet the map has no
    entry for the sentinel: the group is not tracked. *)
Lemma empty_files_untracked_when_excluded :
  ∃ root t e1 e2 rest,
    _build toy_md5 (cfg_dup true) "r" fs_copies (Tree_init 1) = Ok (root, t) ∧
    children root = Some (e1 :: e2 :: rest) ∧
    path e1 = "r/e1" ∧ path e2 = "r/e2" ∧
    md5 e1 = Some EMPTY_FILE_MD5_HASH ∧ md5 e2 = Some EMPTY_FILE_MD5_HASH ∧
    dup_map t !! Some EMPTY_FILE_MD5_HASH = None.
Proof.
  eexists _, _, _, _, _. split; [vm_compute; reflexivity|].
  split_and!; reflexivity.
Qed.

(** C6, as the code has it.  After a walk in duplicate mode that started
    with an empty grouper, with [fs] the files visited: every hash is mapped
    to the visited files that have it, in the order of the visit, so two
    files of one hash are under the same key; the sentinel of empty files
    is such a key only while empty files are not excluded, and when they are
    excluded it is in neither the map nor the set; a hash is in the set of
    duplicates exactly when two nodes at least are recorded under it, and it
    enters when the duplicate block meets a hash already in the map; a file
    that alone has its hash is never in the set.  Files of the same
    readable bytes get the same checksum, and that of no bytes is the
    sentinel. *)
Theorem duplicate_grouping (md5_hexdigest : string → string) (cfg : Config)
    (e : Entry) (level : Z) (root : Node) (t : Tree) (cs : list Node) :
  top_mode cfg = None → dup_mode cfg = true →
  dup_map t = ∅ → dup_set t = ∅ → children root = Some cs →
  ∃ D t',
    _gather md5_hexdigest cfg e level root t = Ok (D, t') ∧
    let fs := visited_files md5_hexdigest cfg e level (path root) in
    (∀ h, h ≠ "" →
       dup_map t' !! Some h = match group cfg h fs with [] => None | g => Some g end) ∧
    (∀ f1 f2 h, f1 ∈ fs → f2 ∈ fs → md5 f1 = Some h → md5 f2 = Some h → h ≠ "" →
       h ≠ EMPTY_FILE_MD5_HASH ∨ dup_nonempty cfg = false →
       ∃ g, dup_map t' !! Some h = Some g ∧ f1 ∈ g ∧ f2 ∈ g) ∧
    (∀ h, h ≠ "" → h ∈ dup_set t' ↔ (2 ≤ length (group cfg h fs))%nat) ∧
    (∀ f h, h ≠ "" → filter (λ f', md5 f' = Some h) fs = [f] → h ∉ dup_set t') ∧
    (dup_nonempty cfg = true →
       dup_map t' !! Some EMPTY_FILE_MD5_HASH = None ∧
       EMPTY_FILE_MD5_HASH ∉ dup_set t') ∧
    (∀ s f h, md5 f = Some h → h ≠ "" →
       h ≠ EMPTY_FILE_MD5_HASH ∨ dup_nonempty cfg = false →
       dup_set (dup_record cfg f s) =
         if bool_decide (is_Some (dup_map s !! Some h)) then {[h]} ∪ dup_set s
         else dup_set s) ∧
    (∀ r1 r2 bytes, read_bytes r1 = Some bytes → read_bytes r2 = Some bytes →
       compute_md5 md5_hexdigest r1 = compute_md5 md5_hexdigest r2) ∧
    (md5_hexdigest "" = EMPTY_FILE_MD5_ORIG →
       ∀ r, read_bytes r = Some "" →
         compute_md5 md5_hexdigest r = Some EMPTY_FILE_MD5_HASH).
Proof.
  intros Hno Hdup Hm Hs Hcs.
  destruct (_gather_total md5_hexdigest cfg Hno e level root t cs Hcs)
    as (D & t' & Hrun & _).
  exists D, t'. split; [done|]. intros fs.
  pose proof (_gather_records md5_hexdigest cfg Hno e level root t D t' Hrun) as [Hem Hes].
  rewrite Hdup in Hem, Hes. fold fs in Hem, Hes.
  pose proof (record_all_inv cfg [] fs t (dup_inv_empty cfg t Hm Hs)) as Hinv.
  simpl in Hinv. rewrite Hem, Hes.
  assert (∀ h, (String.eqb h EMPTY_FILE_MD5_HASH && dup_nonempty cfg) = false ↔
               (h ≠ EMPTY_FILE_MD5_HASH ∨ dup_nonempty cfg = false)) as Hrec.
  { intros h. rewrite andb_false_iff, String.eqb_neq. done. }
  split_and!.
  - intros h Hh. by apply Hinv.
  - intros f1 f2 h H1 H2 Hm1 Hm2 Hh Hr. apply Hrec in Hr.
    destruct (Hinv h Hh) as [-> _]. unfold group. rewrite Hr.
    assert (f1 ∈ filter (λ f, md5 f = Some h) fs) as Hf1 by (by apply list_elem_of_filter).
    assert (f2 ∈ filter (λ f, md5 f = Some h) fs) as Hf2 by (by apply list_elem_of_filter).
    destruct (filter (λ f, md5 f = Some h) fs) as [|g0 g]; [by apply elem_of_nil in Hf1|].
    by eexists.
  - intros h Hh. by apply Hinv.
  - intros f h Hh Honly. destruct (Hinv h Hh) as [_ ->]. unfold group.
    destruct (_ && _); [simpl; lia|]. rewrite Honly. simpl. lia.
  - intros Hne. assert (EMPTY_FILE_MD5_HASH ≠ "") as Hh by done.
    destruct (Hinv _ Hh) as [-> ->]. unfold group. rewrite Hne. simpl. split; [done|lia].
  - intros s f h Hf Hh Hr. apply Hrec in Hr. unfold dup_record. rewrite Hf.
    assert ((negb (bool_decide (Some h = Some EMPTY_FILE_MD5_HASH))
             || negb (dup_nonempty cfg)) = true) as ->.
    { apply andb_false_iff in Hr as [Hne| ->]; [|by rewrite orb_true_r].
      apply String.eqb_neq in Hne. by rewrite bool_decide_eq_false_2 by congruence. }
    assert (truthy (Some h) = true) as ->.
    { simpl. apply negb_true_iff. by apply String.eqb_neq. }
    by destruct (dup_map s !! Some h).
  - intros r1 r2 bytes H1 H2. unfold compute_md5. by rewrite H1, H2.
  - intros Hempty r Hr. unfold compute_md5. rewrite Hr, Hempty. done.
Qed.

Lemma duplicate_grouping_witness :
  let root := Node_init toy_md5 "r" None (dir_raw "r" 0) in
  let h1 := Node_init toy_md5 "r/h1" (Some "r") (file_raw "h1" 5 1 "hello") in
  let h2 := Node_init toy_md5 "r/h2" (Some "r") (file_raw "h2" 5 1 "hello") in
  top_mode (cfg_dup false) = None ∧ dup_mode (cfg_dup false) = true ∧
  dup_map (Tree_init 1) = ∅ ∧ dup_set (Tree_init 1) = ∅ ∧
  children root = Some [] ∧
  ∃ D t',
    _gather toy_md5 (cfg_dup false) fs_copies 1 root (Tree_init 1) = Ok (D, t') ∧
    (∃ g, dup_map t' !! Some "md5 of hello" = Some g ∧ h1 ∈ g ∧ h2 ∈ g) ∧
    ("md5 of hello" ∈ dup_set t' ↔
       (2 ≤ length (group (cfg_dup false) "md5 of hello"
                      (visited_files toy_md5 (cfg_dup false) fs_copies 1 "r")))%nat).
Proof.
  intros root h1 h2. split_and!; try reflexivity.
  destruct (duplicate_grouping toy_md5 (cfg_dup false) fs_copies 1 root (Tree_init 1)
              [] eq_refl eq_refl eq_refl eq_refl eq_refl)
    as (D & t' & Hrun & _ & Hsame & Hset & _).
  exists D, t'. split_and!; [done | |].
  - apply (Hsame h1 h2 "md5 of hello"); try done.
    + vm_compute. apply list_elem_of_In. simpl. tauto.
    + vm_compute. apply list_elem_of_In. simpl. tauto.
    + by left.
  - by apply Hset.
Defined.

(** ** The depth limit in the tree that was built *)

Section depth_limit.
Context (md5_hexdigest : string → string) (cfg : Config).

Lemma dir_step_children level root t d walk root1 t1 cs :
  dir_step cfg level root t (d, walk) = Ok (root1, t1) →
  children root = Some cs →
  children root1 = Some cs ∨
  ∃ d1, children root1 = Some (cs ++ [d1]) ∧
    linked_from cfg level [(d, walk)] d1.
Proof.
  intros Hstep Hcs. unfold dir_step in Hstep. simpl in Hstep.
  destruct (is_link d) eqn:Hlink.
  { destruct (always_show_dirs cfg); [|injection Hstep as <- <-; by left].
    unfold children_add, get_agg in Hstep. rewrite Hcs in Hstep. simpl in Hstep.
    destruct (agg root); simpl in Hstep; [|done]. injection Hstep as <- <-.
    right. exists d. split; [done|]. exists d, walk.
    split; [apply list_elem_of_here | by left]. }
  destruct (dir_enter cfg level d walk t) as [[d1 t0]|] eqn:Henter; simpl in Hstep; [|done].
  destruct (dir_pruned cfg d1) as [[|]|]; simpl in Hstep;
    [injection Hstep as <- <-; by left | | done].
  destruct (dir_gate cfg root d1 t0) as [[root0|]|] eqn:Hgate; simpl in Hstep;
    [| injection Hstep as <- <-; by left | done].
  assert (children root0 = Some cs) as Hcs0.
  { unfold dir_gate in Hgate. destruct (top_mode cfg); [|by injection Hgate as <-].
    destruct (get_top_val d1); simpl in Hgate; [|done].
    destruct (next_to_pop (top_heap t0)); simpl in Hgate; [|done].
    destruct (Null.lt _ _); [done|].
    destruct (get_top_val root); simpl in Hgate; [|done].
    by injection Hgate as <-. }
  unfold dir_link, children_add, get_agg in Hstep. rewrite Hcs0 in Hstep.
  simpl in Hstep.
  destruct (agg root0); simpl in Hstep; [|done].
  destruct (agg d1); simpl in Hstep; [|done]. injection Hstep as <- <-.
  right. exists d1. split; [done|]. exists d, walk.
  split; [apply list_elem_of_here|]. right. split; [done|]. by exists t, t0.
Qed.

Lemma linked_from_mono level ds ds' d1 :
  (∀ dw, dw ∈ ds → dw ∈ ds') →
  linked_from cfg level ds d1 → linked_from cfg level ds' d1.
Proof. intros Hsub (d & walk & Hin & Hcase). exists d, walk. auto. Qed.

Lemma dirs_loop_children level : ∀ ds root t root1 t1 cs,
  dirs_loop cfg level ds root t = Ok (root1, t1) →
  children root = Some cs →
  ∃ more, children root1 = Some (cs ++ more) ∧
    Forall (linked_from cfg level ds) more.
Proof.
  induction ds as [|[d walk] ds IH]; intros root t root1 t1 cs Hloop Hcs.
  - simpl in Hloop. injection Hloop as <- <-. exists []. by rewrite app_nil_r.
  - simpl in Hloop.
    destruct (dir_step cfg level root t (d, walk)) as [[root0 t0]|] eqn:Hstep;
      simpl in Hloop; [|done].
    destruct (dir_step_children _ _ _ _ _ _ _ _ Hstep Hcs) as [Hcs0|(d1 & Hcs0 & Hd1)].
    + destruct (IH _ _ _ _ _ Hloop Hcs0) as (more & Hc & Hall).
      exists more. split; [done|].
      eapply Forall_impl; [exact Hall|]. intros x. apply linked_from_mono.
      intros dw Hdw. by apply list_elem_of_further.
    + destruct (IH _ _ _ _ _ Hloop Hcs0) as (more & Hc & Hall).
      exists (d1 :: more). split; [by rewrite <- app_assoc in Hc|].
      constructor.
      * revert Hd1. apply linked_from_mono.
        intros dw ->%list_elem_of_singleton. apply list_elem_of_here.
      * eapply Forall_impl; [exact Hall|]. intros x. apply linked_from_mono.
        intros dw Hdw. by apply list_elem_of_further.
Qed.

Lemma at_depth_leaf k n :
  children n = None → is_dir n = false →
  ∀ x, x ∈ at_depth k n → is_dir x = false.
Proof.
  intros Hc Hd x. destruct k as [|k]; simpl.
  - by intros ->%list_elem_of_singleton.
  - rewrite Hc. by intros ?%elem_of_nil.
Qed.

Lemma truncate_truncated d : children d = Some [] → truncated (truncate d).
Proof. intros Hc. by split_and!. Qed.

Lemma _gather_depth_limited : ∀ e, depth_limited md5_hexdigest cfg e.
Proof.
  apply Entry_nested_ind.
  intros r err entries IH level root t D t' Hrun Hfresh Hlevel n Hn Hdir.
  rewrite _gather_eq in Hrun. cbv zeta in Hrun.
  pose proof (gather_enter_result cfg level root t) as (_ & Hc1 & _).
  destruct (gather_enter cfg level root t) as [root1 t1]. cbn [fst snd] in *.
  rewrite Hfresh in Hc1.
  replace (Z.to_nat (access_level cfg - level + 1))
    with (S (Z.to_nat (access_level cfg - level))) in Hn by lia.
  simpl in Hn.
  destruct err as [message|].
  { injection Hrun as <- <-. rewrite Hc1 in Hn. by apply elem_of_nil in Hn. }
  destruct (files_loop _ _ _ _) as [[root2 t2]|] eqn:Hfl; simpl in Hrun; [|done].
  assert (∃ linked, children root2 = Some linked ∧
    ∀ f, f ∈ linked → children f = None ∧ is_dir f = false) as (linked & Hc2 & Hfiles).
  { destruct (children_files_loop cfg _ _ _ _ _ _ Hfl Hc1) as (linked & Hc & Hin).
    exists linked. split; [done|]. intros f Hf. apply Hin in Hf.
    apply list_elem_of_filter in Hf as [Hp Hf].
    apply list_elem_of_fmap in Hf as (x & -> & _).
    apply andb_prop_elim in Hp as [Hp _]. apply negb_prop_elim in Hp.
    assert (is_dir (Node_init md5_hexdigest (path_join (path root1) (d_name (raw_of x)))
              (Some (path root1)) (raw_of x)) = false) as Hnd.
    { apply Node_init_not_to_dir. by destruct (is_to_dir _). }
    split; [by apply Node_init_leaf | done]. }
  destruct (dirs_loop_children level _ _ _ _ _ _ Hrun Hc2) as (more & HcD & Hmore).
  rewrite HcD in Hn. rewrite map_app, concat_app in Hn.
  apply elem_of_app in Hn as [Hn|Hn].
  - apply elem_of_concat in Hn as (l & Hn & Hl).
    apply list_elem_of_fmap in Hl as (f & -> & Hf).
    destruct (Hfiles f Hf) as [Hcf Hdf].
    by rewrite (at_depth_leaf _ f Hcf Hdf n Hn) in Hdir.
  - apply elem_of_concat in Hn as (l & Hn & Hl).
    apply list_elem_of_fmap in Hl as (d1 & -> & Hd1).
    rewrite Forall_forall in Hmore.
    destruct (Hmore d1 Hd1) as (d & walk & Hin & Hcase).
    apply list_elem_of_filter in Hin as [Hp Hin].
    apply list_elem_of_fmap in Hin as (x & Heq & Hx). injection Heq as -> ->.
    apply andb_prop_elim in Hp as [Hp _]. cbn [fst] in Hp.
    destruct Hcase as [[Hlink ->]|(Hlink & t0 & t0' & Henter)].
    + pose proof (Node_init_link _ _ _ _ Hlink) as Hnd.
      rewrite (at_depth_leaf _ _ (Node_init_leaf _ _ _ _ Hnd) Hnd n Hn) in Hdir. done.
    + assert (children (Node_init md5_hexdigest (path_join (path root1) (d_name (raw_of x)))
                (Some (path root1)) (raw_of x)) = Some []) as Hfresh'.
      { apply Node_init_dir; [by destruct (is_to_dir _) | done]. }
      unfold dir_enter in Henter.
      destruct (Z.ltb_spec level (access_level cfg)) as [Hlt|Hge].
      * rewrite Forall_forall in IH.
        apply (IH x Hx (level + 1) _ t0 d1 t0' Henter Hfresh'); [lia | | done].
        by replace (access_level cfg - (level + 1) + 1) with (access_level cfg - level) by lia.
      * injection Henter as <- <-.
        replace (Z.to_nat (access_level cfg - level)) with 0%nat in Hn by lia.
        simpl in Hn. apply list_elem_of_singleton in Hn as ->.
        by apply truncate_truncated.
Qed.
End depth_limit.

(** C7.  [level] is the level at which a directory is listed (the root at
    level 1), so the directories below one listed at the access level are
    those at depth [access_level] under the root.  Such a directory is not
    walked: the state of the tree is untouched, and it ends marked
    [ignore], with the children it was created with (none) and with its own
    stats as aggregates.  In the tree that was built, every directory at
    depth [access_level] is in that state. *)
Theorem access_level_truncates (md5_hexdigest : string → string) (cfg : Config) :
  (∀ (level : Z) (path : string) (father : option string) (r : Raw)
     (walk : Walk) (t : Tree),
     st_kind r = Directory → access_level cfg ≤ level →
     let d := Node_init md5_hexdigest path father r in
     ∃ d1, dir_enter cfg level d walk t = Ok (d1, t) ∧
       children d1 = Some [] ∧ ignore d1 = true ∧
       agg d1 = Some {| fcount := 0; dcount := 0; blines := None; rlines := None;
                        bsize := Some (st_size r); rsize := st_size r;
                        batime := Some (st_atime r); bbtime := Some (st_btime r);
                        bctime := Some (st_ctime r); bmtime := Some (st_mtime r) |}) ∧
  (∀ (root_path : string) (e : Entry) (t : Tree) (D : Node) (t' : Tree),
     1 ≤ access_level cfg → st_kind (raw_of e) = Directory →
     _build md5_hexdigest cfg root_path e t = Ok (D, t') →
     ∀ n, n ∈ at_depth (Z.to_nat (access_level cfg)) D → is_dir n = true →
       children n = Some [] ∧ ignore n = true ∧
       agg n = Some {| fcount := 0; dcount := 0; blines := None; rlines := None;
                       bsize := Some (size n); rsize := size n;
                       batime := Some (atime n); bbtime := Some (btime n);
                       bctime := Some (ctime n); bmtime := Some (mtime n) |}).
Proof.
  split.
  - intros level path father r walk t Hkind Hlevel d. exists (truncate d).
    unfold dir_enter. destruct (Z.ltb_spec level (access_level cfg)); [lia|].
    split; [done|]. unfold d, Node_init. rewrite Hkind. done.
  - intros root_path e t D t' Hlevel Hkind Hrun n Hn Hdir.
    unfold _build in Hrun.
    apply (_gather_depth_limited md5_hexdigest cfg e 1 _ t D t' Hrun); [| done | | done].
    + unfold Node_init. simpl. by rewrite Hkind.
    + by replace (access_level cfg - 1 + 1) with (access_level cfg) by lia.
Qed.

Lemma access_level_truncates_witness :
  let d := Node_init toy_md5 "r/d" (Some "r") (dir_raw "d" 10) in
  st_kind (dir_raw "d" 10) = Directory ∧ access_level cfg_level_1 ≤ 1 ∧
  ∃ d1, dir_enter cfg_level_1 1 d (_gather toy_md5 cfg_level_1 fs_one_file) (Tree_init 1)
          = Ok (d1, Tree_init 1) ∧
    children d1 = Some [] ∧ ignore d1 = true ∧
    (rsize <$> agg d1) = Some 10.
Proof.
  intros d. split; [done|]. split; [done|].
  destruct (access_level_truncates toy_md5 cfg_level_1) as [Hstep _].
  destruct (Hstep 1 "r/d" (Some "r") (dir_raw "d" 10)
              (_gather toy_md5 cfg_level_1 fs_one_file) (Tree_init 1) eq_refl)
    as (d1 & Henter & Hc & Hi & Ha); [done|].
  exists d1. split_and!; [done | done | done |]. by rewrite Ha.
Defined.

(** Under an access level of 1 the directory [d] of [fs_nested] is linked
    but not listed: the file below it is not counted. *)
Example access_level_example :
  ∃ root d t,
    _build toy_md5 cfg_level_1 "r" fs_nested (Tree_init 1) = Ok (root, t) ∧
    children root = Some [d] ∧ path d = "r/d" ∧
    children d = Some [] ∧ ignore d = true ∧
    (fcount <$> agg root) = Some 0 ∧ (dcount <$> agg root) = Some 1 ∧
    (rsize <$> agg root) = Some 20.
Proof. eexists _, _, _. split; [vm_compute; reflexivity|]. done. Qed.

(** ** More on the null-aware operators *)

Lemma null_lt_Some (x y : Z) : Null.lt (Some x) (Some y) = (x <? y).
Proof. reflexivity. Qed.

Lemma null_le_Some (x y : Z) : Null.le (Some x) (Some y) = (x <=? y).
Proof. reflexivity. Qed.

Lemma null_lt_None_r (a : option Z) : Null.lt a None = false.
Proof. by destruct a. Qed.

Lemma null_lt_None_l (b : option Z) : Null.lt None b = bool_decide (is_Some b).
Proof. by destruct b. Qed.

(** X1.  [lt] is a strict total order on numbers-or-[None] in which [None]
    is the least element: it is irreflexive and transitive, and of two
    different values exactly one is below the other. *)
Theorem null_lt_strict_total_order (a b c : option Z) :
  Null.lt a a = false ∧
  (Null.lt a b = true → Null.lt b c = true → Null.lt a c = true) ∧
  (Null.lt a b = true → Null.lt b a = false) ∧
  (a ≠ b → Null.lt a b = true ∨ Null.lt b a = true) ∧
  Null.lt a None = false.
Proof.
  split_and!.
  - destruct a as [x|]; [|done]. rewrite null_lt_Some. lia.
  - destruct a as [x|], b as [y|], c as [z|]; rewrite ?null_lt_Some; try done. lia.
  - destruct a as [x|], b as [y|]; rewrite ?null_lt_Some; try done. lia.
  - destruct a as [x|], b as [y|]; rewrite ?null_lt_Some; intros Hne;
      [| by right | by left | done].
    assert (x ≠ y) by congruence.
    destruct (Z.ltb_spec x y); [by left | right; apply Z.ltb_lt; lia].
  - apply null_lt_None_r.
Qed.

(** X2.  The three other comparisons are what [lt] and equality make them:
    [le] is [lt] or equal, [gt] is not [le], [ge] is not [lt]. *)
Theorem null_le_gt_ge_from_lt (a b : option Z) :
  Null.le a b = Null.lt a b || bool_decide (a = b) ∧
  Null.gt a b = negb (Null.le a b) ∧
  Null.ge a b = negb (Null.lt a b).
Proof.
  unfold Null.gt, Null.ge.
  destruct a as [x|], b as [y|]; rewrite ?null_lt_Some, ?null_le_Some;
    split_and!; try done.
  - case_bool_decide as H; [injection H as ->|assert (x ≠ y) by congruence];
      Zbool_cases.
  - Zbool_cases.
  - Zbool_cases.
Qed.

(** X3.  [max_of] and [min_of] are the join and the meet of that order:
    both are commutative, associative and idempotent and absorb each other;
    [None] is the identity of [max_of] and absorbs under [min_of]; on two
    numbers they are the larger and the smaller. *)
Theorem null_max_min_lattice (a b c : option Z) :
  Null.max_of a b = Null.max_of b a ∧
  Null.min_of a b = Null.min_of b a ∧
  Null.max_of a (Null.max_of b c) = Null.max_of (Null.max_of a b) c ∧
  Null.min_of a (Null.min_of b c) = Null.min_of (Null.min_of a b) c ∧
  Null.max_of a a = a ∧ Null.min_of a a = a ∧
  Null.max_of a (Null.min_of a b) = a ∧
  Null.min_of a (Null.max_of a b) = a ∧
  Null.max_of a None = a ∧ Null.min_of a None = None ∧ Null.min_of None a = None ∧
  (∀ x y, Null.max_of (Some x) (Some y) = Some (Z.max x y) ∧
          Null.min_of (Some x) (Some y) = Some (Z.min x y)) ∧
  (Null.lt a b = true ↔ Null.max_of a b = b ∧ a ≠ b).
Proof.
  assert (∀ x y, Null.max_of (Some x) (Some y) = Some (Z.max x y)) as Hmax.
  { intros x y. unfold Null.max_of. rewrite null_lt_Some.
    destruct (Z.ltb_spec x y); f_equal; lia. }
  assert (∀ x y, Null.min_of (Some x) (Some y) = Some (Z.min x y)) as Hmin.
  { intros x y. unfold Null.min_of. rewrite null_lt_Some.
    destruct (Z.ltb_spec x y); f_equal; lia. }
  assert (∀ x, Null.max_of None x = x ∧ Null.max_of x None = x) as Hmax0
    by (by intros [x|]).
  assert (∀ x, Null.min_of None x = None ∧ Null.min_of x None = None) as Hmin0
    by (by intros [x|]).
  split_and!;
    try (destruct a as [x|], b as [y|], c as [z|];
         rewrite ?Hmax, ?Hmin, ?(proj1 (Hmax0 _)), ?(proj2 (Hmax0 _)),
           ?(proj1 (Hmin0 _)), ?(proj2 (Hmin0 _)), ?Hmax, ?Hmin;
         try done; f_equal; lia).
  destruct a as [x|], b as [y|]; rewrite ?Hmax, ?null_lt_Some; try done.
  - split; [intros; split; [f_equal|intros [=]]; lia|].
    intros [[=] Hne]. assert (x ≠ y) by congruence. lia.
  - split; [done|]. by intros [[=] _].
  - split; [done|]. by intros [_ ?].
Qed.

(** X4.  [add] is a commutative monoid with [None] as identity; it is the
    sum on two numbers, and it is [None] only when both operands are. *)
Theorem null_add_monoid (a b c : option Z) :
  Null.add a b = Null.add b a ∧
  Null.add a (Null.add b c) = Null.add (Null.add a b) c ∧
  Null.add a None = a ∧ Null.add None a = a ∧
  (∀ x y, Null.add (Some x) (Some y) = Some (x + y)) ∧
  (Null.add a b = None ↔ a = None ∧ b = None).
Proof.
  split_and!; try (by destruct a as [x|], b as [y|]).
  - destruct a as [x|], b as [y|]; try done.
    unfold Null.add; simpl. f_equal; lia.
  - destruct a as [x|], b as [y|], c as [z|]; try done.
    unfold Null.add; simpl. f_equal; lia.
  - destruct a as [x|], b as [y|]; try done; split; try done; by intros [? ?].
Qed.

(** X5.  A filter of [make] never lets an absent value through: with any of
    the four operators, a node whose attribute is [None] fails the pattern,
    and a node that has the attribute passes exactly when the number
    compares to the bound as the operator says. *)
Theorem filter_rejects_absent {obj : Type} (getattr : obj → string → option Z)
    (symbol attr : string) (op : option Z → option Z → bool) (val : Z) (node : obj) :
  oper_dict symbol = Some op →
  (getattr node attr = None → filter_pat getattr attr op val node = false) ∧
  (∀ x, getattr node attr = Some x →
     filter_pat getattr attr op val node =
       if String.eqb symbol "<" then x <? val
       else if String.eqb symbol "<=" then x <=? val
       else if String.eqb symbol ">" then val <? x
       else val <=? x).
Proof.
  unfold oper_dict, filter_pat. intros Hop.
  repeat (destruct (String.eqb symbol _); [injection Hop as <-; split;
    [by intros -> | by intros x ->] |]).
  done.
Qed.

Lemma filter_rejects_absent_witness :
  filter_pat (λ (n : option Z) (_ : string), n) "lines" Null.gt 5 None = false.
Proof.
  by apply (filter_rejects_absent (λ (n : option Z) (_ : string), n) ">" "lines"
              Null.gt 5 None eq_refl).
Defined.
(** ** More on [best_of] and [sum_of] *)

Lemma foldl_Zmax_spec (l : list Z) (x : Z) :
  (foldl Z.max x l = x ∨ foldl Z.max x l ∈ l) ∧
  x ≤ foldl Z.max x l ∧ ∀ y, y ∈ l → y ≤ foldl Z.max x l.
Proof.
  revert x. induction l as [|a l IH]; intros x; simpl.
  - split_and!; [by left | lia |]. intros y Hy. by apply elem_of_nil in Hy.
  - destruct (IH (Z.max x a)) as (Hin & Hle & Hall). split_and!.
    + destruct Hin as [Heq|Hin]; [|right; by apply list_elem_of_further].
      rewrite Heq. destruct (Z.max_spec x a) as [[_ ->]|[_ ->]];
        [right; apply list_elem_of_here | by left].
    + lia.
    + intros y [->|Hy]%elem_of_cons; [lia | by apply Hall].
Qed.

Lemma foldl_Zadd_shift (l : list Z) (x : Z) : foldl Z.add x l = x + foldl Z.add 0 l.
Proof.
  revert x. induction l as [|a l IH]; intros x; simpl; [lia|].
  rewrite (IH (x + a)), (IH (0 + a)). lia.
Qed.

Lemma present_attrs_app {obj : Type} (getattr : obj → string → option Z)
    (l1 l2 : list obj) (attr : string) :
  present_attrs getattr (l1 ++ l2) attr =
  present_attrs getattr l1 attr ++ present_attrs getattr l2 attr.
Proof. unfold present_attrs. apply omap_app. Qed.

Lemma elem_of_present_attrs {obj : Type} (getattr : obj → string → option Z)
    (nodes : list obj) (attr : string) (v : Z) :
  v ∈ present_attrs getattr nodes attr ↔ ∃ n, n ∈ nodes ∧ getattr n attr = Some v.
Proof. unfold present_attrs. apply list_elem_of_omap. Qed.

(** X6.  [best_of] gives the largest value of the attribute among the nodes
    that have it, and [None] exactly when no node has it; it is [max_of]
    folded over the nodes, so the best of two lists put together is the
    [max_of] of their bests. *)
Theorem best_of_is_maximum {obj : Type} (getattr : obj → string → option Z)
    (nodes more : list obj) (attr : string) :
  match best_of getattr nodes attr with
  | Some m => (∃ n, n ∈ nodes ∧ getattr n attr = Some m) ∧
              ∀ n v, n ∈ nodes → getattr n attr = Some v → v ≤ m
  | None => ∀ n, n ∈ nodes → getattr n attr = None
  end ∧
  best_of getattr nodes attr =
    foldr (λ n acc, Null.max_of (getattr n attr) acc) None nodes ∧
  best_of getattr (nodes ++ more) attr =
    Null.max_of (best_of getattr nodes attr) (best_of getattr more attr).
Proof.
  assert (∀ l, best_of getattr l attr = py_max (present_attrs getattr l attr)) as Hbest.
  { intros l. unfold best_of. by destruct (py_max _). }
  assert (∀ l1 l2, py_max (l1 ++ l2) = Null.max_of (py_max l1) (py_max l2)) as Happ.
  { intros [|x l1] l2; simpl.
    - by destruct (py_max l2).
    - rewrite foldl_app. destruct l2 as [|y l2]; [done|]. simpl.
      unfold Null.max_of. rewrite null_lt_Some.
      pose proof (foldl_Zmax_spec l2 y) as (_ & Hy & _).
      pose proof (foldl_Zmax_spec l2 (Z.max (foldl Z.max x l1) y)) as (Hin & Hle & Hall).
      pose proof (foldl_Zmax_spec l2 y) as (Hin' & _ & Hall').
      destruct (Z.ltb_spec (foldl Z.max x l1) (foldl Z.max y l2)); f_equal.
      + apply Z.le_antisymm.
        * destruct Hin as [->|Hin]; [lia | by apply Hall'].
        * destruct Hin' as [->|Hin']; [lia | by apply Hall].
      + apply Z.le_antisymm; [|lia].
        destruct Hin as [->|Hin]; [lia|]. specialize (Hall' _ Hin). lia. }
  split_and!.
  - rewrite Hbest. destruct (present_attrs getattr nodes attr) as [|x l] eqn:Hl; simpl.
    + intros n Hn. destruct (getattr n attr) as [v|] eqn:Hv; [|done].
      assert (v ∈ present_attrs getattr nodes attr) as Hin
        by (apply elem_of_present_attrs; eauto).
      rewrite Hl in Hin. by apply elem_of_nil in Hin.
    + destruct (foldl_Zmax_spec l x) as (Hin & Hle & Hall). split.
      * apply elem_of_present_attrs. rewrite Hl.
        destruct Hin as [->|Hin]; [apply list_elem_of_here | by apply list_elem_of_further].
      * intros n v Hn Hv.
        assert (v ∈ x :: l) as [->|Hin']%elem_of_cons;
          [rewrite <- Hl; apply elem_of_present_attrs; eauto | lia | by apply Hall].
  - induction nodes as [|n nodes IH]; [done|].
    simpl. rewrite <- IH, !Hbest.
    change (n :: nodes) with ([n] ++ nodes). rewrite present_attrs_app, Happ.
    unfold present_attrs at 1. simpl. by destruct (getattr n attr).
  - by rewrite !Hbest, present_attrs_app, Happ.
Qed.

(** X7.  [sum_of] is a number always: the sum of the values present, an
    absent one counting for nothing.  The sum of two lists put together is
    the [add] of their sums, and as soon as one node has the attribute
    [sum_of] is what [add], folded over the nodes, gives. *)
Theorem sum_of_is_total {obj : Type} (getattr : obj → string → option Z)
    (nodes more : list obj) (attr : string) :
  sum_of getattr nodes attr =
    Some (foldr (λ n acc, default 0 (getattr n attr) + acc) 0 nodes) ∧
  sum_of getattr (nodes ++ more) attr =
    Null.add (sum_of getattr nodes attr) (sum_of getattr more attr) ∧
  ((∃ n, n ∈ nodes ∧ is_Some (getattr n attr)) →
   sum_of getattr nodes attr =
     foldr (λ n acc, Null.add (getattr n attr) acc) None nodes).
Proof.
  assert (∀ l, py_sum (present_attrs getattr l attr) =
               foldr (λ n acc, default 0 (getattr n attr) + acc) 0 l) as Hsum.
  { induction l as [|n l IH]; [done|]. simpl. rewrite <- IH.
    unfold present_attrs, py_sum. simpl. destruct (getattr n attr) as [v|]; simpl.
    - by rewrite foldl_Zadd_shift.
    - lia. }
  split_and!.
  - unfold sum_of. by rewrite Hsum.
  - unfold sum_of. rewrite present_attrs_app. unfold py_sum.
    rewrite foldl_app, foldl_Zadd_shift. done.
  - unfold sum_of. rewrite Hsum. clear Hsum. intros (n' & Hin & Hsome).
    assert (foldr (λ n acc, Null.add (getattr n attr) acc) None nodes =
              Some (foldr (λ n acc, default 0 (getattr n attr) + acc) 0 nodes) ∨
            ∀ m, m ∈ nodes → getattr m attr = None) as [->|Hnone]; [|done|].
    + clear. induction nodes as [|n nodes IH]; [right; by intros m ?%elem_of_nil|].
      simpl. destruct IH as [->|Hnone].
      * left. by destruct (getattr n attr).
      * destruct (getattr n attr) as [v|] eqn:Hv.
        -- left. clear Hv.
           assert (foldr (λ n acc, default 0 (getattr n attr) + acc) 0 nodes = 0
                   ∧ foldr (λ n acc, Null.add (getattr n attr) acc) None nodes = None)
             as [-> ->]; [|change (Some v = Some (v + 0)); f_equal; lia].
           induction nodes as [|m nodes IH]; [done|]. simpl.
           rewrite (Hnone m) by apply list_elem_of_here.
           destruct IH as [-> ->]; [|done].
           intros; apply Hnone; by apply list_elem_of_further.
        -- right. by intros m [->|Hm]%elem_of_cons; [|apply Hnone].
    + rewrite (Hnone _ Hin) in Hsome. by destruct Hsome.
Qed.

Lemma sum_of_is_total_witness :
  sum_of (λ (n : option Z) (_ : string), n) [None; Some 3; Some 4] "lines" =
  foldr (λ n acc, Null.add n acc) None [None; Some 3; Some 4].
Proof.
  refine (proj2 (proj2 (sum_of_is_total (λ (n : option Z) (_ : string), n)
                          [None; Some 3; Some 4] [] "lines")) _).
  exists (Some 3). split; [|by eexists].
  apply list_elem_of_further, list_elem_of_here.
Defined.
(** ** More on the comparator *)

Lemma string_ltb_cons (a b : ascii) (s t : string) :
  string_ltb (String a s) (String b t) =
    if (nat_of_ascii a <? nat_of_ascii b)%nat then true
    else if (nat_of_ascii b <? nat_of_ascii a)%nat then false
    else string_ltb s t.
Proof. reflexivity. Qed.

Lemma nat_of_ascii_inj (a b : ascii) : nat_of_ascii a = nat_of_ascii b → a = b.
Proof.
  intros H. rewrite <- (ascii_nat_embedding a), <- (ascii_nat_embedding b).
  by rewrite H.
Qed.

Lemma string_ltb_asym (s t : string) : string_ltb s t = true → string_ltb t s = false.
Proof.
  revert t. induction s as [|a s IH]; intros [|b t]; try done.
  rewrite !string_ltb_cons.
  destruct (Nat.ltb_spec (nat_of_ascii a) (nat_of_ascii b)),
           (Nat.ltb_spec (nat_of_ascii b) (nat_of_ascii a)); try done; try lia.
  apply IH.
Qed.

Lemma string_ltb_total (s t : string) :
  string_ltb s t = false → string_ltb t s = false → s = t.
Proof.
  revert t. induction s as [|a s IH]; intros [|b t]; try done.
  rewrite !string_ltb_cons.
  destruct (Nat.ltb_spec (nat_of_ascii a) (nat_of_ascii b)),
           (Nat.ltb_spec (nat_of_ascii b) (nat_of_ascii a)); try done.
  intros Hst Hts. f_equal; [apply nat_of_ascii_inj; lia | by apply IH].
Qed.

Lemma string_ltb_trans (s t u : string) :
  string_ltb s t = true → string_ltb t u = true → string_ltb s u = true.
Proof.
  revert t u. induction s as [|a s IH]; intros [|b t] [|c u]; try done.
  rewrite !string_ltb_cons.
  destruct (Nat.ltb_spec (nat_of_ascii a) (nat_of_ascii b)),
           (Nat.ltb_spec (nat_of_ascii b) (nat_of_ascii a)),
           (Nat.ltb_spec (nat_of_ascii b) (nat_of_ascii c)),
           (Nat.ltb_spec (nat_of_ascii c) (nat_of_ascii b)),
           (Nat.ltb_spec (nat_of_ascii a) (nat_of_ascii c)),
           (Nat.ltb_spec (nat_of_ascii c) (nat_of_ascii a));
    try done; try lia.
  apply IH.
Qed.

Lemma string_ltb_cases (s t : string) :
  (string_ltb s t = true ∧ string_ltb t s = false) ∨ s = t ∨
  (string_ltb s t = false ∧ string_ltb t s = true).
Proof.
  destruct (string_ltb s t) eqn:Hst.
  - left. split; [done | by apply string_ltb_asym].
  - destruct (string_ltb t s) eqn:Hts; [by right; right|].
    right; left. by apply string_ltb_total.
Qed.

(** The weak order of strings: [t] is not below [s]. *)
Lemma string_leb_trans (s t u : string) :
  string_ltb t s = false → string_ltb u t = false → string_ltb u s = false.
Proof.
  intros Hts Hut. destruct (string_ltb u s) eqn:Hus; [|done].
  destruct (string_ltb s t) eqn:Hst.
  - by rewrite (string_ltb_trans u s t Hus Hst) in Hut.
  - rewrite (string_ltb_total s t Hst Hts) in Hus. by rewrite Hus in Hut.
Qed.

Section cmp_order.
Context {obj : Type} (getattr : obj → string → option FieldVal).

Lemma cmp_fields_cons (f : string) (fields : list string) (a b : obj) :
  cmp_fields getattr (f :: fields) a b =
    r ← field_cmp (getattr a f) (getattr b f);
    if r =? 0 then cmp_fields getattr fields a b else Ok r.
Proof.
  simpl. destruct (getattr a f) as [x|], (getattr b f) as [y|]; try done.
  unfold Null.presence. simpl. destruct (three_way x y) as [r|e]; [|done]. simpl.
  destruct (Z.eqb_spec r 0) as [->|Hr]; simpl.
  - by destruct (is_number x).
  - destruct (is_number x); [|by destruct (Z.eqb_spec r 0)].
    by destruct (Z.eqb_spec (- r) 0); [lia|].
Qed.

Lemma field_cmp_antisym (af bf : option FieldVal) :
  match field_cmp af bf with
  | Ok r => field_cmp bf af = Ok (- r) ∧ (r = -1 ∨ r = 0 ∨ r = 1)
  | Raise e => e = TypeError ∧ field_cmp bf af = Raise TypeError
  end.
Proof.
  destruct af as [[x|s]|], bf as [[y|t]|]; simpl; try done; try (split; [done|lia]).
  - destruct (Z.ltb_spec x y), (Z.ltb_spec y x); simpl; (split; [done|lia]).
  - destruct (string_ltb s t) eqn:Hst, (string_ltb t s) eqn:Hts; simpl;
      (split; [done|lia]).
Qed.

Lemma field_cmp_tie (af bf : option FieldVal) : field_cmp af bf = Ok 0 → af = bf.
Proof.
  destruct af as [[x|s]|], bf as [[y|t]|]; simpl; try done.
  - destruct (Z.ltb_spec x y), (Z.ltb_spec y x); simpl; intros [=]; try lia.
    do 2 f_equal. lia.
  - destruct (string_ltb s t) eqn:Hst, (string_ltb t s) eqn:Hts; simpl; intros [=].
    + by rewrite (string_ltb_asym s t Hst) in Hts.
    + by rewrite (string_ltb_total s t Hst Hts).
Qed.

Lemma field_cmp_refl (af : option FieldVal) : field_cmp af af = Ok 0.
Proof.
  destruct af as [v|]; [|done]. simpl. rewrite three_way_refl. simpl.
  by destruct (is_number v).
Qed.

Lemma field_cmp_trans (af bf cf : option FieldVal) (p q : Z) :
  field_cmp af bf = Ok p → field_cmp bf cf = Ok q → p ≤ 0 → q ≤ 0 →
  ∃ z, field_cmp af cf = Ok z ∧ z ≤ 0 ∧ (z = 0 → p = 0 ∧ q = 0).
Proof.
  destruct af as [[x|s]|], bf as [[y|t]|], cf as [[w|u]|]; simpl; try done;
    try (intros [= <-] [= <-] ? ?; first [lia | eexists; split; [done|]; lia]).
  - destruct (Z.ltb_spec x y), (Z.ltb_spec y x), (Z.ltb_spec y w), (Z.ltb_spec w y),
             (Z.ltb_spec x w), (Z.ltb_spec w x); simpl;
      intros [= <-] [= <-] ? ?; first [lia | eexists; split; [done|]; lia].
  - destruct (string_ltb_cases s t) as [[Hst Hts]|[->|[Hst Hts]]],
             (string_ltb_cases t u) as [[Htu Hut]|[->|[Htu Hut]]];
      rewrite ?string_ltb_irrefl, ?Hst, ?Hts, ?Htu, ?Hut; simpl;
      intros [= <-] [= <-] ? ?; try lia;
      rewrite ?string_ltb_irrefl, ?Hst, ?Hts, ?Htu, ?Hut; simpl;
      try (eexists; split; [done|]; lia).
    rewrite (string_ltb_trans s t u Hst Htu).
    rewrite (string_ltb_asym s u (string_ltb_trans s t u Hst Htu)).
    eexists; split; [done|]. simpl. lia.
Qed.

Lemma cmp_fields_antisym (fields : list string) (a b : obj) :
  match cmp_fields getattr fields a b with
  | Ok r => cmp_fields getattr fields b a = Ok (- r) ∧ (r = -1 ∨ r = 0 ∨ r = 1)
  | Raise e => e = TypeError ∧ cmp_fields getattr fields b a = Raise TypeError
  end.
Proof.
  induction fields as [|f fields IH]; [simpl; split; [done|lia]|].
  rewrite !cmp_fields_cons.
  pose proof (field_cmp_antisym (getattr a f) (getattr b f)) as Hf.
  destruct (field_cmp (getattr a f) (getattr b f)) as [r|e].
  - destruct Hf as [-> Hr]. cbn [mbind Res_bind].
    destruct (Z.eqb_spec r 0) as [->|Hne]; [done|].
    destruct (Z.eqb_spec (- r) 0); [lia|done].
  - by destruct Hf as [-> ->].
Qed.

Lemma cmp_fields_trans (fields : list string) (a b c : obj) (x y : Z) :
  cmp_fields getattr fields a b = Ok x → cmp_fields getattr fields b c = Ok y →
  x ≤ 0 → y ≤ 0 →
  ∃ z, cmp_fields getattr fields a c = Ok z ∧ z ≤ 0 ∧ (z = 0 → x = 0 ∧ y = 0).
Proof.
  revert x y. induction fields as [|f fields IH]; intros x y.
  { simpl. intros [= <-] [= <-] _ _. by exists 0. }
  rewrite !cmp_fields_cons.
  destruct (field_cmp (getattr a f) (getattr b f)) as [p|] eqn:Hp; [|done].
  destruct (field_cmp (getattr b f) (getattr c f)) as [q|] eqn:Hq; [|done].
  cbn [mbind Res_bind].
  destruct (Z.eqb_spec p 0) as [->|Hp0].
  - apply field_cmp_tie in Hp as ->. rewrite Hq. cbn [mbind Res_bind].
    destruct (Z.eqb_spec q 0) as [->|Hq0]; [apply IH|].
    intros _ [= <-] _ Hy. exists q. split_and!; [done | done | lia].
  - intros [= <-] Hy Hx. destruct (Z.eqb_spec q 0) as [->|Hq0].
    + apply field_cmp_tie in Hq as <-. rewrite Hp. cbn [mbind Res_bind].
      destruct (Z.eqb_spec p 0); [done|]. intros _.
      exists p. split_and!; [done | done | lia].
    + injection Hy as <-. intros Hq'.
      destruct (field_cmp_trans _ _ _ p q Hp Hq Hx Hq') as (z & -> & Hz & Hz0).
      cbn [mbind Res_bind]. destruct (Z.eqb_spec z 0) as [->|Hz']; [lia|].
      exists z. split_and!; [done | done | lia].
Qed.

Lemma fields_to_cmp_eq (fields : list string) (a b : option obj) :
  fields_to_cmp getattr fields a b =
    match a, b with
    | None, None => Ok 0
    | Some _, None => Ok (-1)
    | None, Some _ => Ok 1
    | Some x, Some y => cmp_fields getattr fields x y
    end.
Proof. by destruct a, b. Qed.
End cmp_order.

(** X8.  The comparator is antisymmetric: comparing two nodes the other way
    round gives the opposite result, which is one of [-1], [0] and [1];
    the only exception it raises is the [TypeError] of comparing a number
    with a string, and then it raises it both ways. *)
Theorem fields_to_cmp_antisymmetric {obj : Type}
    (getattr : obj → string → option FieldVal) (fields : list string)
    (a b : option obj) :
  match fields_to_cmp getattr fields a b with
  | Ok r => fields_to_cmp getattr fields b a = Ok (- r) ∧ (r = -1 ∨ r = 0 ∨ r = 1)
  | Raise e => e = TypeError ∧ fields_to_cmp getattr fields b a = Raise TypeError
  end.
Proof.
  rewrite !fields_to_cmp_eq.
  destruct a as [a|], b as [b|]; try (split; [done|lia]).
  apply (cmp_fields_antisym getattr fields a b).
Qed.

(** X9.  Where it does not raise, the comparator is a total preorder: if
    [a] is not after [b] and [b] is not after [c] then comparing [a] with
    [c] does not raise and [a] is not after [c], and they tie only if both
    pairs tie.  So the [<] of the sort keys is a strict weak order. *)
Theorem fields_to_cmp_transitive {obj : Type}
    (getattr : obj → string → option FieldVal) (fields : list string)
    (a b c : option obj) (x y : Z) :
  fields_to_cmp getattr fields a b = Ok x →
  fields_to_cmp getattr fields b c = Ok y →
  x ≤ 0 → y ≤ 0 →
  ∃ z, fields_to_cmp getattr fields a c = Ok z ∧ z ≤ 0 ∧ (z = 0 → x = 0 ∧ y = 0).
Proof.
  rewrite !fields_to_cmp_eq.
  destruct a as [a|], b as [b|], c as [c|];
    try (intros [= <-] [= <-] ? ?; first [lia | eexists; split; [done|]; lia]).
  - apply cmp_fields_trans.
  - intros _ [= <-] ? ?. exists (-1). split; [done|lia].
  - intros [= <-] _ ?; lia.
Qed.

Lemma fields_to_cmp_transitive_witness :
  let getattr := λ (n : Z) (f : string), Some (Num n) in
  ∃ z, fields_to_cmp getattr ["size"] (Some 9) (Some 3) = Ok z ∧ z ≤ 0 ∧
       (z = 0 → -1 = 0 ∧ -1 = 0).
Proof.
  apply (fields_to_cmp_transitive (λ (n : Z) (f : string), Some (Num n)) ["size"]
           (Some 9) (Some 5) (Some 3) (-1) (-1)); [done | done | lia | lia].
Defined.

(** X10.  The order the comparator sorts in.  [None] in place of a node
    goes last.  Between two nodes that agree on the fields before [f]: the
    larger number at [f] goes first, the string that is first in code point
    order goes first, and a number against a string raises [TypeError]. *)
Theorem fields_to_cmp_sort_order {obj : Type}
    (getattr : obj → string → option FieldVal) (pre : list string) (f : string)
    (rest : list string) (a b : obj) :
  (∀ g, g ∈ pre → getattr a g = getattr b g) →
  fields_to_cmp getattr (pre ++ f :: rest) (Some a) None = Ok (-1) ∧
  fields_to_cmp getattr (pre ++ f :: rest) None (Some b) = Ok 1 ∧
  fields_to_cmp getattr (pre ++ f :: rest) None None = Ok 0 ∧
  (∀ x y, getattr a f = Some (Num x) → getattr b f = Some (Num y) → y < x →
     fields_to_cmp getattr (pre ++ f :: rest) (Some a) (Some b) = Ok (-1)) ∧
  (∀ s t, getattr a f = Some (Str s) → getattr b f = Some (Str t) →
     string_ltb s t = true →
     fields_to_cmp getattr (pre ++ f :: rest) (Some a) (Some b) = Ok (-1)) ∧
  (∀ x s, getattr a f = Some (Num x) → getattr b f = Some (Str s) →
     fields_to_cmp getattr (pre ++ f :: rest) (Some a) (Some b) = Raise TypeError ∧
     fields_to_cmp getattr (pre ++ f :: rest) (Some b) (Some a) = Raise TypeError).
Proof.
  intros Htied. split_and!; try done.
  - intros x y Ha Hb Hlt. rewrite fields_to_cmp_eq, cmp_fields_tied by done.
    rewrite cmp_fields_cons, Ha, Hb. simpl.
    destruct (Z.ltb_spec y x), (Z.ltb_spec x y); try lia. done.
  - intros s t Ha Hb Hlt. rewrite fields_to_cmp_eq, cmp_fields_tied by done.
    rewrite cmp_fields_cons, Ha, Hb. simpl.
    by rewrite Hlt, (string_ltb_asym s t Hlt).
  - intros x s Ha Hb. rewrite !fields_to_cmp_eq.
    rewrite !cmp_fields_tied by (done || (intros; symmetry; by apply Htied)).
    by rewrite !cmp_fields_cons, Ha, Hb.
Qed.

Lemma fields_to_cmp_sort_order_witness :
  fields_to_cmp (λ (n : Z) (f : string), Some (Num n)) ["size"; "name"]
    (Some 9) (Some 3) = Ok (-1).
Proof.
  refine (proj1 (proj2 (proj2 (proj2
    (fields_to_cmp_sort_order (λ (n : Z) (f : string), Some (Num n)) [] "size"
       ["name"] 9 3 _)))) 9 3 eq_refl eq_refl _); [|lia].
  intros g Hg. by apply elem_of_nil in Hg.
Defined.

(** X11.  The sort keys made by [cmp_to_key] from the comparator are
    consistent: [K(a) > K(b)] is [K(b) < K(a)], [>=] is the converse of
    [<=], [==] is symmetric, [!=] is its negation, and [<=] is [<] or [==] —
    with the same exception on both sides when the comparator raises. *)
Theorem cmp_to_key_consistent {obj : Type}
    (getattr : obj → string → option FieldVal) (fields : list string)
    (a b : option obj) :
  let cmp := fields_to_cmp getattr fields in
  K_gt cmp a b = K_lt cmp b a ∧
  K_ge cmp a b = K_le cmp b a ∧
  K_eq cmp a b = K_eq cmp b a ∧
  K_ne cmp a b = (e ← K_eq cmp a b; Ok (negb e)) ∧
  K_le cmp a b = (l ← K_lt cmp a b; e ← K_eq cmp a b; Ok (l || e)).
Proof.
  intros cmp. unfold K_gt, K_lt, K_ge, K_le, K_eq, K_ne.
  assert (match cmp a b with
          | Ok r => cmp b a = Ok (- r)
          | Raise e => e = TypeError ∧ cmp b a = Raise TypeError
          end) as Hanti.
  { unfold cmp. rewrite !fields_to_cmp_eq. destruct a as [a|], b as [b|]; try done.
    pose proof (cmp_fields_antisym getattr fields a b) as H.
    destruct (cmp_fields getattr fields a b); [by destruct H | done]. }
  destruct (cmp a b) as [r|e].
  - rewrite Hanti. cbn [mbind Res_bind]. split_and!; f_equal; Zbool_cases.
  - destruct Hanti as [-> ->]. done.
Qed.
(** ** More on the top-K selector: the items *)

Section top_k_items.
Context {W : Type}.
Implicit Types (s : Top_K_and_Which W) (stream : list (Z * W)).

(** One [push]: what it returns and what it keeps. *)
Lemma push_spec s v w :
  heap_ok value (_list s) →
  ∃ r s', push s v w = Ok (r, s') ∧
    capacity s' = capacity s ∧ heap_ok value (_list s') ∧
    match r with
    | None =>
        Z.of_nat (length (_list s)) < capacity s ∧
        _list s' ≡ₚ mkVW v w :: _list s
    | Some item =>
        capacity s ≤ Z.of_nat (length (_list s)) ∧
        item :: _list s' ≡ₚ mkVW v w :: _list s ∧
        ∀ x, x ∈ _list s' → value item ≤ value x
    end.
Proof.
  destruct s as [cap l]. unfold push. simpl. intros Hok.
  destruct (Z.ltb_spec (Z.of_nat (length l)) cap) as [Hroom|Hfull].
  - destruct (heappush_ok value vw_lt vw_lt_key l (mkVW v w) Hok)
      as (l' & -> & Hperm & Hok').
    simpl. by eexists None, _.
  - destruct (heappushpop_ok value vw_lt vw_lt_key l (mkVW v w) Hok)
      as (r & l' & -> & Hok' & Hcase).
    simpl. eexists (Some r), _. split_and!; [done | done | done | done | |];
      simpl; destruct l as [|heap0 tl].
    + by destruct Hcase as [-> ->].
    + simpl in Hcase. destruct (Z.ltb_spec (value heap0) v).
      * destruct Hcase as [-> ->]. apply perm_swap.
      * by destruct Hcase as [-> ->].
    + destruct Hcase as [-> ->]. by intros x ?%elem_of_nil.
    + assert (∀ x, x ∈ heap0 :: tl → value heap0 ≤ value x) as Hmin
        by (by apply (heap_ok_root_min value (heap0 :: tl) heap0 Hok)).
      simpl in Hcase. destruct (Z.ltb_spec (value heap0) v).
      * destruct Hcase as [-> Hperm]. intros x Hx. rewrite Hperm in Hx.
        apply elem_of_cons in Hx as [->|Hx]; [simpl; lia|].
        by apply Hmin, list_elem_of_further.
      * destruct Hcase as [-> ->]. intros x Hx. specialize (Hmin x Hx). simpl. lia.
Qed.

Lemma push_all_items : ∀ stream s,
  heap_ok value (_list s) →
  ∃ s' dropped, push_all s stream = Ok s' ∧ capacity s' = capacity s ∧
    heap_ok value (_list s') ∧
    _list s' ++ dropped ≡ₚ _list s ++ offered stream.
Proof.
  induction stream as [|[v w] stream IH]; intros s Hok.
  - exists s, []. split_and!; done.
  - destruct (push_spec s v w Hok) as (r & s1 & Hpush & Hcap & Hok1 & Hr).
    destruct (IH s1 Hok1) as (s' & dropped & Hrun & Hcap' & Hok' & Hperm).
    simpl. rewrite Hpush. cbn [mbind Res_bind]. rewrite Hrun.
    destruct r as [item|].
    + exists s', (item :: dropped). split_and!; [done | congruence | done |].
      destruct Hr as (_ & Hitem & _).
      change (offered ((v, w) :: stream)) with (mkVW v w :: offered stream).
      rewrite <- !Permutation_middle, Hperm, !app_comm_cons. by rewrite Hitem.
    + exists s', dropped. split_and!; [done | congruence | done |].
      destruct Hr as (_ & Hitem).
      change (offered ((v, w) :: stream)) with (mkVW v w :: offered stream).
      rewrite <- Permutation_middle, Hperm, app_comm_cons. by rewrite Hitem.
Qed.
End top_k_items.

(** X12.  What [push] hands back.  On a selector that is a heap, [push]
    raises nothing and leaves a heap of the same capacity.  Below capacity
    it returns [None] and the new item is kept with the others.  At capacity
    it returns an item: the items kept and the one returned are the items
    held before and the new one, and the one returned is not above any
    item kept. *)
Theorem push_hands_back_the_least {W : Type} (s : Top_K_and_Which W) (v : Z) (w : W) :
  heap_ok value (_list s) →
  ∃ r s', push s v w = Ok (r, s') ∧
    capacity s' = capacity s ∧ heap_ok value (_list s') ∧
    match r with
    | None =>
        Z.of_nat (length (_list s)) < capacity s ∧
        _list s' ≡ₚ mkVW v w :: _list s
    | Some item =>
        capacity s ≤ Z.of_nat (length (_list s)) ∧
        item :: _list s' ≡ₚ mkVW v w :: _list s ∧
        ∀ x, x ∈ _list s' → value item ≤ value x
    end.
Proof. apply push_spec. Qed.

Lemma push_hands_back_the_least_witness :
  ∃ r s', push (mkTopK 1 [mkVW 5 "a"]) 7 "b" = Ok (r, s') ∧
    capacity s' = 1 ∧ heap_ok value (_list s') ∧
    match r with
    | None => 1 < 1 ∧ _list s' ≡ₚ [mkVW 7 "b"; mkVW 5 "a"]
    | Some item =>
        1 ≤ 1 ∧ item :: _list s' ≡ₚ [mkVW 7 "b"; mkVW 5 "a"] ∧
        ∀ x, x ∈ _list s' → value item ≤ value x
    end.
Proof.
  apply (push_hands_back_the_least (mkTopK 1 [mkVW 5 "a"]) 7 "b").
  intros i x p Hi Hx. destruct i as [|[|i]]; [lia | done | done].
Defined.

(** X13.  The selector holds items that were offered, each with the value
    it was offered with: after the offers of any stream to a new selector
    of any capacity (none is refused with an exception), the items held
    are, counted with repetitions, among the offers, and there are as many
    as the capacity allows. *)
Theorem selector_holds_offered_items {W : Type} (K : Z) (stream : list (Z * W)) :
  ∃ s, push_all (Top_K_init K) stream = Ok s ∧
    capacity s = K ∧
    _list s ⊆+ offered stream ∧
    length (_list s) = Nat.min (length stream) (Z.to_nat K).
Proof.
  destruct (push_all_items stream (Top_K_init K)) as (s & dropped & Hrun & Hcap & _ & Hperm).
  { intros i x p _ Hx. by destruct i. }
  destruct (push_all_inv K stream [] (Top_K_init K) (top_k_inv_init K))
    as (s' & Hrun' & _ & _ & Hlen & _).
  rewrite Hrun in Hrun'. injection Hrun' as <-.
  exists s. split_and!; [done | done | | done].
  simpl in Hperm. rewrite <- Hperm. by apply submseteq_inserts_r.
Qed.
(** ** The walk, step by step

    What one turn of each loop did, read off a run that returned. *)

Section walk_inversion.
Context (cfg : Config).

Lemma file_gate_inv root t f root0 t0 :
  file_gate cfg root t f = Ok (Some (root0, t0)) →
  stat_of root0 = stat_of root ∧ children root0 = children root ∧
  agg root0 = agg root ∧ ignore root0 = ignore root ∧
  dup_map t0 = dup_map t ∧ dup_set t0 = dup_set t ∧
  _level_reached t0 = _level_reached t ∧ stdout t0 = stdout t ∧
  ((top_mode cfg = None ∧ root0 = root ∧ t0 = t) ∨
   (∃ m v thr r h tv, top_mode cfg = Some m ∧ getattr_f f m = Some v ∧
      next_to_pop (top_heap t) = Ok thr ∧ Null.le (Some v) thr = false ∧
      push (top_heap t) v f = Ok (r, h) ∧ top_val root = Some tv ∧
      top_val root0 = Some (Null.max_of (Some v) tv) ∧ top_heap t0 = h)).
Proof.
  unfold file_gate. destruct (top_mode cfg) as [m|] eqn:Hm.
  - destruct (next_to_pop (top_heap t)) as [thr|] eqn:Hthr; [|done].
    cbn [mbind Res_bind].
    destruct (Null.le (getattr_f f m) thr) eqn:Hle; [done|].
    destruct (getattr_f f m) as [v|] eqn:Hv; [|done]. cbn [mbind Res_bind].
    destruct (push (top_heap t) v f) as [[r h]|] eqn:Hpush; [|done].
    cbn [mbind Res_bind]. unfold get_top_val.
    destruct (top_val root) as [tv|] eqn:Htv; [|done]. cbn [mbind Res_bind].
    intros [= <- <-]. split_and!; try done.
    right. by exists m, v, thr, r, h, tv.
  - intros [= <- <-]. split_and!; try done. by left.
Qed.

Lemma file_step_inv root t f root1 t1 :
  file_step cfg root t f = Ok (root1, t1) →
  (root1 = root ∧ t1 = t ∧
   ∃ m thr, top_mode cfg = Some m ∧ next_to_pop (top_heap t) = Ok thr ∧
     Null.le (getattr_f f m) thr = true) ∨
  (∃ root0 t0 cs a,
     file_gate cfg root t f = Ok (Some (root0, t0)) ∧
     children root = Some cs ∧ agg root = Some a ∧
     children root1 = Some (cs ++ [f]) ∧ agg root1 = Some (agg_file cfg a f) ∧
     stat_of root1 = stat_of root ∧ ignore root1 = ignore root ∧
     top_val root1 = top_val root0 ∧
     t1 = (if dup_mode cfg then dup_record cfg f t0 else t0)).
Proof.
  unfold file_step.
  destruct (file_gate cfg root t f) as [[[root0 t0]|]|] eqn:Hgate;
    cbn [mbind Res_bind]; [| |done].
  - pose proof (file_gate_inv _ _ _ _ _ Hgate) as (Hs & Hc & Ha & Hi & _).
    unfold file_link, children_add, get_agg.
    destruct (children root0) as [cs|] eqn:Hcs; [|done]. cbn [mbind Res_bind].
    change (agg (set_children root0 (Some (cs ++ [f])))) with (agg root0).
    destruct (agg root0) as [a|] eqn:Hagg; [|done]. cbn [mbind Res_bind].
    intros [= <- <-]. right. exists root0, t0, cs, a.
    split_and!; try done; congruence.
  - intros [= <- <-]. left. split_and!; try done.
    unfold file_gate in Hgate. destruct (top_mode cfg) as [m|]; [|done].
    destruct (next_to_pop (top_heap t)) as [thr|]; [|done].
    cbn [mbind Res_bind] in Hgate.
    destruct (Null.le (getattr_f f m) thr) eqn:Hle; [by exists m, thr|].
    destruct (getattr_f f m); [|done]. cbn [mbind Res_bind] in Hgate.
    destruct (push _ _ _) as [[? ?]|]; [|done]. cbn [mbind Res_bind] in Hgate.
    by destruct (get_top_val root).
Qed.

Lemma dir_enter_inv level d walk t d1 t1 :
  dir_enter cfg level d walk t = Ok (d1, t1) →
  (level < access_level cfg ∧ walk (level + 1) d t = Ok (d1, t1)) ∨
  (access_level cfg ≤ level ∧ d1 = truncate d ∧ t1 = t).
Proof.
  unfold dir_enter. destruct (Z.ltb_spec level (access_level cfg)).
  - by left.
  - intros [= <- <-]. by right.
Qed.

Lemma dir_gate_inv root d1 t1 root0 :
  dir_gate cfg root d1 t1 = Ok (Some root0) →
  stat_of root0 = stat_of root ∧ children root0 = children root ∧
  agg root0 = agg root ∧ ignore root0 = ignore root ∧
  ((top_mode cfg = None ∧ root0 = root) ∨
   (∃ m dv thr tv, top_mode cfg = Some m ∧ top_val d1 = Some dv ∧
      next_to_pop (top_heap t1) = Ok thr ∧ Null.lt dv thr = false ∧
      top_val root = Some tv ∧ top_val root0 = Some (Null.max_of dv tv))).
Proof.
  unfold dir_gate, get_top_val. destruct (top_mode cfg) as [m|] eqn:Hm.
  - destruct (top_val d1) as [dv|] eqn:Hdv; [|done]. cbn [mbind Res_bind].
    destruct (next_to_pop (top_heap t1)) as [thr|] eqn:Hthr; [|done].
    cbn [mbind Res_bind].
    destruct (Null.lt dv thr) eqn:Hlt; [done|].
    destruct (top_val root) as [tv|] eqn:Htv; [|done]. cbn [mbind Res_bind].
    intros [= <-]. split_and!; try done. right. by exists m, dv, thr, tv.
  - intros [= <-]. split_and!; try done. by left.
Qed.

Lemma dir_step_inv level root t d walk root1 t1 :
  dir_step cfg level root t (d, walk) = Ok (root1, t1) →
  (is_link d = true ∧ t1 = t ∧
   ((always_show_dirs cfg = false ∧ root1 = root) ∨
    (always_show_dirs cfg = true ∧ ∃ cs a,
       children root = Some cs ∧ agg root = Some a ∧
       children root1 = Some (cs ++ [d]) ∧
       agg root1 = Some (mkAgg (fcount a) (dcount a + 1) (blines a) (rlines a)
                           (bsize a) (rsize a) (batime a) (bbtime a) (bctime a)
                           (bmtime a)) ∧
       stat_of root1 = stat_of root ∧ ignore root1 = ignore root ∧
       top_val root1 = top_val root))) ∨
  (is_link d = false ∧ ∃ d1,
     dir_enter cfg level d walk t = Ok (d1, t1) ∧
     ((root1 = root ∧
       (dir_pruned cfg d1 = Ok true ∨
        (dir_pruned cfg d1 = Ok false ∧ dir_gate cfg root d1 t1 = Ok None))) ∨
      (dir_pruned cfg d1 = Ok false ∧ ∃ root0 cs a da,
         dir_gate cfg root d1 t1 = Ok (Some root0) ∧
         children root = Some cs ∧ agg root = Some a ∧ agg d1 = Some da ∧
         children root1 = Some (cs ++ [d1]) ∧ agg root1 = Some (agg_dir a da) ∧
         stat_of root1 = stat_of root ∧ ignore root1 = ignore root ∧
         top_val root1 = top_val root0))).
Proof.
  unfold dir_step. cbn [fst snd]. destruct (is_link d) eqn:Hlink.
  - destruct (always_show_dirs cfg) eqn:Halways.
    + unfold children_add, get_agg.
      destruct (children root) as [cs|] eqn:Hcs; [|done]. cbn [mbind Res_bind].
      change (agg (set_children root (Some (cs ++ [d])))) with (agg root).
      destruct (agg root) as [a|] eqn:Ha; [|done]. cbn [mbind Res_bind].
      intros [= <- <-]. left. split_and!; try done. right.
      split; [done|]. by exists cs, a.
    + intros [= <- <-]. left. split_and!; try done. by left.
  - destruct (dir_enter cfg level d walk t) as [[d1 t0]|] eqn:Henter; [|done].
    cbn [mbind Res_bind].
    destruct (dir_pruned cfg d1) as [pruned|] eqn:Hpruned; [|done].
    cbn [mbind Res_bind]. destruct pruned.
    { intros [= <- <-]. right. split; [done|]. exists d1. split; [done|].
      left. split; [done|]. by left. }
    destruct (dir_gate cfg root d1 t0) as [[root0|]|] eqn:Hgate;
      cbn [mbind Res_bind]; [| |done].
    + pose proof (dir_gate_inv _ _ _ _ Hgate) as (Hs & Hc & Ha & Hi & _).
      unfold dir_link, children_add, get_agg.
      destruct (children root0) as [cs|] eqn:Hcs; [|done]. cbn [mbind Res_bind].
      change (agg (set_children root0 (Some (cs ++ [d1])))) with (agg root0).
      destruct (agg root0) as [a|] eqn:Hagg; [|done]. cbn [mbind Res_bind].
      destruct (agg d1) as [da|] eqn:Hda; [|done]. cbn [mbind Res_bind].
      intros [= <- <-]. right. split; [done|]. exists d1. split; [done|].
      right. split; [done|]. exists root0, cs, a, da.
      split_and!; try done; congruence.
    + intros [= <- <-]. right. split; [done|]. exists d1. split; [done|].
      left. split; [done|]. by right.
Qed.
End walk_inversion.
(** ** The aggregates are counted on the tree *)

Lemma null_max_of_None_l (a : option Z) : Null.max_of None a = a.
Proof. by destruct a. Qed.

Lemma null_max_of_None_r (a : option Z) : Null.max_of a None = a.
Proof. by destruct a. Qed.

Lemma null_add_None_l (a : option Z) : Null.add None a = a.
Proof. by destruct a. Qed.

Lemma null_add_None_r (a : option Z) : Null.add a None = a.
Proof. by destruct a. Qed.

Lemma null_add_Some (x y : Z) : Null.add (Some x) (Some y) = Some (x + y).
Proof. reflexivity. Qed.

Lemma null_max_of_comm (a b : option Z) : Null.max_of a b = Null.max_of b a.
Proof.
  destruct a as [x|], b as [y|];
    rewrite ?null_max_of_None_l, ?null_max_of_None_r, ?max_of_Some; try done.
  f_equal; lia.
Qed.

Lemma null_max_of_assoc (a b c : option Z) :
  Null.max_of a (Null.max_of b c) = Null.max_of (Null.max_of a b) c.
Proof.
  destruct a as [x|], b as [y|], c as [z|];
    rewrite ?null_max_of_None_l, ?null_max_of_None_r, ?max_of_Some; try done.
  f_equal; lia.
Qed.

Lemma null_add_comm (a b : option Z) : Null.add a b = Null.add b a.
Proof.
  destruct a as [x|], b as [y|];
    rewrite ?null_add_None_l, ?null_add_None_r, ?null_add_Some; try done.
  f_equal; lia.
Qed.

Lemma null_add_assoc (a b c : option Z) :
  Null.add a (Null.add b c) = Null.add (Null.add a b) c.
Proof.
  destruct a as [x|], b as [y|], c as [z|];
    rewrite ?null_add_None_l, ?null_add_None_r, ?null_add_Some; try done.
  f_equal; lia.
Qed.

Lemma null_max_app (l1 l2 : list (option Z)) :
  null_max (l1 ++ l2) = Null.max_of (null_max l1) (null_max l2).
Proof.
  induction l1 as [|a l1 IH]; simpl.
  - by destruct (null_max l2).
  - unfold null_max in *. simpl. by rewrite IH, null_max_of_assoc.
Qed.

Lemma null_sum_app (l1 l2 : list (option Z)) :
  null_sum (l1 ++ l2) = Null.add (null_sum l1) (null_sum l2).
Proof.
  induction l1 as [|a l1 IH]; simpl.
  - by destruct (null_sum l2).
  - unfold null_sum in *. simpl. by rewrite IH, null_add_assoc.
Qed.

Lemma null_sum_None (l : list (option Z)) : null_sum l = None → null_max l = None.
Proof.
  induction l as [|a l IH]; [done|]. unfold null_sum, null_max in *. simpl.
  destruct a as [x|], (foldr Null.add None l); try done.
  intros _. by rewrite IH.
Qed.

Lemma null_max_single (a : option Z) : null_max [a] = a.
Proof. apply null_max_of_None_r. Qed.

Lemma null_sum_single (a : option Z) : null_sum [a] = a.
Proof. apply null_add_None_r. Qed.

Lemma sum_sizes_single (f : Node) : sum_sizes [f] = size f.
Proof. unfold sum_sizes. simpl. lia. Qed.

Lemma sum_sizes_cons (c : Node) (l : list Node) :
  sum_sizes (c :: l) = size c + sum_sizes l.
Proof. reflexivity. Qed.

Lemma sum_sizes_app (l1 l2 : list Node) :
  sum_sizes (l1 ++ l2) = sum_sizes l1 + sum_sizes l2.
Proof. induction l1 as [|c l1 IH]; simpl; [lia|]. unfold sum_sizes in *. simpl. lia. Qed.

Lemma best_over_max (get : Node → Z) (x y : Z) (l : list Node) :
  best_over get (Z.max x y) l = Z.max x (best_over get y l).
Proof. induction l as [|c l IH]; simpl; [done|]. unfold best_over in *. simpl. lia. Qed.

Lemma best_over_app (get : Node → Z) (own : Z) (l1 l2 : list Node) (c : Node) :
  best_over get own (l1 ++ c :: l2) =
  Z.max (best_over get (get c) l2) (best_over get own l1).
Proof.
  induction l1 as [|b l1 IH].
  - simpl. change (foldr _ own l2) with (best_over get own l2).
    rewrite <- (best_over_max get (get c) own l2), (Z.max_comm (get c) own),
      (best_over_max get own (get c) l2). lia.
  - unfold best_over in *. simpl. lia.
Qed.

Lemma best_over_snoc (get : Node → Z) (own : Z) (l : list Node) (c : Node) :
  best_over get own (l ++ [c]) = Z.max (get c) (best_over get own l).
Proof. apply (best_over_app get own l [] c). Qed.

Lemma tree_below_eq (n : Node) (cs : list Node) :
  children n = Some cs → tree_below n = concat (map tree_nodes cs).
Proof. unfold tree_below. by intros ->. Qed.

Lemma tree_nodes_eq (n : Node) : tree_nodes n = n :: tree_below n.
Proof. by destruct n. Qed.

Lemma tree_below_snoc (n n1 c : Node) (cs : list Node) :
  children n = Some cs → children n1 = Some (cs ++ [c]) →
  tree_below n1 = tree_below n ++ c :: tree_below c.
Proof.
  intros Hn Hn1. rewrite (tree_below_eq n cs Hn), (tree_below_eq n1 _ Hn1).
  rewrite map_app, concat_app. simpl. by rewrite app_nil_r, tree_nodes_eq.
Qed.

(** [agg_of] reads the stats of the node only. *)
Lemma agg_of_stat (cfg : Config) (n n' : Node) (below : list Node) :
  stat_of n' = stat_of n → agg_of cfg n' below = agg_of cfg n below.
Proof.
  intros H. unfold agg_of.
  assert (size n' = size n) as -> by (by injection H).
  assert (atime n' = atime n) as -> by (by injection H).
  assert (btime n' = btime n) as -> by (by injection H).
  assert (ctime n' = ctime n) as -> by (by injection H).
  assert (mtime n' = mtime n) as -> by (by injection H).
  done.
Qed.

Section agg_counted.
Context (md5_hexdigest : string → string) (cfg : Config).

Lemma agg_of_nil (n : Node) : agg_of cfg n [] = own_agg n.
Proof.
  unfold agg_of, own_agg. simpl. destruct (read_lines cfg); f_equal; lia.
Qed.

(** One more file below. *)
Lemma agg_of_file (n f : Node) (below : list Node) :
  is_to_dir f = false →
  agg_file cfg (agg_of cfg n below) f = agg_of cfg n (below ++ [f]).
Proof.
  intros Hf. unfold agg_file, agg_of.
  assert (filter (λ c, negb (is_to_dir c)) (below ++ [f]) =
          filter (λ c, negb (is_to_dir c)) below ++ [f]) as ->.
  { rewrite filter_app, filter_cons, filter_nil. simpl. by rewrite Hf. }
  assert (filter (λ c, is_to_dir c) (below ++ [f]) =
          filter (λ c, is_to_dir c) below) as ->.
  { rewrite filter_app, filter_cons, filter_nil. simpl. rewrite Hf. simpl.
    by rewrite app_nil_r. }
  assert (filter (λ c, measured c) (below ++ [f]) =
          filter (λ c, measured c) below ++ [f]) as ->.
  { rewrite filter_app, filter_cons, filter_nil. unfold measured. simpl.
    by rewrite Hf. }
  cbn [fcount dcount blines rlines bsize rsize batime bbtime bctime bmtime].
  rewrite !length_app, !fmap_app, !best_over_snoc, !max_of_Some,
    sum_sizes_app, null_max_app, null_sum_app.
  cbn [length fmap list_fmap].
  rewrite null_max_single, null_sum_single, sum_sizes_single.
  rewrite (null_max_of_comm (null_max _)).
  destruct (read_lines cfg); f_equal; lia.
Qed.

(** One more link to a directory below. *)
Lemma agg_of_link (n d : Node) (below : list Node) :
  is_to_dir d = true → is_link d = true →
  (let a := agg_of cfg n below in
   mkAgg (fcount a) (dcount a + 1) (blines a) (rlines a) (bsize a) (rsize a)
     (batime a) (bbtime a) (bctime a) (bmtime a)) = agg_of cfg n (below ++ [d]).
Proof.
  intros Hd Hl. unfold agg_of.
  assert (filter (λ c, negb (is_to_dir c)) (below ++ [d]) =
          filter (λ c, negb (is_to_dir c)) below) as ->.
  { rewrite filter_app, filter_cons, filter_nil. simpl. rewrite Hd. simpl.
    by rewrite app_nil_r. }
  assert (filter (λ c, is_to_dir c) (below ++ [d]) =
          filter (λ c, is_to_dir c) below ++ [d]) as ->.
  { rewrite filter_app, filter_cons, filter_nil. simpl. by rewrite Hd. }
  assert (filter (λ c, measured c) (below ++ [d]) =
          filter (λ c, measured c) below) as ->.
  { rewrite filter_app, filter_cons, filter_nil. unfold measured. simpl.
    rewrite Hd, Hl. simpl. by rewrite app_nil_r. }
  cbn [fcount dcount blines rlines bsize rsize batime bbtime bctime bmtime].
  rewrite !length_app. cbn [length]. f_equal; lia.
Qed.

(** One more directory below, with what is below it. *)
Lemma agg_of_dir (n d : Node) (below below_d : list Node) :
  is_to_dir d = true → is_link d = false →
  agg_dir (agg_of cfg n below) (agg_of cfg d below_d) =
  agg_of cfg n (below ++ d :: below_d).
Proof.
  intros Hd Hl. unfold agg_dir, agg_of.
  assert (filter (λ c, negb (is_to_dir c)) (below ++ d :: below_d) =
          filter (λ c, negb (is_to_dir c)) below ++
          filter (λ c, negb (is_to_dir c)) below_d) as ->.
  { rewrite filter_app, filter_cons. simpl. by rewrite Hd. }
  assert (filter (λ c, is_to_dir c) (below ++ d :: below_d) =
          filter (λ c, is_to_dir c) below ++ d :: filter (λ c, is_to_dir c) below_d)
    as ->.
  { rewrite filter_app, filter_cons. simpl. by rewrite Hd. }
  assert (filter (λ c, measured c) (below ++ d :: below_d) =
          filter (λ c, measured c) below ++ d :: filter (λ c, measured c) below_d)
    as ->.
  { rewrite filter_app, filter_cons. unfold measured. simpl. by rewrite Hd, Hl. }
  cbn [fcount dcount blines rlines bsize rsize batime bbtime bctime bmtime].
  rewrite !length_app, !fmap_app, !best_over_app, !max_of_Some,
    sum_sizes_app, null_max_app, null_sum_app.
  cbn [length]. rewrite sum_sizes_cons.
  rewrite (null_max_of_comm (null_max (lines <$> filter _ below))).
  destruct (read_lines cfg).
  - destruct (null_sum (lines <$> filter (λ c, negb (is_to_dir c)) below_d)) eqn:Hsum.
    + rewrite bool_decide_eq_true_2 by done. f_equal; lia.
    + rewrite bool_decide_eq_false_2 by (by intros [? ?]).
      rewrite (null_sum_None _ Hsum).
      rewrite null_add_None_r, null_max_of_None_l.
      f_equal; lia.
  - rewrite bool_decide_eq_false_2 by (by intros [? ?]). f_equal; lia.
Qed.
End agg_counted.
Section walk_lists.
Context (md5_hexdigest : string → string) (cfg : Config).

(** The files and the directories that the two loops of [_gather] run on. *)
Lemma f_nodes_spec (p : string) (entries : list Entry) (f : Node) :
  f ∈ filter (λ n, negb (is_to_dir n) && fpred cfg n)
        (map (λ x, Node_init md5_hexdigest (path_join p (d_name (raw_of x)))
                     (Some p) (raw_of x)) entries) →
  is_to_dir f = false ∧ fpred cfg f = true ∧ children f = None ∧
  is_dir f = false ∧
  ∃ x, x ∈ entries ∧
    f = Node_init md5_hexdigest (path_join p (d_name (raw_of x))) (Some p) (raw_of x).
Proof.
  intros [Hp Hf]%list_elem_of_filter.
  apply list_elem_of_fmap in Hf as (x & -> & Hx).
  apply andb_prop_elim in Hp as [Hp Hq]. apply negb_prop_elim in Hp.
  assert (is_to_dir (Node_init md5_hexdigest (path_join p (d_name (raw_of x)))
            (Some p) (raw_of x)) = false) as Hnd by (by destruct (is_to_dir _)).
  pose proof (Node_init_not_to_dir _ _ _ _ Hnd) as Hdir.
  split_and!; [done | by apply Is_true_true | by apply Node_init_leaf | done |].
  by exists x.
Qed.

Lemma d_nodes_spec (p : string) (entries : list Entry) (d : Node) (walk : Walk) :
  (d, walk) ∈ filter (λ nw : Node * Walk, is_to_dir nw.1 && dpred cfg nw.1)
        (map (λ x, (Node_init md5_hexdigest (path_join p (d_name (raw_of x)))
                      (Some p) (raw_of x),
                    _gather md5_hexdigest cfg x)) entries) →
  is_to_dir d = true ∧ dpred cfg d = true ∧
  (is_link d = true → children d = None) ∧
  (is_link d = false → children d = Some []) ∧
  ∃ x, x ∈ entries ∧ walk = _gather md5_hexdigest cfg x ∧
    d = Node_init md5_hexdigest (path_join p (d_name (raw_of x))) (Some p) (raw_of x).
Proof.
  intros [Hp Hd]%list_elem_of_filter.
  apply list_elem_of_fmap in Hd as (x & Heq & Hx). injection Heq as -> ->.
  apply andb_prop_elim in Hp as [Hp Hq]. cbn [fst] in Hp, Hq.
  apply Is_true_true in Hp. apply Is_true_true in Hq.
  split_and!; [done | done | | |].
  - intros Hl. apply Node_init_leaf. by apply Node_init_link.
  - intros Hl. by apply Node_init_dir.
  - by exists x.
Qed.
End walk_lists.

Section walk_counted.
Context (md5_hexdigest : string → string) (cfg : Config).

Lemma file_step_counted root t f root1 t1 cs :
  file_step cfg root t f = Ok (root1, t1) →
  children root = Some cs → agg_counted cfg root →
  is_to_dir f = false → children f = None →
  (∃ cs1, children root1 = Some cs1) ∧ agg_counted cfg root1.
Proof.
  intros Hstep Hcs Hagg Hf Hleaf.
  destruct (file_step_inv _ _ _ _ _ _ Hstep)
    as [(-> & -> & _)|(root0 & t0 & cs' & a & _ & Hcs' & Ha & Hc1 & Ha1 & Hs & _)];
    [by eauto|].
  split; [by eauto|]. unfold agg_counted in *.
  rewrite Ha1, (tree_below_snoc root root1 f cs') by done.
  assert (tree_below f = []) as -> by (unfold tree_below; by rewrite Hleaf).
  rewrite Hagg in Ha. injection Ha as <-.
  by rewrite agg_of_file, (agg_of_stat cfg root1 root).
Qed.

Lemma files_loop_counted : ∀ fs root t root1 t1 cs,
  files_loop cfg fs root t = Ok (root1, t1) →
  children root = Some cs → agg_counted cfg root →
  Forall (λ f, is_to_dir f = false ∧ children f = None) fs →
  (∃ cs1, children root1 = Some cs1) ∧ agg_counted cfg root1.
Proof.
  induction fs as [|f fs IH]; intros root t root1 t1 cs Hloop Hcs Hagg Hall;
    simpl in Hloop.
  - injection Hloop as <- <-. by eauto.
  - destruct (file_step cfg root t f) as [[root0 t0]|] eqn:Hstep;
      cbn [mbind Res_bind] in Hloop; [|done].
    apply Forall_cons in Hall as [[Hf Hleaf] Hall].
    destruct (file_step_counted _ _ _ _ _ _ Hstep Hcs Hagg Hf Hleaf) as [[cs0 Hcs0] Hagg0].
    by apply (IH _ _ _ _ _ Hloop Hcs0 Hagg0).
Qed.

Lemma truncate_counted d : children d = Some [] → agg_counted cfg (truncate d).
Proof.
  intros Hc. unfold agg_counted, tree_below.
  change (children (truncate d)) with (children d). rewrite Hc. simpl.
  by rewrite agg_of_nil.
Qed.

Lemma dir_step_counted level root t d walk root1 t1 cs :
  dir_step cfg level root t (d, walk) = Ok (root1, t1) →
  children root = Some cs → agg_counted cfg root →
  is_to_dir d = true →
  (is_link d = true → children d = None) →
  (is_link d = false → children d = Some []) →
  walk_keeps_stat walk → walk_counts cfg walk →
  (∃ cs1, children root1 = Some cs1) ∧ agg_counted cfg root1.
Proof.
  intros Hstep Hcs Hagg Hd Hlinkc Hdirc Hkeep Hcounts.
  destruct (dir_step_inv _ _ _ _ _ _ _ _ Hstep)
    as [(Hlink & -> & [[_ ->]|(_ & cs' & a & Hcs' & Ha & Hc1 & Ha1 & Hs & _)])
       |(Hlink & d1 & Henter & [[-> _]|(_ & root0 & cs' & a & da & _ & Hcs' & Ha & Hda
                                          & Hc1 & Ha1 & Hs & _)])];
    try (by eauto).
  - split; [by eauto|]. unfold agg_counted in *.
    rewrite Ha1, (tree_below_snoc root root1 d cs') by done.
    assert (tree_below d = []) as -> by (unfold tree_below; by rewrite Hlinkc).
    rewrite Hagg in Ha. injection Ha as <-.
    by rewrite (agg_of_link cfg root d), (agg_of_stat cfg root1 root).
  - split; [by eauto|].
    assert (stat_of d1 = stat_of d ∧ agg_counted cfg d1) as [Hsd Hcd].
    { destruct (dir_enter_inv _ _ _ _ _ _ _ Henter) as [[_ Hwalk]|(_ & -> & ->)].
      - split; [by eapply Hkeep | eapply Hcounts; eauto].
      - split; [done | by apply truncate_counted; auto]. }
    assert (is_to_dir d1 = true ∧ is_link d1 = false) as [Hd1 Hl1].
    { split; [transitivity (is_to_dir d) | transitivity (is_link d)]; try done;
        by injection Hsd. }
    unfold agg_counted in *.
    rewrite Ha1, (tree_below_snoc root root1 d1 cs') by done.
    rewrite Hagg in Ha. injection Ha as <-.
    rewrite Hcd in Hda. injection Hda as <-.
    by rewrite agg_of_dir, (agg_of_stat cfg root1 root).
Qed.

Lemma dirs_loop_counted level : ∀ ds root t root1 t1 cs,
  dirs_loop cfg level ds root t = Ok (root1, t1) →
  children root = Some cs → agg_counted cfg root →
  Forall (λ dw : Node * Walk,
            is_to_dir dw.1 = true ∧
            (is_link dw.1 = true → children dw.1 = None) ∧
            (is_link dw.1 = false → children dw.1 = Some []) ∧
            walk_keeps_stat dw.2 ∧ walk_counts cfg dw.2) ds →
  (∃ cs1, children root1 = Some cs1) ∧ agg_counted cfg root1.
Proof.
  induction ds as [|[d walk] ds IH]; intros root t root1 t1 cs Hloop Hcs Hagg Hall;
    simpl in Hloop.
  - injection Hloop as <- <-. by eauto.
  - destruct (dir_step cfg level root t (d, walk)) as [[root0 t0]|] eqn:Hstep;
      cbn [mbind Res_bind] in Hloop; [|done].
    apply Forall_cons in Hall as [(Hd & Hlc & Hdc & Hkeep & Hcounts) Hall].
    destruct (dir_step_counted _ _ _ _ _ _ _ _ Hstep Hcs Hagg Hd Hlc Hdc Hkeep Hcounts)
      as [[cs0 Hcs0] Hagg0].
    by apply (IH _ _ _ _ _ Hloop Hcs0 Hagg0).
Qed.

Lemma _gather_counts : ∀ e, walk_counts cfg (_gather md5_hexdigest cfg e).
Proof.
  apply Entry_nested_ind.
  intros r err entries IH level root t D t' Hrun Hfresh.
  rewrite _gather_eq in Hrun. cbv zeta in Hrun.
  pose proof (gather_enter_result cfg level root t) as (Hs1 & Hc1 & Ha1).
  destruct (gather_enter cfg level root t) as [root1 t1]. cbn [fst snd] in *.
  rewrite Hfresh in Hc1.
  assert (agg_counted cfg root1) as Hagg1.
  { unfold agg_counted, tree_below. rewrite Hc1, Ha1. cbn [map concat].
    rewrite (agg_of_stat cfg root root1) by done. by rewrite agg_of_nil. }
  destruct err as [message|]; [by injection Hrun as <- <-|].
  destruct (files_loop _ _ _ _) as [[root2 t2]|] eqn:Hfl;
    cbn [mbind Res_bind] in Hrun; [|done].
  destruct (files_loop_counted _ _ _ _ _ _ Hfl Hc1 Hagg1) as [[cs2 Hc2] Hagg2].
  { apply Forall_forall. intros f Hf.
    by destruct (f_nodes_spec md5_hexdigest cfg _ _ _ Hf) as (? & _ & ? & _). }
  apply (dirs_loop_counted _ _ _ _ _ _ _ Hrun Hc2 Hagg2).
  apply Forall_forall. intros [d walk] Hd.
  destruct (d_nodes_spec md5_hexdigest cfg _ _ _ _ Hd)
    as (Hdir & _ & Hlc & Hdc & x & Hx & -> & _).
  split_and!; try done.
  - apply _gather_keeps_stat.
  - rewrite Forall_forall in IH. by apply IH.
Qed.
End walk_counted.
Lemma best_over_is_best (get : Node → Z) (n : Node) :
  is_best get n (best_over get (get n) (filter (λ c, measured c) (tree_below n))).
Proof.
  unfold is_best. generalize (tree_below n) as l. intros l.
  induction l as [|c l (IH1 & IH2 & IH3)].
  - simpl. split_and!; [lia | by intros c ?%elem_of_nil | by left].
  - rewrite filter_cons. destruct (measured c) eqn:Hc; simpl.
    + change (foldr _ (get n) (filter _ l))
        with (best_over get (get n) (filter (λ c, measured c) l)).
      split_and!; [lia | |].
      * intros c' [->|Hc']%elem_of_cons Hm; [lia|]. specialize (IH2 c' Hc' Hm). lia.
      * destruct (Z.max_spec (get c)
                    (best_over get (get n) (filter (λ c, measured c) l)))
          as [[_ ->]|[_ ->]].
        -- destruct IH3 as [->|(c' & Hc' & Hm & ->)]; [by left|].
           right. exists c'. split_and!; [by apply list_elem_of_further | done | done].
        -- right. exists c. split_and!; [apply list_elem_of_here | done | done].
    + split_and!; [done | |].
      * intros c' [->|Hc']%elem_of_cons Hm; [congruence | by apply IH2].
      * destruct IH3 as [->|(c' & Hc' & Hm & ->)]; [by left|].
        right. exists c'. split_and!; [by apply list_elem_of_further | done | done].
Qed.

Lemma null_sum_spec (l : list (option Z)) :
  match null_sum l with
  | Some s => s = foldr (λ a acc, default 0 a + acc) 0 l ∧ ∃ x, Some x ∈ l
  | None => ∀ a, a ∈ l → a = None
  end.
Proof.
  induction l as [|a l IH]; [by intros a ?%elem_of_nil|].
  unfold null_sum in *. simpl. destruct (foldr Null.add None l) as [s|].
  - destruct IH as [-> [x Hx]]. destruct a as [y|]; rewrite ?null_add_Some, ?null_add_None_l.
    + split; [done|]. exists y. apply list_elem_of_here.
    + split; [simpl; lia|]. exists x. by apply list_elem_of_further.
  - destruct a as [y|]; rewrite ?null_add_None_r.
    + split; [|exists y; apply list_elem_of_here]. simpl.
      assert (foldr (λ a acc, default 0 a + acc) 0 l = 0) as ->; [|lia].
      clear -IH. induction l as [|b l IHl]; [done|]. simpl.
      rewrite (IH b) by apply list_elem_of_here. simpl. apply IHl.
      intros; apply IH. by apply list_elem_of_further.
    + intros b [->|Hb]%elem_of_cons; [done | by apply IH].
Qed.

Lemma null_max_spec (l : list (option Z)) :
  match null_max l with
  | Some m => Some m ∈ l ∧ ∀ x, Some x ∈ l → x ≤ m
  | None => ∀ a, a ∈ l → a = None
  end.
Proof.
  induction l as [|a l IH]; [by intros a ?%elem_of_nil|].
  unfold null_max in *. simpl. destruct (foldr Null.max_of None l) as [m|].
  - destruct IH as [Hm Hall].
    destruct a as [y|]; rewrite ?max_of_Some, ?null_max_of_None_l.
    + split.
      * destruct (Z.max_spec y m) as [[_ ->]|[_ ->]];
          [by apply list_elem_of_further | apply list_elem_of_here].
      * intros x [[= ->]|Hx]%elem_of_cons; [lia|]. specialize (Hall x Hx). lia.
    + split; [by apply list_elem_of_further|].
      intros x [[=]|Hx]%elem_of_cons. by apply Hall.
  - destruct a as [y|]; rewrite ?null_max_of_None_r.
    + split; [apply list_elem_of_here|].
      intros x [[= ->]|Hx]%elem_of_cons; [lia|]. by specialize (IH _ Hx).
    + intros b [->|Hb]%elem_of_cons; [done | by apply IH].
Qed.

(** X14.  The counts and the total size that [_gather] leaves on a
    directory are those of the tree it built below it: [fcount] is the
    number of files anywhere below, [dcount] the number of directories and
    links to directories anywhere below, and [rsize] the directory's own
    size plus the sizes of all the nodes below it that are not links to
    directories. *)
Theorem aggregates_count_the_tree (md5_hexdigest : string → string) (cfg : Config)
    (e : Entry) (level : Z) (root : Node) (t : Tree) (D : Node) (t' : Tree) :
  _gather md5_hexdigest cfg e level root t = Ok (D, t') →
  children root = Some [] →
  ∃ a, agg D = Some a ∧
    fcount a = Z.of_nat (length (files_below D)) ∧
    dcount a = Z.of_nat (length (filter (λ c, is_to_dir c) (tree_below D))) ∧
    rsize a = size D + sum_sizes (filter (λ c, measured c) (tree_below D)).
Proof.
  intros Hrun Hfresh.
  pose proof (_gather_counts md5_hexdigest cfg e level root t D t' Hrun Hfresh) as Ha.
  eexists. split; [exact Ha|]. done.
Qed.

Lemma aggregates_count_the_tree_witness :
  ∃ D t' a,
    _build toy_md5 cfg_plain "root" fs_scenario (Tree_init 1) = Ok (D, t') ∧
    agg D = Some a ∧ fcount a = 3 ∧ dcount a = 1 ∧ rsize a = 250.
Proof.
  destruct (aggregates_count_the_tree toy_md5 cfg_plain fs_scenario 1
              (Node_init toy_md5 "root" None (raw_of fs_scenario)) (Tree_init 1) _ _
              ltac:(vm_compute; reflexivity) eq_refl) as (a & Ha & Hf & Hd & Hr).
  eexists _, _, a. split; [vm_compute; reflexivity|]. split; [exact Ha|].
  rewrite Hf, Hd, Hr. vm_compute. done.
Defined.

(** X15.  The best size and the best times that [_gather] leaves on a
    directory are maxima over the tree it built: each is the largest value
    among the directory itself and all the nodes below it that are not
    links to directories, and it is the value of one of them. *)
Theorem best_aggregates_are_maxima (md5_hexdigest : string → string) (cfg : Config)
    (e : Entry) (level : Z) (root : Node) (t : Tree) (D : Node) (t' : Tree) :
  _gather md5_hexdigest cfg e level root t = Ok (D, t') →
  children root = Some [] →
  ∃ a ms ma mb mc mm, agg D = Some a ∧
    bsize a = Some ms ∧ is_best size D ms ∧
    batime a = Some ma ∧ is_best atime D ma ∧
    bbtime a = Some mb ∧ is_best btime D mb ∧
    bctime a = Some mc ∧ is_best ctime D mc ∧
    bmtime a = Some mm ∧ is_best mtime D mm.
Proof.
  intros Hrun Hfresh.
  pose proof (_gather_counts md5_hexdigest cfg e level root t D t' Hrun Hfresh) as Ha.
  eexists _, _, _, _, _, _. split; [exact Ha|].
  split_and!; try reflexivity; apply best_over_is_best.
Qed.

Lemma best_aggregates_are_maxima_witness :
  ∃ D t' a m,
    _build toy_md5 cfg_plain "r" fs_nested (Tree_init 1) = Ok (D, t') ∧
    agg D = Some a ∧ bsize a = Some m ∧ is_best size D m.
Proof.
  destruct (best_aggregates_are_maxima toy_md5 cfg_plain fs_nested 1
              (Node_init toy_md5 "r" None (raw_of fs_nested)) (Tree_init 1) _ _
              ltac:(vm_compute; reflexivity) eq_refl)
    as (a & ms & ma & mb & mc & mm & Ha & Hs & Hbest & _).
  eexists _, _, a, ms. split; [vm_compute; reflexivity|]. by split_and!.
Defined.

(** X16.  The line counts that [_gather] leaves on a directory.  When line
    counts are not read both are [None].  When they are, [rlines] is the
    sum of the line counts of the files anywhere below that have one and
    [blines] is the largest of them; both are [None] exactly when no file
    below has a line count. *)
Theorem line_aggregates_over_the_tree (md5_hexdigest : string → string)
    (cfg : Config) (e : Entry) (level : Z) (root : Node) (t : Tree) (D : Node)
    (t' : Tree) :
  _gather md5_hexdigest cfg e level root t = Ok (D, t') →
  children root = Some [] →
  ∃ a, agg D = Some a ∧
    (read_lines cfg = false → rlines a = None ∧ blines a = None) ∧
    (read_lines cfg = true →
       match rlines a with
       | Some s =>
           s = foldr (λ f acc, default 0 (lines f) + acc) 0 (files_below D) ∧
           ∃ m, blines a = Some m ∧
             (∃ f, f ∈ files_below D ∧ lines f = Some m) ∧
             ∀ f x, f ∈ files_below D → lines f = Some x → x ≤ m
       | None => blines a = None ∧ ∀ f, f ∈ files_below D → lines f = None
       end).
Proof.
  intros Hrun Hfresh.
  pose proof (_gather_counts md5_hexdigest cfg e level root t D t' Hrun Hfresh) as Ha.
  eexists. split; [exact Ha|]. cbn [rlines blines agg_of].
  fold (files_below D). split; [by intros ->|]. intros ->.
  pose proof (null_sum_spec (lines <$> files_below D)) as Hsum.
  pose proof (null_max_spec (lines <$> files_below D)) as Hmax.
  destruct (null_sum (lines <$> files_below D)) as [s|] eqn:Hs.
  - destruct Hsum as [-> [x Hx]]. split.
    { clear. induction (files_below D) as [|f l IH]; [done|]. simpl. f_equal. apply IH. }
    destruct (null_max (lines <$> files_below D)) as [m|].
    + destruct Hmax as [Hm Hall]. exists m. split; [done|]. split.
      * apply list_elem_of_fmap in Hm as (f & Hf & Hin). by exists f.
      * intros f y Hf Hy. apply Hall. rewrite <- Hy. by apply list_elem_of_fmap_2.
    + by specialize (Hmax _ Hx).
  - split; [by apply null_sum_None|].
    intros f Hf. apply Hsum. by apply list_elem_of_fmap_2.
Qed.

Lemma line_aggregates_over_the_tree_witness :
  ∃ D t' a,
    _build toy_md5 cfg_plain "root" fs_scenario (Tree_init 1) = Ok (D, t') ∧
    agg D = Some a ∧
    match rlines a with
    | Some s => s = foldr (λ f acc, default 0 (lines f) + acc) 0 (files_below D)
    | None => blines a = None
    end.
Proof.
  destruct (line_aggregates_over_the_tree toy_md5 cfg_plain fs_scenario 1
              (Node_init toy_md5 "root" None (raw_of fs_scenario)) (Tree_init 1) _ _
              ltac:(vm_compute; reflexivity) eq_refl) as (a & Ha & _ & Hlines).
  eexists _, _, a. split; [vm_compute; reflexivity|]. split; [exact Ha|].
  specialize (Hlines eq_refl). destruct (rlines a); by destruct Hlines.
Defined.
(** ** The level reached *)

Section walk_level.
Context (md5_hexdigest : string → string) (cfg : Config).

(** The duplicate block writes the grouper only. *)
Lemma dup_record_frame f t :
  top_heap (dup_record cfg f t) = top_heap t ∧
  _level_reached (dup_record cfg f t) = _level_reached t ∧
  stdout (dup_record cfg f t) = stdout t.
Proof.
  unfold dup_record. destruct (negb _ || negb _); [|done].
  destruct (md5 f) as [c|]; [|done].
  destruct (dup_map t !! Some c); [|done]. by destruct (truthy (Some c)).
Qed.

Lemma file_step_level root t f root1 t1 :
  file_step cfg root t f = Ok (root1, t1) → _level_reached t1 = _level_reached t.
Proof.
  intros Hstep.
  destruct (file_step_inv _ _ _ _ _ _ Hstep)
    as [(_ & -> & _)|(root0 & t0 & cs & a & Hgate & _ & _ & _ & _ & _ & _ & _ & ->)];
    [done|].
  pose proof (file_gate_inv _ _ _ _ _ _ Hgate) as (_ & _ & _ & _ & _ & _ & Hl & _).
  destruct (dup_mode cfg); [|done].
  by destruct (dup_record_frame f t0) as (_ & -> & _).
Qed.

Lemma files_loop_level : ∀ fs root t root1 t1,
  files_loop cfg fs root t = Ok (root1, t1) → _level_reached t1 = _level_reached t.
Proof.
  induction fs as [|f fs IH]; intros root t root1 t1 Hloop; simpl in Hloop.
  - by injection Hloop as <- <-.
  - destruct (file_step cfg root t f) as [[root0 t0]|] eqn:Hstep;
      cbn [mbind Res_bind] in Hloop; [|done].
    apply file_step_level in Hstep. apply IH in Hloop. congruence.
Qed.

Lemma dir_step_level level root t d walk root1 t1 :
  dir_step cfg level root t (d, walk) = Ok (root1, t1) → walk_level cfg walk →
  _level_reached t ≤ _level_reached t1 ∧
  _level_reached t1 ≤ Z.max (Z.max level (access_level cfg)) (_level_reached t).
Proof.
  intros Hstep Hwalk.
  destruct (dir_step_inv _ _ _ _ _ _ _ _ Hstep)
    as [(_ & -> & _)|(_ & d1 & Henter & _)]; [lia|].
  destruct (dir_enter_inv _ _ _ _ _ _ _ Henter) as [[Hlt Hrun]|(_ & _ & ->)]; [|lia].
  destruct (Hwalk _ _ _ _ _ Hrun) as [Hlo Hhi]. lia.
Qed.

Lemma dirs_loop_level level : ∀ ds root t root1 t1,
  dirs_loop cfg level ds root t = Ok (root1, t1) →
  Forall (λ dw : Node * Walk, walk_level cfg dw.2) ds →
  _level_reached t ≤ _level_reached t1 ∧
  _level_reached t1 ≤ Z.max (Z.max level (access_level cfg)) (_level_reached t).
Proof.
  induction ds as [|[d walk] ds IH]; intros root t root1 t1 Hloop Hall; simpl in Hloop.
  - injection Hloop as <- <-. lia.
  - destruct (dir_step cfg level root t (d, walk)) as [[root0 t0]|] eqn:Hstep;
      cbn [mbind Res_bind] in Hloop; [|done].
    apply Forall_cons in Hall as [Hwalk Hall].
    pose proof (dir_step_level _ _ _ _ _ _ _ Hstep Hwalk).
    pose proof (IH _ _ _ _ Hloop Hall). lia.
Qed.

Lemma _gather_level : ∀ e, walk_level cfg (_gather md5_hexdigest cfg e).
Proof.
  apply Entry_nested_ind.
  intros r err entries IH level root t D t' Hrun.
  rewrite _gather_eq in Hrun. cbv zeta in Hrun.
  assert (_level_reached (gather_enter cfg level root t).2 =
          Z.max level (_level_reached t)) as Hl1.
  { unfold gather_enter. by destruct (no_progress cfg), (top_mode cfg). }
  destruct (gather_enter cfg level root t) as [root1 t1]. cbn [fst snd] in *.
  unfold level_bounded. destruct err as [message|].
  { injection Hrun as <- <-.
    assert (_level_reached (warning_print cfg t1 message) = _level_reached t1) as ->
      by (unfold warning_print; by destruct (WARNINGS_ON cfg)).
    lia. }
  destruct (files_loop _ _ _ _) as [[root2 t2]|] eqn:Hfl;
    cbn [mbind Res_bind] in Hrun; [|done].
  apply files_loop_level in Hfl.
  apply dirs_loop_level in Hrun; [lia|].
  apply Forall_forall. intros [d walk] Hd.
  destruct (d_nodes_spec md5_hexdigest cfg _ _ _ _ Hd)
    as (_ & _ & _ & _ & x & Hx & -> & _).
  rewrite Forall_forall in IH. by apply IH.
Qed.
End walk_level.

(** X17.  The deepest level reached.  A walk started at [level] leaves
    [_level_reached] at [level] at least, never lowers it, and raises it to
    the access level at most (a walk started beyond the access level lists
    its own directory only). *)
Theorem level_reached_within_access_level (md5_hexdigest : string → string)
    (cfg : Config) (e : Entry) (level : Z) (root : Node) (t : Tree) (D : Node)
    (t' : Tree) :
  _gather md5_hexdigest cfg e level root t = Ok (D, t') →
  Z.max level (_level_reached t) ≤ _level_reached t' ∧
  _level_reached t' ≤ Z.max (Z.max level (access_level cfg)) (_level_reached t).
Proof. apply _gather_level. Qed.

Lemma level_reached_within_access_level_witness :
  ∃ D t', _build toy_md5 cfg_level_1 "r" fs_nested (Tree_init 1) = Ok (D, t') ∧
    1 ≤ _level_reached t' ≤ 1.
Proof.
  pose proof (level_reached_within_access_level toy_md5 cfg_level_1 fs_nested 1
                (Node_init toy_md5 "r" None (raw_of fs_nested)) (Tree_init 1) _ _
                ltac:(vm_compute; reflexivity)) as H.
  eexists _, _. split; [vm_compute; reflexivity|]. exact H.
Defined.
(** ** The tree holds what passed the filters *)

Section walk_filters.
Context (md5_hexdigest : string → string) (cfg : Config).

Lemma dir_pruned_false d1 :
  dir_pruned cfg d1 = Ok false →
  dpost cfg d1 = true ∧
  (always_show_dirs cfg = false →
   ∃ a, agg d1 = Some a ∧ ¬ (fcount a = 0 ∧ dcount a = 0)).
Proof.
  unfold dir_pruned, get_agg. destruct (dpost cfg d1); [|done]. simpl.
  destruct (always_show_dirs cfg); [done|].
  destruct (agg d1) as [a|]; [|done]. cbn [mbind Res_bind]. intros [= Hp].
  split; [done|]. intros _. exists a. split; [done|]. intros [Hf Hd].
  by rewrite Hf, Hd in Hp.
Qed.

Lemma Node_init_as_created p father r :
  is_to_dir (Node_init md5_hexdigest p father r) = true →
  is_link (Node_init md5_hexdigest p father r) = false →
  as_created (Node_init md5_hexdigest p father r) = Node_init md5_hexdigest p father r.
Proof. unfold Node_init, as_created. simpl. by destruct (st_kind r) as [| |[]|]. Qed.

Lemma as_created_stat d d1 : stat_of d1 = stat_of d → as_created d1 = as_created d.
Proof. unfold as_created. by intros ->. Qed.

Lemma file_step_filtered root t f root1 t1 cs :
  file_step cfg root t f = Ok (root1, t1) →
  children root = Some cs →
  Forall (passed_filters cfg) (tree_below root) → counts_alive cfg root →
  is_to_dir f = false → children f = None → fpred cfg f = true →
  (∃ cs1, children root1 = Some cs1) ∧
  Forall (passed_filters cfg) (tree_below root1) ∧ counts_alive cfg root1.
Proof.
  intros Hstep Hcs Hall Halive Hf Hleaf Hpred.
  destruct (file_step_inv _ _ _ _ _ _ Hstep)
    as [(-> & -> & _)|(root0 & t0 & cs' & a & _ & Hcs' & Ha & Hc1 & Ha1 & Hs & _)];
    [by eauto|].
  split; [by eauto|]. split.
  - rewrite (tree_below_snoc root root1 f cs') by done.
    assert (tree_below f = []) as -> by (unfold tree_below; by rewrite Hleaf).
    apply Forall_app. split; [done|]. constructor; [|done].
    unfold passed_filters. by rewrite Hf.
  - intros Hno a1 Ha1'. rewrite Ha1 in Ha1'. injection Ha1' as <-.
    destruct (Halive Hno a Ha) as (H0 & H1 & _). simpl. lia.
Qed.

Lemma files_loop_filtered : ∀ fs root t root1 t1 cs,
  files_loop cfg fs root t = Ok (root1, t1) →
  children root = Some cs →
  Forall (passed_filters cfg) (tree_below root) → counts_alive cfg root →
  Forall (λ f, is_to_dir f = false ∧ children f = None ∧ fpred cfg f = true) fs →
  (∃ cs1, children root1 = Some cs1) ∧
  Forall (passed_filters cfg) (tree_below root1) ∧ counts_alive cfg root1.
Proof.
  induction fs as [|f fs IH]; intros root t root1 t1 cs Hloop Hcs Hadm Halive Hall;
    simpl in Hloop.
  - injection Hloop as <- <-. by eauto.
  - destruct (file_step cfg root t f) as [[root0 t0]|] eqn:Hstep;
      cbn [mbind Res_bind] in Hloop; [|done].
    apply Forall_cons in Hall as [(Hf & Hleaf & Hpred) Hall].
    destruct (file_step_filtered _ _ _ _ _ _ Hstep Hcs Hadm Halive Hf Hleaf Hpred)
      as ([cs0 Hcs0] & Hadm0 & Halive0).
    by apply (IH _ _ _ _ _ Hloop Hcs0 Hadm0 Halive0).
Qed.

Lemma dir_step_filtered level root t d walk root1 t1 cs :
  dir_step cfg level root t (d, walk) = Ok (root1, t1) →
  children root = Some cs →
  Forall (passed_filters cfg) (tree_below root) → counts_alive cfg root →
  is_to_dir d = true → dpred cfg d = true →
  (is_link d = true → children d = None) →
  (is_link d = false → children d = Some [] ∧ as_created d = d) →
  walk_keeps_stat walk → walk_filters cfg walk →
  (∃ cs1, children root1 = Some cs1) ∧
  Forall (passed_filters cfg) (tree_below root1) ∧ counts_alive cfg root1.
Proof.
  intros Hstep Hcs Hadm Halive Hd Hpred Hlinkc Hdirc Hkeep Hwalk.
  destruct (dir_step_inv _ _ _ _ _ _ _ _ Hstep)
    as [(Hlink & -> & [[_ ->]|(Halways & cs' & a & Hcs' & Ha & Hc1 & Ha1 & Hs & _)])
       |(Hlink & d1 & Henter & [[-> _]|(Hpruned & root0 & cs' & a & da & _ & Hcs' & Ha
                                          & Hda & Hc1 & Ha1 & Hs & _)])];
    try (by eauto).
  - split; [by eauto|]. split; [|intros Hno; congruence].
    rewrite (tree_below_snoc root root1 d cs') by done.
    assert (tree_below d = []) as -> by (unfold tree_below; by rewrite Hlinkc).
    apply Forall_app. split; [done|]. constructor; [|done].
    unfold passed_filters. by rewrite Hd, Hlink.
  - split; [by eauto|].
    destruct (Hdirc Hlink) as [Hfresh Hcreated].
    assert (stat_of d1 = stat_of d ∧ Forall (passed_filters cfg) (tree_below d1) ∧
            counts_alive cfg d1) as (Hsd & Hadm1 & Halive1).
    { destruct (dir_enter_inv _ _ _ _ _ _ _ Henter) as [[_ Hrun]|(_ & -> & ->)].
      - split; [by eapply Hkeep | by eapply Hwalk].
      - split; [done|]. split.
        + unfold tree_below. change (children (truncate d)) with (children d).
          by rewrite Hfresh.
        + intros _ a' [= <-]. simpl. lia. }
    assert (is_to_dir d1 = true ∧ is_link d1 = false) as [Hd1 Hl1].
    { split; [transitivity (is_to_dir d) | transitivity (is_link d)]; try done;
        by injection Hsd. }
    destruct (dir_pruned_false _ Hpruned) as [Hpost Hnonempty].
    split.
    + rewrite (tree_below_snoc root root1 d1 cs') by done.
      apply Forall_app. split; [done|]. constructor; [|done].
      unfold passed_filters. rewrite Hd1, Hl1. split_and!; [|done|].
      * by rewrite (as_created_stat d d1), Hcreated.
      * intros Hno. destruct (Hnonempty Hno) as (da' & Hda' & Hne).
        exists da'. split; [done|].
        destruct (Halive1 Hno da' Hda') as (H0 & H1 & H2). lia.
    + intros Hno a1 Ha1'. rewrite Ha1 in Ha1'. injection Ha1' as <-.
      destruct (Halive Hno a Ha) as (H0 & H1 & _).
      destruct (Hnonempty Hno) as (da' & Hda' & Hne).
      rewrite Hda in Hda'. injection Hda' as <-.
      destruct (Halive1 Hno da Hda) as (H0' & H1' & H2'). simpl. lia.
Qed.

Lemma dirs_loop_filtered level : ∀ ds root t root1 t1 cs,
  dirs_loop cfg level ds root t = Ok (root1, t1) →
  children root = Some cs →
  Forall (passed_filters cfg) (tree_below root) → counts_alive cfg root →
  Forall (λ dw : Node * Walk,
            is_to_dir dw.1 = true ∧ dpred cfg dw.1 = true ∧
            (is_link dw.1 = true → children dw.1 = None) ∧
            (is_link dw.1 = false → children dw.1 = Some [] ∧ as_created dw.1 = dw.1) ∧
            walk_keeps_stat dw.2 ∧ walk_filters cfg dw.2) ds →
  (∃ cs1, children root1 = Some cs1) ∧
  Forall (passed_filters cfg) (tree_below root1) ∧ counts_alive cfg root1.
Proof.
  induction ds as [|[d walk] ds IH]; intros root t root1 t1 cs Hloop Hcs Hadm Halive Hall;
    simpl in Hloop.
  - injection Hloop as <- <-. by eauto.
  - destruct (dir_step cfg level root t (d, walk)) as [[root0 t0]|] eqn:Hstep;
      cbn [mbind Res_bind] in Hloop; [|done].
    apply Forall_cons in Hall as [(Hd & Hp & Hlc & Hdc & Hkeep & Hwalk) Hall].
    destruct (dir_step_filtered _ _ _ _ _ _ _ _ Hstep Hcs Hadm Halive Hd Hp Hlc Hdc
                Hkeep Hwalk) as ([cs0 Hcs0] & Hadm0 & Halive0).
    by apply (IH _ _ _ _ _ Hloop Hcs0 Hadm0 Halive0).
Qed.

Lemma _gather_filtered : ∀ e, walk_filters cfg (_gather md5_hexdigest cfg e).
Proof.
  apply Entry_nested_ind.
  intros r err entries IH level root t D t' Hrun Hfresh.
  rewrite _gather_eq in Hrun. cbv zeta in Hrun.
  pose proof (gather_enter_result cfg level root t) as (Hs1 & Hc1 & Ha1).
  destruct (gather_enter cfg level root t) as [root1 t1]. cbn [fst snd] in *.
  rewrite Hfresh in Hc1.
  assert (Forall (passed_filters cfg) (tree_below root1)) as Hadm1
    by (unfold tree_below; by rewrite Hc1).
  assert (counts_alive cfg root1) as Halive1.
  { intros _ a Ha. rewrite Ha1 in Ha. injection Ha as <-. simpl. lia. }
  destruct err as [message|]; [by injection Hrun as <- <-|].
  destruct (files_loop _ _ _ _) as [[root2 t2]|] eqn:Hfl;
    cbn [mbind Res_bind] in Hrun; [|done].
  destruct (files_loop_filtered _ _ _ _ _ _ Hfl Hc1 Hadm1 Halive1)
    as ([cs2 Hc2] & Hadm2 & Halive2).
  { apply Forall_forall. intros f Hf.
    by destruct (f_nodes_spec md5_hexdigest cfg _ _ _ Hf) as (? & ? & ? & _). }
  destruct (dirs_loop_filtered _ _ _ _ _ _ _ Hrun Hc2 Hadm2 Halive2) as (_ & ? & ?);
    [|done].
  apply Forall_forall. intros [d walk] Hd.
  destruct (d_nodes_spec md5_hexdigest cfg _ _ _ _ Hd)
    as (Hdir & Hpred & Hlc & Hdc & x & Hx & -> & ->).
  split_and!; try done.
  - intros Hl. split; [by apply Hdc|]. by apply Node_init_as_created.
  - apply _gather_keeps_stat.
  - rewrite Forall_forall in IH. by apply IH.
Qed.
End walk_filters.

(** X18.  Every node of the tree that [_gather] built passed the filters.
    A file anywhere below the directory passed [fpred].  A link to a
    directory passed [dpred] and is there only when directories are always
    shown.  A directory passed [dpred] as it was created and [dpost] as its
    walk left it, and unless directories are always shown its file count
    is at least 1: no directory without a file below it is kept. *)
Theorem tree_holds_what_passed_the_filters (md5_hexdigest : string → string)
    (cfg : Config) (e : Entry) (level : Z) (root : Node) (t : Tree) (D : Node)
    (t' : Tree) :
  _gather md5_hexdigest cfg e level root t = Ok (D, t') →
  children root = Some [] →
  ∀ c, c ∈ tree_below D →
    (is_to_dir c = false → fpred cfg c = true) ∧
    (is_to_dir c = true → is_link c = true →
       dpred cfg c = true ∧ always_show_dirs cfg = true) ∧
    (is_to_dir c = true → is_link c = false →
       dpred cfg (as_created c) = true ∧ dpost cfg c = true ∧
       (always_show_dirs cfg = false → ∃ a, agg c = Some a ∧ 1 ≤ fcount a)).
Proof.
  intros Hrun Hfresh c Hc.
  destruct (_gather_filtered md5_hexdigest cfg e level root t D t' Hrun Hfresh) as [Hadm _].
  rewrite Forall_forall in Hadm. specialize (Hadm c Hc). unfold passed_filters in Hadm.
  destruct (is_to_dir c), (is_link c); split_and!; try done.
Qed.

Lemma tree_holds_what_passed_the_filters_witness :
  ∃ D t',
    _build toy_md5 cfg_plain "r" fs_nested (Tree_init 1) = Ok (D, t') ∧
    ∀ c, c ∈ tree_below D → is_to_dir c = true → is_link c = false →
      ∃ a, agg c = Some a ∧ 1 ≤ fcount a.
Proof.
  pose proof (tree_holds_what_passed_the_filters toy_md5 cfg_plain fs_nested 1
                (Node_init toy_md5 "r" None (raw_of fs_nested)) (Tree_init 1) _ _
                ltac:(vm_compute; reflexivity) eq_refl) as H.
  eexists _, _. split; [vm_compute; reflexivity|].
  intros c Hc Hd Hl. destruct (H c Hc) as (_ & _ & Hdir).
  destruct (Hdir Hd Hl) as (_ & _ & Ha). by apply Ha.
Defined.
(** ** The top-mode keeps the largest files *)

Lemma candidates_app (m : Metric) (fs1 fs2 : list Node) :
  candidates m (fs1 ++ fs2) = candidates m fs1 ++ candidates m fs2.
Proof. unfold candidates. apply omap_app. Qed.

Lemma candidates_values (m : Metric) (fs : list Node) :
  (candidates m fs).*1 = omap (λ f, getattr_f f m) fs.
Proof.
  induction fs as [|f fs IH]; [done|]. unfold candidates in *. simpl.
  destruct (getattr_f f m); simpl; [f_equal|]; exact IH.
Qed.

Lemma elem_of_candidates (m : Metric) (fs : list Node) (v : Z) (f : Node) :
  (v, f) ∈ candidates m fs ↔ f ∈ fs ∧ getattr_f f m = Some v.
Proof.
  unfold candidates. rewrite list_elem_of_omap. split.
  - intros (g & Hg & Hv). destruct (getattr_f g m) as [w|] eqn:Hw; [|done].
    injection Hv as <- <-. done.
  - intros [Hf Hv]. exists f. by rewrite Hv.
Qed.

Lemma offered_app {W : Type} (s1 s2 : list (Z * W)) :
  offered (s1 ++ s2) = offered s1 ++ offered s2.
Proof. unfold offered. apply fmap_app. Qed.

Section walk_selects.
Context (md5_hexdigest : string → string) (cfg : Config) (m : Metric).
Hypothesis top_on : top_mode cfg = Some m.

(** A file that the gate turns away would not have entered the selector. *)
Lemma heap_after_skip K stream t v f thr :
  heap_after K stream t → next_to_pop (top_heap t) = Ok thr →
  Null.le (Some v) thr = true →
  heap_after K (stream ++ [(v, f)]) t.
Proof.
  intros [(Hcap & Hok & Hlen & dropped & Hperm & Hdom) Hsub] Hthr Hle.
  unfold next_to_pop in Hthr. rewrite Hcap in Hthr.
  destruct (Z.ltb_spec (Z.of_nat (length (_list (top_heap t)))) K) as [Hroom|Hfull].
  { injection Hthr as <-. done. }
  destruct (_list (top_heap t)) as [|heap0 tl] eqn:Hl; [done|].
  cbn in Hthr. injection Hthr as <-. rewrite null_le_Some in Hle.
  apply Z.leb_le in Hle.
  split.
  - split_and!; [done | by rewrite Hl | |].
    + rewrite Hl, length_app. simpl in *. lia.
    + exists (dropped ++ [v]). unfold held in *. rewrite Hl in *. split.
      * rewrite fmap_app, Hperm. simpl. by rewrite app_assoc.
      * intros d x [Hd|Hd]%elem_of_app Hx; [by apply Hdom|].
        apply list_elem_of_singleton in Hd as ->.
        apply list_elem_of_fmap in Hx as (item & -> & Hitem).
        pose proof (heap_ok_root_min value (heap0 :: tl) heap0 Hok eq_refl item Hitem).
        lia.
  - rewrite offered_app, Hl. by apply submseteq_inserts_r.
Qed.

Lemma heap_after_push K stream t v f r h :
  heap_after K stream t → push (top_heap t) v f = Ok (r, h) →
  top_k_inv K (stream ++ [(v, f)]) h ∧ _list h ⊆+ offered (stream ++ [(v, f)]).
Proof.
  intros [Hinv Hsub] Hpush.
  destruct (push_inv K stream (top_heap t) v f Hinv) as (r' & s' & Hpush' & Hinv').
  rewrite Hpush in Hpush'. injection Hpush' as <- <-. split; [done|].
  destruct Hinv as (_ & Hok & _).
  destruct (push_spec (top_heap t) v f Hok) as (r' & s' & Hpush' & _ & _ & Hr).
  rewrite Hpush in Hpush'. injection Hpush' as <- <-.
  rewrite offered_app. change (offered [(v, f)]) with [mkVW v f].
  rewrite <- Permutation_cons_append.
  destruct r as [item|].
  - destruct Hr as (_ & Hperm & _).
    transitivity (mkVW v f :: _list (top_heap t)); [|by apply submseteq_skip].
    rewrite <- Hperm. by apply submseteq_cons.
  - destruct Hr as (_ & Hperm). rewrite Hperm. by apply submseteq_skip.
Qed.

Lemma file_step_selects K stream root t f root1 t1 :
  file_step cfg root t f = Ok (root1, t1) → heap_after K stream t →
  heap_after K (stream ++ candidates m [f]) t1.
Proof.
  intros Hstep Hinv.
  destruct (file_step_inv _ _ _ _ _ _ Hstep)
    as [(_ & -> & m' & thr & Hm & Hthr & Hle)
       |(root0 & t0 & cs & a & Hgate & _ & _ & _ & _ & _ & _ & _ & ->)].
  - rewrite top_on in Hm. injection Hm as <-.
    unfold candidates. simpl. destruct (getattr_f f m) as [v|]; simpl.
    + by eapply heap_after_skip.
    + by rewrite app_nil_r.
  - pose proof (file_gate_inv _ _ _ _ _ _ Hgate)
      as (_ & _ & _ & _ & _ & _ & _ & _ & [[Hno _]|Hpushed]); [congruence|].
    destruct Hpushed as (m' & v & thr & r & h & tv & Hm & Hv & _ & _ & Hpush & _ & _ & Hh).
    rewrite top_on in Hm. injection Hm as <-.
    unfold candidates. simpl. rewrite Hv. simpl.
    unfold heap_after.
    assert (top_heap (if dup_mode cfg then dup_record cfg f t0 else t0) = h) as ->.
    { destruct (dup_mode cfg); [|done]. by destruct (dup_record_frame cfg f t0) as [-> _]. }
    by eapply heap_after_push.
Qed.

Lemma files_loop_selects K : ∀ fs stream root t root1 t1,
  files_loop cfg fs root t = Ok (root1, t1) → heap_after K stream t →
  heap_after K (stream ++ candidates m fs) t1.
Proof.
  induction fs as [|f fs IH]; intros stream root t root1 t1 Hloop Hinv; simpl in Hloop.
  - injection Hloop as <- <-. by rewrite app_nil_r.
  - destruct (file_step cfg root t f) as [[root0 t0]|] eqn:Hstep;
      cbn [mbind Res_bind] in Hloop; [|done].
    apply (file_step_selects K stream) in Hstep; [|done].
    apply (IH _ _ _ _ _ Hloop) in Hstep.
    change (f :: fs) with ([f] ++ fs). by rewrite candidates_app, app_assoc.
Qed.

Lemma dirs_loop_selects K level (p : string) : ∀ entries stream root t root1 t1,
  Forall (walk_selects md5_hexdigest cfg m) entries →
  dirs_loop cfg level
    (filter (λ nw : Node * Walk, is_to_dir nw.1 && dpred cfg nw.1)
       (map (λ x, (Node_init md5_hexdigest (path_join p (d_name (raw_of x)))
                     (Some p) (raw_of x),
                   _gather md5_hexdigest cfg x)) entries)) root t
    = Ok (root1, t1) →
  heap_after K stream t →
  heap_after K
    (stream ++ candidates m
       (concat
          (map (λ nv : Node * (Z → string → list Node),
                  if is_link nv.1 then []
                  else if level <? access_level cfg
                       then nv.2 (level + 1) (path nv.1) else [])
             (filter (λ nv, is_to_dir nv.1 && dpred cfg nv.1)
                (map (λ x, (Node_init md5_hexdigest
                              (path_join p (d_name (raw_of x))) (Some p) (raw_of x),
                            visited_files md5_hexdigest cfg x)) entries))))) t1.
Proof.
  induction entries as [|x entries IH]; intros stream root t root1 t1 Hall Hloop Hinv.
  - simpl in Hloop. injection Hloop as <- <-. by rewrite app_nil_r.
  - apply Forall_cons in Hall as [Hx Hall].
    rewrite !map_cons in *. rewrite !filter_cons in *. cbn [fst snd] in *.
    set (d := Node_init md5_hexdigest (path_join p (d_name (raw_of x))) (Some p) (raw_of x)) in *.
    destruct (decide (is_to_dir d && dpred cfg d)) as [Hd|Hd]; [|by eapply IH].
    cbn [dirs_loop] in Hloop.
    destruct (dir_step cfg level root t (d, _gather md5_hexdigest cfg x))
      as [[root0 t0]|] eqn:Hstep; cbn [mbind Res_bind] in Hloop; [|done].
    rewrite map_cons, concat_cons, candidates_app, app_assoc. cbn [fst snd].
    apply (IH _ _ _ _ _ Hall Hloop).
    destruct (dir_step_inv _ _ _ _ _ _ _ _ Hstep)
      as [(-> & -> & _)|(-> & d1 & Henter & _)]; [by rewrite app_nil_r|].
    destruct (dir_enter_inv _ _ _ _ _ _ _ Henter) as [[Hlt Hrun]|(Hge & _ & ->)].
    + destruct (Z.ltb_spec level (access_level cfg)); [|lia]. by eapply Hx.
    + destruct (Z.ltb_spec level (access_level cfg)); [lia|]. by rewrite app_nil_r.
Qed.

Lemma _gather_selects : ∀ e, walk_selects md5_hexdigest cfg m e.
Proof.
  apply Entry_nested_ind. intros r err entries IH K stream level root t D t' Hrun Hinv.
  rewrite _gather_eq in Hrun. cbv zeta in Hrun.
  assert (top_heap (gather_enter cfg level root t).2 = top_heap t ∧
          path (gather_enter cfg level root t).1 = path root) as [Hh Hpath].
  { unfold gather_enter. rewrite top_on. by destruct (no_progress cfg). }
  destruct (gather_enter cfg level root t) as [root1 t1]. cbn [fst snd] in *.
  assert (heap_after K stream t1) as Hinv1 by (unfold heap_after; by rewrite Hh).
  destruct err as [message|].
  { injection Hrun as <- <-. simpl. rewrite app_nil_r.
    unfold heap_after, warning_print. by destruct (WARNINGS_ON cfg). }
  destruct (files_loop _ _ _ _) as [[root2 t2]|] eqn:Hfl;
    cbn [mbind Res_bind] in Hrun; [|done].
  apply (files_loop_selects K _ stream) in Hfl; [|done].
  pose proof (dirs_loop_selects K level (path root1) entries _ _ _ _ _ IH Hrun Hfl) as Hd.
  rewrite visited_files_eq, candidates_app, app_assoc. by rewrite <- Hpath.
Qed.
End walk_selects.

(** X19.  The top-mode keeps the largest files.  After a walk in top-mode
    that started with an empty selector of capacity [K], the values held by
    the selector are the [K] largest values of the metric among the files
    visited (those that pass [fpred], in the directories that pass [dpred],
    within the access level), files without the metric apart; every item
    held is one of these files with its own value of the metric. *)
Theorem top_mode_keeps_the_largest (md5_hexdigest : string → string) (cfg : Config)
    (m : Metric) (K : Z) (e : Entry) (level : Z) (root : Node) (t : Tree)
    (D : Node) (t' : Tree) :
  top_mode cfg = Some m → top_heap t = Top_K_init K →
  _gather md5_hexdigest cfg e level root t = Ok (D, t') →
  let fs := visited_files md5_hexdigest cfg e level (path root) in
  capacity (top_heap t') = K ∧
  held (top_heap t') ≡ₚ k_largest K (omap (λ f, getattr_f f m) fs) ∧
  ∀ item, item ∈ _list (top_heap t') →
    which item ∈ fs ∧ getattr_f (which item) m = Some (value item).
Proof.
  intros Hm Hinit Hrun fs.
  destruct (_gather_selects md5_hexdigest cfg m Hm e K [] level root t D t' Hrun)
    as [(Hcap & Hok & Hlen & dropped & Hperm & Hdom) Hsub].
  { unfold heap_after. rewrite Hinit. split; [apply top_k_inv_init | done]. }
  fold fs in Hperm, Hsub, Hlen. simpl in Hperm, Hsub, Hlen.
  rewrite candidates_values in Hperm.
  split_and!; [done | |].
  - apply (k_largest_split K _ _ dropped Hperm Hdom).
    unfold held. rewrite length_fmap, Hlen.
    by rewrite <- (candidates_values m fs), length_fmap.
  - intros item Hitem.
    assert (item ∈ offered (candidates m fs)) as Hin
      by (by eapply elem_of_submseteq).
    apply list_elem_of_fmap in Hin as ([v f] & -> & Hvf).
    by apply elem_of_candidates in Hvf.
Qed.

Lemma top_mode_keeps_the_largest_witness :
  ∃ D t',
    _build toy_md5 (cfg_top m_lines) "root" fs_scenario (Tree_init 2) = Ok (D, t') ∧
    held (top_heap t') ≡ₚ [20; 10].
Proof.
  destruct (top_mode_keeps_the_largest toy_md5 (cfg_top m_lines) m_lines 2 fs_scenario 1
              (Node_init toy_md5 "root" None (raw_of fs_scenario)) (Tree_init 2) _ _
              eq_refl eq_refl ltac:(vm_compute; reflexivity)) as (_ & Hheld & _).
  eexists _, _. split; [vm_compute; reflexivity|]. rewrite Hheld. by vm_compute.
Defined.
(** ** In top-mode the walk raises nothing unless directories are always shown *)

Section walk_total_top.
Context (md5_hexdigest : string → string) (cfg : Config) (m : Metric).
Hypothesis top_on : top_mode cfg = Some m.
Hypothesis no_always : always_show_dirs cfg = false.

Lemma file_step_total_top root t f cs :
  children root = Some cs → is_Some (agg root) → is_Some (top_val root) →
  top_ready t →
  ∃ root1 t1, file_step cfg root t f = Ok (root1, t1) ∧
    is_Some (children root1) ∧ is_Some (agg root1) ∧ is_Some (top_val root1) ∧
    top_ready t1.
Proof.
  intros Hcs [a Ha] [tv Htv] [Hok Hcap].
  unfold file_step, file_gate. rewrite top_on.
  destruct (next_to_pop_total (top_heap t) Hcap) as [thr ->]. cbn [mbind Res_bind].
  destruct (Null.le (getattr_f f m) thr) eqn:Hle.
  { cbn [mbind Res_bind]. exists root, t. by split_and!; eauto. }
  destruct (getattr_f f m) as [v|]; [|by rewrite le_None in Hle].
  cbn [mbind Res_bind].
  destruct (push_spec (top_heap t) v f Hok) as (r & h & -> & Hcap' & Hok' & _).
  cbn [mbind Res_bind]. unfold get_top_val. rewrite Htv. cbn [mbind Res_bind].
  unfold file_link, children_add, get_agg.
  change (children (set_top_val root _)) with (children root). rewrite Hcs.
  cbn [mbind Res_bind].
  change (agg (set_children (set_top_val root _) _)) with (agg root). rewrite Ha.
  cbn [mbind Res_bind].
  eexists _, _. split; [done|]. split_and!; try by eauto.
  unfold top_ready.
  destruct (dup_mode cfg); [destruct (dup_record_frame cfg f (set_top_heap t h)) as [-> _]|];
    simpl; split; [done | lia | done | lia].
Qed.

Lemma files_loop_total_top : ∀ fs root t cs,
  children root = Some cs → is_Some (agg root) → is_Some (top_val root) →
  top_ready t →
  ∃ root1 t1, files_loop cfg fs root t = Ok (root1, t1) ∧
    is_Some (children root1) ∧ is_Some (agg root1) ∧ is_Some (top_val root1) ∧
    top_ready t1.
Proof.
  induction fs as [|f fs IH]; intros root t cs Hcs Ha Htv Hready.
  - exists root, t. by split_and!; eauto.
  - destruct (file_step_total_top root t f cs Hcs Ha Htv Hready)
      as (root0 & t0 & Hstep & [cs0 Hc0] & Ha0 & Htv0 & Hready0).
    destruct (IH root0 t0 cs0 Hc0 Ha0 Htv0 Hready0) as (root1 & t1 & Hloop & H).
    exists root1, t1. simpl. rewrite Hstep. cbn [mbind Res_bind]. by rewrite Hloop.
Qed.

Lemma dir_step_total_top level root t d walk cs :
  (is_link d = false → children d = Some []) → walk_total_top walk →
  children root = Some cs → is_Some (agg root) → is_Some (top_val root) →
  top_ready t →
  ∃ root1 t1, dir_step cfg level root t (d, walk) = Ok (root1, t1) ∧
    is_Some (children root1) ∧ is_Some (agg root1) ∧ is_Some (top_val root1) ∧
    top_ready t1.
Proof.
  intros Hfresh Hwalk Hcs [a Ha] [tv Htv] Hready. unfold dir_step. cbn [fst snd].
  destruct (is_link d).
  { rewrite no_always. exists root, t. by split_and!; eauto. }
  specialize (Hfresh eq_refl). unfold dir_enter.
  destruct (Z.ltb_spec level (access_level cfg)).
  - destruct (Hwalk (level + 1) d t Hfresh Hready)
      as (d1 & t1 & -> & [da Hda] & [dv Hdv] & Hready1).
    cbn [mbind Res_bind]. unfold dir_pruned, get_agg. rewrite no_always, Hda.
    destruct (dpost cfg d1); cbn [negb mbind Res_bind];
      [|exists root, t1; by split_and!; eauto].
    destruct ((fcount da =? 0) && (dcount da =? 0));
      [exists root, t1; by split_and!; eauto|].
    unfold dir_gate, get_top_val. rewrite top_on, Hdv. cbn [mbind Res_bind].
    destruct Hready1 as [Hok1 Hcap1].
    destruct (next_to_pop_total (top_heap t1) Hcap1) as [thr ->]. cbn [mbind Res_bind].
    destruct (Null.lt dv thr); cbn [mbind Res_bind];
      [exists root, t1; by split_and!; eauto|].
    rewrite Htv. cbn [mbind Res_bind]. unfold dir_link, children_add, get_agg.
    change (children (set_top_val root _)) with (children root). rewrite Hcs.
    cbn [mbind Res_bind].
    change (agg (set_children (set_top_val root _) _)) with (agg root).
    rewrite Ha, Hda. cbn [mbind Res_bind].
    eexists _, _. split; [done|]. by split_and!; eauto.
  - cbn [mbind Res_bind]. unfold dir_pruned, get_agg. rewrite no_always.
    change (agg (truncate d)) with (Some (own_agg d)).
    destruct (dpost cfg (truncate d)); cbn [negb mbind Res_bind];
      exists root, t; by split_and!; eauto.
Qed.

Lemma dirs_loop_total_top level : ∀ ds root t cs,
  Forall (λ dw : Node * Walk,
            (is_link dw.1 = false → children dw.1 = Some []) ∧
            walk_total_top dw.2) ds →
  children root = Some cs → is_Some (agg root) → is_Some (top_val root) →
  top_ready t →
  ∃ root1 t1, dirs_loop cfg level ds root t = Ok (root1, t1) ∧
    is_Some (children root1) ∧ is_Some (agg root1) ∧ is_Some (top_val root1) ∧
    top_ready t1.
Proof.
  induction ds as [|[d walk] ds IH]; intros root t cs Hall Hcs Ha Htv Hready.
  - exists root, t. by split_and!; eauto.
  - apply Forall_cons in Hall as [[Hfresh Hwalk] Hall]. cbn [fst snd] in Hfresh, Hwalk.
    destruct (dir_step_total_top level root t d walk cs Hfresh Hwalk Hcs Ha Htv Hready)
      as (root0 & t0 & Hstep & [cs0 Hc0] & Ha0 & Htv0 & Hready0).
    destruct (IH root0 t0 cs0 Hall Hc0 Ha0 Htv0 Hready0) as (root1 & t1 & Hloop & H).
    exists root1, t1. simpl. rewrite Hstep. cbn [mbind Res_bind]. by rewrite Hloop.
Qed.

Lemma _gather_total_top : ∀ e level root t cs,
  children root = Some cs → top_ready t →
  ∃ D t', _gather md5_hexdigest cfg e level root t = Ok (D, t') ∧
    is_Some (agg D) ∧ is_Some (top_val D) ∧ top_ready t'.
Proof.
  induction e as [r err entries IH] using Entry_nested_ind.
  intros level root t cs Hcs Hready. rewrite _gather_eq. cbv zeta.
  pose proof (gather_enter_result cfg level root t) as (_ & Hc1 & Ha1).
  assert (is_Some (top_val (gather_enter cfg level root t).1) ∧
          top_heap (gather_enter cfg level root t).2 = top_heap t) as [Htv1 Hh1].
  { unfold gather_enter. rewrite top_on. by destruct (no_progress cfg). }
  destruct (gather_enter cfg level root t) as [root1 t1]. cbn [fst snd] in *.
  rewrite Hcs in Hc1.
  assert (top_ready t1) as Hready1 by (unfold top_ready; by rewrite Hh1).
  destruct err as [message|].
  { eexists _, _. split; [done|]. split_and!; [by eauto | done |].
    unfold top_ready, warning_print. by destruct (WARNINGS_ON cfg). }
  match goal with |- context [files_loop cfg ?fs root1 t1] =>
    destruct (files_loop_total_top fs root1 t1 _ Hc1 (mk_is_Some _ _ Ha1) Htv1 Hready1)
      as (root2 & t2 & -> & [cs2 Hc2] & Ha2 & Htv2 & Hready2)
  end.
  cbn [mbind Res_bind].
  match goal with |- context [dirs_loop cfg level ?ds root2 t2] =>
    destruct (λ H, dirs_loop_total_top level ds root2 t2 _ H Hc2 Ha2 Htv2 Hready2)
      as (D & t' & -> & _ & ? & ? & ?); [| by exists D, t']
  end.
  apply Forall_forall. intros [d w] Hd.
  destruct (d_nodes_spec md5_hexdigest cfg _ _ _ _ Hd)
    as (_ & _ & _ & Hdc & x & Hx & -> & _).
  split; [done|].
  intros lv d' t0 Hd' Hr0. rewrite Forall_forall in IH.
  destruct (IH x Hx lv d' t0 [] Hd' Hr0) as (D & t' & Hrun & H).
  by exists D, t'.
Qed.
End walk_total_top.


(** ** Strings: lengths, widths and columns *)

Lemma string_length_app (s t : string) :
  String.length (s ++ t)%string = (String.length s + String.length t)%nat.
Proof. induction s as [|a s IH]; simpl; [done | by rewrite IH]. Qed.

Lemma string_length_spaces (n : nat) : String.length (spaces n) = n.
Proof. induction n as [|n IH]; simpl; [done | by rewrite IH]. Qed.

Lemma string_length_substring_0 (n : nat) (s : string) :
  String.length (substring 0 n s) = Nat.min n (String.length s).
Proof.
  revert s. induction n as [|n IH]; intros [|a s]; simpl; try done.
  by rewrite IH.
Qed.

Lemma substring_0_all (n : nat) (s : string) :
  (String.length s ≤ n)%nat → substring 0 n s = s.
Proof.
  revert s. induction n as [|n IH]; intros [|a s]; simpl; try done; try lia.
  intros H. rewrite IH; [done | lia].
Qed.

Lemma substring_0_app (n : nat) (s t : string) :
  (n ≤ String.length s)%nat → substring 0 n (s ++ t)%string = substring 0 n s.
Proof.
  revert s. induction n as [|n IH]; intros [|a s]; simpl; try done; try lia.
  - by destruct t.
  - intros H. rewrite IH; [done | lia].
Qed.

(** X21.  [make_maxlen] never returns more than [maxlen] characters (for
    the [maxlen] of 4 at least that makes room for its mark): a line that
    fits is returned as it is, and a longer one is cut to exactly [maxlen]
    characters, its first [maxlen - 4] followed by [" ..."]. *)
Theorem make_maxlen_fits (line : string) (maxlen : nat) :
  (4 ≤ maxlen)%nat →
  (String.length (make_maxlen line maxlen) ≤ maxlen)%nat ∧
  ((String.length line ≤ maxlen)%nat → make_maxlen line maxlen = line) ∧
  ((maxlen < String.length line)%nat →
     String.length (make_maxlen line maxlen) = maxlen ∧
     substring 0 (maxlen - 4) (make_maxlen line maxlen) = substring 0 (maxlen - 4) line ∧
     substring (maxlen - 4) 4 (make_maxlen line maxlen) = " ...").
Proof.
  intros Hmax. unfold make_maxlen.
  destruct (Nat.leb_spec (String.length line) maxlen) as [Hfit|Hlong].
  - split_and!; [done | done | lia].
  - assert (String.length (substring 0 (maxlen - 4) line) = (maxlen - 4)%nat) as Hcut
      by (rewrite string_length_substring_0; lia).
    split_and!.
    + rewrite string_length_app, Hcut. simpl. lia.
    + lia.
    + intros _. split_and!.
      * rewrite string_length_app, Hcut. simpl. lia.
      * rewrite substring_0_app by lia. apply substring_0_all. lia.
      * generalize dependent (substring 0 (maxlen - 4) line). intros s Hs.
        rewrite <- Hs at 1. clear. induction s as [|a s IH]; [done|]. exact IH.
Qed.

Lemma make_maxlen_fits_witness :
  (String.length (make_maxlen "Gathering /a/very/long/path" 12) ≤ 12)%nat.
Proof. apply (make_maxlen_fits "Gathering /a/very/long/path" 12). lia. Defined.

Section visual_laws.
Context {Char : Type} (visual_width : Char → Z).

Lemma visual_len_shift (s : list Char) (x : Z) :
  foldl (λ acc c, acc + visual_width c) x s = x + visual_len visual_width s.
Proof.
  unfold visual_len. revert x. induction s as [|c s IH]; intros x; simpl; [lia|].
  rewrite (IH (x + visual_width c)), (IH (0 + visual_width c)). lia.
Qed.

Lemma visual_len_app (s1 s2 : list Char) :
  visual_len visual_width (s1 ++ s2) =
  visual_len visual_width s1 + visual_len visual_width s2.
Proof. unfold visual_len at 1. rewrite foldl_app, visual_len_shift. done. Qed.

Lemma visual_len_cons (c : Char) (s : list Char) :
  visual_len visual_width (c :: s) = visual_width c + visual_len visual_width s.
Proof. apply (visual_len_app [c] s). Qed.

Lemma visual_len_replicate (n : nat) (c : Char) :
  visual_len visual_width (replicate n c) = Z.of_nat n * visual_width c.
Proof.
  induction n as [|n IH]; [done|].
  change (replicate (S n) c) with (c :: replicate n c).
  rewrite visual_len_cons, IH. lia.
Qed.

(** The loop counts the characters of a prefix and adds up their widths,
    and stops at the end or at the first character that does not fit. *)
Lemma visual_within_loop_spec (limit : Z) : ∀ (s : list Char) (strlen : nat) (vislen : Z),
  vislen ≤ limit →
  ∃ k : nat,
    visual_within_loop visual_width s limit strlen vislen =
      ((strlen + k)%nat, vislen + visual_len visual_width (take k s)) ∧
    (k ≤ length s)%nat ∧
    vislen + visual_len visual_width (take k s) ≤ limit ∧
    match s !! k with
    | Some c => limit < visual_width c + (vislen + visual_len visual_width (take k s))
    | None => k = length s
    end.
Proof.
  induction s as [|c s IH]; intros strlen vislen Hle; simpl.
  - exists 0%nat. split_and!; [f_equal; [lia | simpl; unfold visual_len; simpl; lia]
                             | done | simpl; unfold visual_len; simpl; lia | done].
  - destruct (Z.ltb_spec limit (visual_width c + vislen)) as [Hstop|Hgo].
    + exists 0%nat. simpl. unfold visual_len. simpl.
      split_and!; [f_equal; lia | lia | lia | lia].
    + destruct (IH (S strlen) (vislen + visual_width c)) as (k & -> & Hk & Hfit & Hnext);
        [lia|].
      exists (S k). cbn [take lookup list_lookup length]. rewrite visual_len_cons.
      split_and!; [f_equal; lia | lia | lia |].
      destruct (s !! k); lia.
Qed.
End visual_laws.

(** X22.  [visual_within] returns the length of a prefix of the string and
    the visual width of that prefix, which is within the limit; the prefix
    is the whole string, or the next character would not fit. *)
Theorem visual_within_longest_prefix {Char : Type} (visual_width : Char → Z)
    (s : list Char) (limit : Z) :
  0 ≤ limit →
  let '(strlen, vislen) := visual_within visual_width s limit in
  (strlen ≤ length s)%nat ∧
  vislen = visual_len visual_width (take strlen s) ∧
  vislen ≤ limit ∧
  match s !! strlen with
  | Some c => limit < visual_width c + vislen
  | None => strlen = length s
  end.
Proof.
  intros Hlimit. unfold visual_within.
  destruct (visual_within_loop_spec visual_width limit s 0 0 Hlimit)
    as (k & -> & Hk & Hfit & Hnext).
  simpl. split_and!; [done | done | lia |].
  destruct (s !! k); [lia | done].
Qed.

Lemma visual_within_longest_prefix_witness :
  let width := λ c : bool, if c then 2 else 1 in
  let '(strlen, vislen) := visual_within width [false; true; true; false] 4 in
  (strlen ≤ 4)%nat ∧
  vislen = visual_len width (take strlen [false; true; true; false]) ∧
  vislen ≤ 4 ∧
  match [false; true; true; false] !! strlen with
  | Some c => 4 < width c + vislen
  | None => strlen = 4%nat
  end.
Proof.
  apply (visual_within_longest_prefix (λ c : bool, if c then 2 else 1)
           [false; true; true; false] 4). lia.
Defined.

(** X23.  A line cut to a forced width is exactly that wide: whatever the
    widths of the characters, as long as a space and a dot have width 1 and
    the width is 4 at least, the line that [_print_line] makes of one that
    is too wide has the visual width [width_control], and it ends with
    [" ..."] after a prefix of the line. *)
Theorem forced_line_has_the_width {Char : Type} (visual_width : Char → Z)
    (SPACE DOT : Char) (join_line : list Char) (width_control : Z) :
  visual_width SPACE = 1 → visual_width DOT = 1 → 4 ≤ width_control →
  visual_len visual_width (force_width visual_width SPACE DOT join_line width_control)
    = width_control ∧
  ∃ (k pad : nat),
    force_width visual_width SPACE DOT join_line width_control =
      take k join_line ++ replicate pad SPACE ++ [SPACE; DOT; DOT; DOT].
Proof.
  intros Hspace Hdot Hwidth. unfold force_width, visual_within.
  destruct (visual_within_loop_spec visual_width (width_control - 4) join_line 0 0)
    as (k & -> & Hk & Hfit & _); [lia|].
  split; [|by eexists _, _].
  rewrite !visual_len_app, visual_len_replicate, !visual_len_cons, Hspace, Hdot.
  change (visual_len visual_width []) with 0. simpl in *. lia.
Qed.

Lemma forced_line_has_the_width_witness :
  visual_len (λ c : bool, if c then 2 else 1)
    (force_width (λ c : bool, if c then 2 else 1) false false
       [true; true; true; true; true] 9) = 9.
Proof.
  apply (forced_line_has_the_width (λ c : bool, if c then 2 else 1) false false
           [true; true; true; true; true] 9 eq_refl eq_refl ltac:(lia)).
Defined.

(** X24.  The formatters give columns of constant width, as their protocol
    asks: every value, [None] too, is formatted to the same length.  For
    [bool_formatter] it is [width] (3 at least, the length of ["Yes"]); for
    [width_formatter] it is the width of the attribute; for [md5_formatter]
    it is 32, a digest of 32 characters is shown as it is, and the sentinel
    of empty files as ["(empty)"]. *)
Theorem formatters_keep_the_column_width :
  (∀ value width, (3 ≤ width)%nat →
     String.length (bool_formatter value width) = width) ∧
  (∀ value attr,
     String.length (width_formatter value attr) = WIDTH_MAP_get attr 8) ∧
  (∀ value, String.length (md5_formatter value) = 32%nat) ∧
  (∀ digest, String.length digest = 32%nat →
     md5_formatter (Some digest) = digest) ∧
  md5_formatter (Some EMPTY_FILE_MD5_HASH) = ("(empty)" ++ spaces 25)%string.
Proof.
  assert (∀ v w, String.length (rjust v w) = Nat.max w (String.length v)) as Hrjust.
  { intros v w. unfold rjust. rewrite string_length_app, string_length_spaces. lia. }
  assert (∀ value attr,
     String.length (width_formatter value attr) = WIDTH_MAP_get attr 8) as Hwidth.
  { intros [v|] attr; unfold width_formatter; simpl.
    - rewrite string_length_substring_0, Hrjust. lia.
    - apply string_length_spaces. }
  split_and!.
  - intros [[|]|] width Hw; unfold bool_formatter;
      rewrite ?Hrjust, ?string_length_spaces; simpl; lia.
  - exact Hwidth.
  - intros value. unfold md5_formatter. apply Hwidth.
  - intros digest Hlen. unfold md5_formatter.
    rewrite bool_decide_eq_false_2.
    + unfold width_formatter, rjust. simpl WIDTH_MAP_get. rewrite Hlen. simpl.
      apply (substring_0_all 32). lia.
    + intros [= ->]. done.
  - reflexivity.
Qed.
(** ** [unique_list], [fields_to_by] and the predicates *)

Section fromkeys.
Context {A : Type} `{EqDecision A}.

Lemma fromkeys_snoc (l : list A) (k : A) :
  fromkeys (l ++ [k]) =
    if decide (k ∈ fromkeys l) then fromkeys l else fromkeys l ++ [k].
Proof. unfold fromkeys. by rewrite foldl_snoc. Qed.

Lemma elem_of_fromkeys (l : list A) (x : A) : x ∈ fromkeys l ↔ x ∈ l.
Proof.
  induction l as [|k l IH] using rev_ind.
  - done.
  - rewrite fromkeys_snoc, elem_of_app, list_elem_of_singleton, <- IH.
    destruct (decide (k ∈ fromkeys l)) as [Hk|Hk].
    + split; [by left|]. intros [?| ->]; done.
    + by rewrite elem_of_app, list_elem_of_singleton.
Qed.

Lemma NoDup_fromkeys (l : list A) : NoDup (fromkeys l).
Proof.
  induction l as [|k l IH] using rev_ind; [constructor|].
  rewrite fromkeys_snoc. destruct (decide (k ∈ fromkeys l)) as [Hk|Hk]; [done|].
  apply NoDup_app. split_and!; [done | | apply NoDup_singleton].
  intros x Hx ->%list_elem_of_singleton. done.
Qed.

(** Started from keys already there, the fold adds the new ones. *)
Lemma fromkeys_from (acc l : list A) :
  foldl (λ keys k, if decide (k ∈ keys) then keys else keys ++ [k]) acc l =
  acc ++ filter (λ y, y ∉ acc) (fromkeys l).
Proof.
  induction l as [|k l IH] using rev_ind.
  - by rewrite app_nil_r.
  - rewrite foldl_snoc, IH, fromkeys_snoc.
    destruct (decide (k ∈ fromkeys l)) as [Hk|Hk].
    + rewrite decide_True; [done|].
      destruct (decide (k ∈ acc)); [by apply elem_of_app; left|].
      apply elem_of_app; right. by apply list_elem_of_filter.
    + rewrite filter_app, filter_cons, filter_nil.
      destruct (decide (k ∈ acc)) as [Hacc|Hacc].
      * rewrite decide_True by (by apply elem_of_app; left).
        rewrite decide_False by (by intros H; apply H). by rewrite app_nil_r.
      * rewrite decide_False.
        -- rewrite decide_True by done. by rewrite app_assoc.
        -- intros [?|[_ ?]%list_elem_of_filter]%elem_of_app; done.
Qed.

Lemma fromkeys_cons (x : A) (l : list A) :
  fromkeys (x :: l) = x :: filter (λ y, y ≠ x) (fromkeys l).
Proof.
  transitivity (foldl (λ keys k, if decide (k ∈ keys) then keys else keys ++ [k]) [x] l).
  { unfold fromkeys. cbn [foldl]. by rewrite decide_False by (by intros ?%elem_of_nil). }
  rewrite (fromkeys_from [x] l). simpl. f_equal.
  apply list_filter_iff. intros y. by rewrite list_elem_of_singleton.
Qed.

Lemma filter_all (P : A → Prop) `{∀ x, Decision (P x)} (l : list A) :
  Forall P l → filter P l = l.
Proof.
  induction 1 as [|x l Hx Hl IH]; [done|].
  rewrite filter_cons, decide_True by done. by rewrite IH.
Qed.

Lemma fromkeys_NoDup (l : list A) : NoDup l → fromkeys l = l.
Proof.
  induction 1 as [|x l Hx Hnd IH]; [done|].
  rewrite fromkeys_cons, IH. f_equal. apply filter_all.
  apply Forall_forall. by intros y Hy ->.
Qed.
End fromkeys.

(** X25.  [unique_list] keeps the first occurrence of every element, in
    order: the result has no repetition and the same elements as the list;
    its head is the head of the list and what follows is the result for the
    rest without that head; a list without repetition is returned as it is,
    so applying [unique_list] twice changes nothing. *)
Theorem unique_list_keeps_first_occurrences {A : Type} `{EqDecision A}
    (x : A) (l : list A) :
  NoDup (unique_list l) ∧
  (∀ y, y ∈ unique_list l ↔ y ∈ l) ∧
  unique_list (x :: l) = x :: filter (λ y, y ≠ x) (unique_list l) ∧
  (NoDup l → unique_list l = l) ∧
  unique_list (unique_list l) = unique_list l.
Proof.
  unfold unique_list. split_and!.
  - apply NoDup_fromkeys.
  - intros y. apply elem_of_fromkeys.
  - apply fromkeys_cons.
  - apply fromkeys_NoDup.
  - apply fromkeys_NoDup, NoDup_fromkeys.
Qed.

Lemma lstrip_f_no_f (attr : string) :
  match lstrip_f attr with
  | String c _ => c ≠ "f"%char
  | EmptyString => True
  end.
Proof.
  induction attr as [|c attr IH]; [done|]. simpl.
  destruct (Ascii.eqb_spec c "f"); done.
Qed.

Lemma by_key_no_f (m attr : string) :
  m = "u" ∨ m = "d" ∨ m = "a" →
  match by_key m attr with
  | String c _ => c ≠ "f"%char
  | EmptyString => True
  end.
Proof.
  intros Hm. unfold by_key. case_bool_decide.
  - by destruct Hm as [->|[->| ->]].
  - apply lstrip_f_no_f.
Qed.

Lemma foldl_snoc_map {B C : Type} (f : B → C) (l : list B) (acc : list C) :
  foldl (λ by_ x, by_ ++ [f x]) acc l = acc ++ map f l.
Proof.
  revert acc. induction l as [|x l IH]; intros acc; simpl.
  - by rewrite app_nil_r.
  - by rewrite IH, <- app_assoc.
Qed.


(** X27.  The predicates of the tree-maker.  A [Pattern] without tests
    accepts everything; [+=] makes the conjunction of two predicates; an
    [Ignore] of one test is its negation.  An [Ignore] built from several
    tests at once is the negation of the last of them only: the tests
    before it are not looked at. *)
Theorem predicates_combine {X : Type} (self other : @Predicate X)
    (preds : list (X → bool)) (p : X → bool) (x : X) :
  Predicate_call (Pattern []) x = true ∧
  Predicate_call (Predicate_iadd self other) x =
    Predicate_call self x && Predicate_call other x ∧
  Predicate_call (Ignore [p]) x = negb (p x) ∧
  Predicate_call (Ignore (preds ++ [p])) x = negb (p x) ∧
  Predicate_call (Predicate_iadd self (Ignore [p])) x =
    Predicate_call self x && negb (p x).
Proof.
  assert (Predicate_call (Ignore (preds ++ [p])) x = negb (p x)) as Hlast.
  { unfold Ignore, Predicate_call. rewrite last_snoc.
    assert (∀ l : list (X → bool), l ≠ [] →
              forallb (λ f, f x) (map (λ _, λ x, negb (p x)) l) = negb (p x)) as Hall.
    { induction l as [|q l IH]; [done|]. intros _. simpl.
      destruct l as [|q' l]; [by rewrite andb_true_r|].
      rewrite IH by done. by destruct (p x). }
    apply Hall. by destruct preds. }
  split_and!.
  - done.
  - apply forallb_app.
  - apply (andb_true_r (negb (p x))).
  - exact Hlast.
  - unfold Predicate_iadd, Predicate_call. rewrite forallb_app. f_equal.
    apply (andb_true_r (negb (p x))).
Qed.
(** ** The mode string *)

Lemma land_bit (a k : Z) :
  0 ≤ k → Z.land a (Z.shiftl 1 k) = if Z.testbit a k then 2 ^ k else 0.
Proof.
  intros Hk. rewrite Z.shiftl_1_l. apply Z.bits_inj'. intros n Hn.
  rewrite Z.land_spec, Z.pow2_bits_eqb by done.
  destruct (Z.eqb_spec k n) as [->|Hne].
  - destruct (Z.testbit a n); [by rewrite Z.pow2_bits_true | by rewrite Z.bits_0].
  - rewrite andb_false_r.
    destruct (Z.testbit a k); [by rewrite Z.pow2_bits_false | by rewrite Z.bits_0].
Qed.

Lemma mode_flag_spec (mode bit : Z) (c : ascii) :
  0 ≤ bit → Z.testbit 4095 bit = true →
  mode_flag (S_IMODE mode) bit (String c "") =
    String (if Z.testbit mode bit then c else "-"%char) "".
Proof.
  intros Hbit Hlow. unfold mode_flag, S_IMODE.
  rewrite land_bit, Z.land_spec, Hlow, andb_true_r by done.
  destruct (Z.testbit mode bit); [|done].
  destruct (Z.eqb_spec (2 ^ bit) 0) as [H0|_]; [|done].
  pose proof (Z.pow_pos_nonneg 2 bit). lia.
Qed.

(** The ten characters of the mode string. *)
Lemma smode_chars (mode : Z) :
  smode mode =
    String (if S_ISLNK mode then "l" else if S_ISDIR mode then "d" else "-")%char
   (String (if Z.testbit mode 8 then "r" else "-")%char
   (String (if Z.testbit mode 7 then "w" else "-")%char
   (String (if Z.testbit mode 6 then "x" else "-")%char
   (String (if Z.testbit mode 5 then "r" else "-")%char
   (String (if Z.testbit mode 4 then "w" else "-")%char
   (String (if Z.testbit mode 3 then "x" else "-")%char
   (String (if Z.testbit mode 2 then "r" else "-")%char
   (String (if Z.testbit mode 1 then "w" else "-")%char
   (String (if Z.testbit mode 0 then "x" else "-")%char ""))))))))).
Proof.
  unfold smode. cbn [foldl].
  change (8 - 0 * 3) with 8. change (7 - 0 * 3) with 7. change (6 - 0 * 3) with 6.
  change (8 - 1 * 3) with 5. change (7 - 1 * 3) with 4. change (6 - 1 * 3) with 3.
  change (8 - 2 * 3) with 2. change (7 - 2 * 3) with 1. change (6 - 2 * 3) with 0.
  rewrite !mode_flag_spec by done.
  by destruct (S_ISLNK mode), (S_ISDIR mode).
Qed.

Lemma flag_char_inj (b1 b2 : bool) (c : ascii) :
  c ≠ "-"%char →
  (if b1 then c else "-"%char) = (if b2 then c else "-"%char) → b1 = b2.
Proof. intros Hc. destruct b1, b2; congruence. Qed.

(** X28.  The mode string has ten characters: the type of the node, then
    for each of the bits 8 down to 0 of the mode the letter of the
    permission ([rwx] three times) when the bit is set and a dash when it
    is not.  So two nodes with the same mode string have the same nine
    permission bits. *)
Theorem smode_shows_the_permission_bits (mode mode' : Z) :
  String.length (smode mode) = 10%nat ∧
  get 0 (smode mode) =
    Some (if S_ISLNK mode then "l" else if S_ISDIR mode then "d" else "-")%char ∧
  (∀ k : nat, (k < 9)%nat →
     get (S k) (smode mode) =
       if Z.testbit mode (8 - Z.of_nat k) then get k "rwxrwxrwx" else Some "-"%char) ∧
  (smode mode = smode mode' → Z.land mode 511 = Z.land mode' 511).
Proof.
  rewrite !smode_chars. split_and!.
  - done.
  - done.
  - intros k Hk.
    destruct k as [|k]; [change (8 - Z.of_nat 0) with 8; by destruct (Z.testbit mode 8)|].
    destruct k as [|k]; [change (8 - Z.of_nat 1) with 7; by destruct (Z.testbit mode 7)|].
    destruct k as [|k]; [change (8 - Z.of_nat 2) with 6; by destruct (Z.testbit mode 6)|].
    destruct k as [|k]; [change (8 - Z.of_nat 3) with 5; by destruct (Z.testbit mode 5)|].
    destruct k as [|k]; [change (8 - Z.of_nat 4) with 4; by destruct (Z.testbit mode 4)|].
    destruct k as [|k]; [change (8 - Z.of_nat 5) with 3; by destruct (Z.testbit mode 3)|].
    destruct k as [|k]; [change (8 - Z.of_nat 6) with 2; by destruct (Z.testbit mode 2)|].
    destruct k as [|k]; [change (8 - Z.of_nat 7) with 1; by destruct (Z.testbit mode 1)|].
    destruct k as [|k]; [change (8 - Z.of_nat 8) with 0; by destruct (Z.testbit mode 0)|].
    lia.
  - intros [= _ H8 H7 H6 H5 H4 H3 H2 H1 H0].
    apply flag_char_inj in H8, H7, H6, H5, H4, H3, H2, H1, H0; try done.
    apply Z.bits_inj'. intros n Hn. rewrite !Z.land_spec.
    change 511 with (Z.ones 9). rewrite Z.testbit_ones_nonneg by lia.
    destruct (Z.ltb_spec n 9); [|by rewrite !andb_false_r].
    rewrite !andb_true_r.
    assert (n = 0 ∨ n = 1 ∨ n = 2 ∨ n = 3 ∨ n = 4 ∨ n = 5 ∨ n = 6 ∨ n = 7 ∨ n = 8)
      as Hcases by lia.
    destruct Hcases as [->|[->|[->|[->|[->|[->|[->|[->| ->]]]]]]]]; done.
Qed.
(** ** The directories saved for the display *)

Lemma Lineage_nested_ind (P : Lineage → Prop) :
  (∀ p, P (mkLineage p None)) →
  (∀ p f, P f → P (mkLineage p (Some f))) →
  ∀ node, P node.
Proof.
  intros Hroot Hstep. fix IH 1. intros [p [f|]]; [apply Hstep, IH | apply Hroot].
Qed.

Lemma _save_father_chain : ∀ (node : Lineage) (save_set : gset (option string)),
  NoDup (ancestors node) → closed_along save_set (ancestors node) →
  (∃ a, a ∈ ancestors node ∧ Some a ∈ save_set) →
  ∃ S', _save_father save_set node = Ok S' ∧
    ∀ x, x ∈ S' ↔ x ∈ save_set ∨ ∃ a, x = Some a ∧ a ∈ ancestors node.
Proof.
  induction node as [p|p f IH] using Lineage_nested_ind; intros saved Hnd Hclosed Hex.
  { destruct Hex as (a & Ha & _). by apply elem_of_nil in Ha. }
  cbn [_save_father ancestors fmap option_fmap option_map] in *.
  apply NoDup_cons in Hnd as [Hfresh Hnd].
  destruct (decide (Some (l_path f) ∈ saved)) as [Hin|Hout].
  - exists saved. split; [done|]. intros x. split; [by left|].
    intros [Hx|(a & -> & Ha)]; [done|].
    apply list_elem_of_lookup in Ha as [j Hj].
    by apply (Hclosed 0%nat j (l_path f) a eq_refl Hj); [lia|].
  - destruct (IH ({[Some (l_path f)]} ∪ saved) Hnd) as (S' & Hrun & HS').
    + intros i j a b Hi Hj Hij [Ha|Ha]%elem_of_union.
      * apply elem_of_singleton in Ha. injection Ha as ->.
        destruct Hfresh. by eapply list_elem_of_lookup_2.
      * apply elem_of_union. right.
        by apply (Hclosed (S i) (S j) a b Hi Hj); [lia|].
    + destruct Hex as (a & [->|Ha]%elem_of_cons & HaS); [done|].
      exists a. split; [done|]. apply elem_of_union. by right.
    + exists S'. split; [done|]. intros x. rewrite HS', elem_of_union, elem_of_singleton.
      split.
      * intros [[->|Hx]|(a & -> & Ha)]; [right | by left | right].
        -- exists (l_path f). split; [done | apply list_elem_of_here].
        -- exists a. split; [done | by apply list_elem_of_further].
      * intros [Hx|(a & -> & [->|Ha]%elem_of_cons)]; [by left; right | by left; left |].
        right. by exists a.
Qed.

Lemma _save_father_unsaved : ∀ (node : Lineage) (save_set : gset (option string)),
  (∀ a, a ∈ ancestors node → Some a ∉ save_set) → None ∉ save_set →
  NoDup (ancestors node) →
  _save_father save_set node = Raise (AttributeError "father").
Proof.
  induction node as [p|p f IH] using Lineage_nested_ind; intros saved Hnone Hroot Hnd.
  { cbn. by rewrite decide_False. }
  cbn [_save_father ancestors fmap option_fmap option_map] in *.
  apply NoDup_cons in Hnd as [Hfresh Hnd].
  rewrite decide_False by (apply Hnone, list_elem_of_here).
  apply IH; [| |done].
  - intros a Ha [Hx|Hx]%elem_of_union.
    + apply elem_of_singleton in Hx. injection Hx as ->. done.
    + by apply (Hnone a); [apply list_elem_of_further|].
  - intros [Hx|Hx]%elem_of_union; [|done]. by apply elem_of_singleton in Hx.
Qed.

(** X29.  [_save_father] saves the directories above a node.  On a chain of
    ancestors with distinct paths, one of which is saved already (the root
    is, from the start) and above which all are saved: the call returns,
    and the set then holds what it held and every ancestor of the node,
    nothing else, so that the path from the root to the node can be shown.
    When no ancestor is saved the call runs past the root and raises
    [AttributeError]. *)
Theorem _save_father_saves_the_ancestors (node : Lineage)
    (save_set : gset (option string)) :
  NoDup (ancestors node) →
  (closed_along save_set (ancestors node) →
   (∃ a, a ∈ ancestors node ∧ Some a ∈ save_set) →
   ∃ S', _save_father save_set node = Ok S' ∧
     (∀ x, x ∈ S' ↔ x ∈ save_set ∨ ∃ a, x = Some a ∧ a ∈ ancestors node) ∧
     closed_along S' (ancestors node)) ∧
  ((∀ a, a ∈ ancestors node → Some a ∉ save_set) → None ∉ save_set →
   _save_father save_set node = Raise (AttributeError "father")).
Proof.
  intros Hnd. split.
  - intros Hclosed Hex.
    destruct (_save_father_chain node save_set Hnd Hclosed Hex) as (S' & Hrun & HS').
    exists S'. split_and!; [done | done |].
    intros i j a b Hi Hj Hij _. apply HS'. right. exists b. split; [done|].
    by eapply list_elem_of_lookup_2.
  - intros Hnone Hroot. by apply _save_father_unsaved.
Qed.

Lemma _save_father_saves_the_ancestors_witness :
  let file := mkLineage "r/d/f" (Some (mkLineage "r/d" (Some (mkLineage "r" None)))) in
  ∃ S', _save_father {[Some "r"]} file = Ok S' ∧
    (∀ x, x ∈ S' ↔ x ∈ ({[Some "r"]} : gset (option string)) ∨
                     ∃ a, x = Some a ∧ a ∈ ancestors file) ∧
    closed_along S' (ancestors file).
Proof.
  intros file.
  apply (_save_father_saves_the_ancestors file {[Some "r"]}).
  - unfold file. simpl. apply NoDup_cons. split; [|apply NoDup_singleton].
    by intros [=]%list_elem_of_singleton.
  - intros i j a b Hi Hj Hij Ha. apply elem_of_singleton in Ha. injection Ha as ->.
    destruct i as [|[|i]], j as [|[|j]]; simpl in *; try done; try lia.
    injection Hj as <-. by apply elem_of_singleton.
  - exists "r". split; [|by apply elem_of_singleton].
    unfold file. simpl. apply list_elem_of_further, list_elem_of_here.
Defined.
(** ** Adding months to a date *)

Lemma monthrange_days_bounds (year month : Z) :
  1 ≤ month ≤ 12 → 28 ≤ monthrange_days year month ≤ 31.
Proof.
  intros Hm. unfold monthrange_days, mdays.
  assert (month = 1 ∨ month = 2 ∨ month = 3 ∨ month = 4 ∨ month = 5 ∨ month = 6 ∨
          month = 7 ∨ month = 8 ∨ month = 9 ∨ month = 10 ∨ month = 11 ∨ month = 12)
    as Hcases by lia.
  destruct Hcases as [->|[->|[->|[->|[->|[->|[->|[->|[->|[->|[->| ->]]]]]]]]]]];
    simpl; try lia.
  destruct (isleap year); simpl; lia.
Qed.

Lemma datetime_new_Some year month day hour minute second dt :
  datetime_new year month day hour minute second = Some dt ↔
  dt = mkDatetime year month day hour minute second ∧
  1 ≤ year ≤ 9999 ∧ 1 ≤ month ≤ 12 ∧ 1 ≤ day ≤ monthrange_days year month ∧
  0 ≤ hour < 24 ∧ 0 ≤ minute < 60 ∧ 0 ≤ second < 60.
Proof.
  unfold datetime_new.
  match goal with |- context [if ?c then _ else _] => destruct c eqn:Hc end.
  - rewrite !andb_true_iff, !Z.leb_le, !Z.ltb_lt in Hc.
    split; [intros [= <-] | by intros [-> _]]. split; [done|]. lia.
  - split; [done|]. intros (_ & Hbounds). exfalso.
    rewrite <- not_true_iff_false in Hc. apply Hc.
    rewrite !andb_true_iff, !Z.leb_le, !Z.ltb_lt. lia.
Qed.


